(** * Claude Squad: wave scheduler, executor, event bus and context store

    A shallow embedding of [src/core/orchestrator.py], [src/core/events.py]
    and [src/core/context.py], and the properties the specification states
    about them.

    Conventions of the embedding.
    - Python objects that are mutated in place and shared between lists
      (the [Task] objects of a batch) live in a heap indexed by address;
      lists of tasks are lists of addresses.
    - Code that may raise returns an [outcome]; state that survives a raise
      is threaded explicitly, so the state after a raise is still visible.
      An exception is its class and its message; [except Exception] and the
      event loop tell the classes that derive from [Exception] from
      [SystemExit], [KeyboardInterrupt] and [asyncio.CancelledError].
    - Dictionaries whose iteration order the code relies on are association
      lists in insertion order; the others are [gmap]s, sets are [gset]s.
    - The code runs on one cooperative event loop.  A coroutine runs until
      it awaits something that suspends; [asyncio.gather] is modelled by the
      order in which the loop runs the coroutines it is given.
    - Relevance scores are rationals, as every double is one, and
      timestamps are integers read from a clock.  The product of floats
      that orders the entries of a compression pass, and the collaborators
      the code calls into (observers, event handlers, the hooks runner, the
      shell, [str] and [json.dumps]) are functions the definitions are
      parametric in. *)

From Stdlib Require Import ZArith QArith Lqa String Ascii List Permutation
  Sorted Lia DecimalString.
From Stdlib Require PrimFloat FloatOps SpecFloat Uint63.
From stdpp Require Import gmap strings list relations.
From Equations Require Import Equations.
Import ListNotations.
Local Open Scope string_scope.
Local Open Scope list_scope.
Local Open Scope nat_scope.
Set Warnings "-register-all".

(** ** Python values and exceptions *)

Module Py.

(** The JSON-like fragment of Python values that task parameters, task
    results and context values are made of.  Dictionaries are kept in
    insertion order, with string keys. *)
Inductive value : Type :=
| VNone
| VBool (b : bool)
| VInt (z : Z)
| VStr (s : string)
| VList (l : list value)
| VDict (d : list (string * value)).

Lemma value_eq_dec : ∀ a b : value, {a = b} + {a ≠ b}.
Proof.
  fix IH 1. intros a b. destruct a, b; try (right; discriminate).
  - left; reflexivity.
  - destruct (Bool.bool_dec b0 b); [left; congruence | right; congruence].
  - destruct (Z.eq_dec z z0); [left; congruence | right; congruence].
  - destruct (string_dec s s0); [left; congruence | right; congruence].
  - destruct (List.list_eq_dec IH l l0); [left; congruence | right; congruence].
  - assert (Hp : ∀ p q : string * value, {p = q} + {p ≠ q}).
    { intros [k v] [k' v']. destruct (string_dec k k'); [| right; congruence].
      destruct (IH v v'); [left; congruence | right; congruence]. }
    destruct (List.list_eq_dec Hp d d0); [left; congruence | right; congruence].
Defined.

#[global] Instance value_eq_decision : EqDecision value := value_eq_dec.

(** Truth value of an object, as [if x:] and [not x] compute it. *)
Definition truthy (v : value) : bool :=
  match v with
  | VNone => false
  | VBool b => b
  | VInt z => negb (z =? 0)%Z
  | VStr s => negb (String.eqb s "")
  | VList l => negb (Nat.eqb (length l) 0)
  | VDict d => negb (Nat.eqb (length d) 0)
  end.

(** Exceptions, by class and [str(e)]. *)
Record exn : Type := { exn_class : string; exn_str : string }.

#[global] Instance exn_eq_decision : EqDecision exn.
Proof. solve_decision. Defined.

Definition ValueError (msg : string) : exn :=
  {| exn_class := "ValueError"; exn_str := msg |}.
Definition AttributeError (msg : string) : exn :=
  {| exn_class := "AttributeError"; exn_str := msg |}.
(** [str(KeyError(k))] is the repr of the key. *)
Definition KeyError (k : string) : exn :=
  {| exn_class := "KeyError"; exn_str := "'" ++ k ++ "'" |}.
Definition TypeError (msg : string) : exn :=
  {| exn_class := "TypeError"; exn_str := msg |}.
Definition CancelledError (msg : string) : exn :=
  {| exn_class := "CancelledError"; exn_str := msg |}.
Definition SystemExit (msg : string) : exn :=
  {| exn_class := "SystemExit"; exn_str := msg |}.
Definition KeyboardInterrupt (msg : string) : exn :=
  {| exn_class := "KeyboardInterrupt"; exn_str := msg |}.

(** The classes that derive from [BaseException] and not from [Exception];
    [asyncio.CancelledError] is one of them.  A class is known by its name:
    a class of a program that derives from one of these, and not from
    [Exception], goes under the name of that base. *)
Definition base_only : list string :=
  ["BaseException"; "SystemExit"; "KeyboardInterrupt"; "GeneratorExit";
   "CancelledError"].

(** [isinstance(e, Exception)] *)
Definition is_Exception (e : exn) : bool :=
  negb (existsb (String.eqb (exn_class e)) base_only).

(** [isinstance(e, (SystemExit, KeyboardInterrupt))]: the exceptions that a
    task of the event loop does not keep for whoever awaits it. *)
Definition stops_loop (e : exn) : bool :=
  existsb (String.eqb (exn_class e)) ["SystemExit"; "KeyboardInterrupt"].

(** The result of running a piece of code: it returns or it raises. *)
Inductive outcome (A : Type) : Type :=
| Returned (a : A)
| Raised (e : exn).
Arguments Returned {A} a.
Arguments Raised {A} e.

(** [d.get(k)] and [d[k]] on an insertion-ordered dictionary. *)
Fixpoint dict_get {V : Type} (k : string) (d : list (string * V)) : option V :=
  match d with
  | [] => None
  | (k', v) :: d' => if String.eqb k k' then Some v else dict_get k d'
  end.

(** [d[k] = v]: an existing key keeps its place, a new key goes last. *)
Fixpoint dict_set {V : Type} (k : string) (v : V) (d : list (string * V))
  : list (string * V) :=
  match d with
  | [] => [(k, v)]
  | (k', v') :: d' =>
      if String.eqb k k' then (k', v) :: d' else (k', v') :: dict_set k v d'
  end.

(** [del d[k]] for a key that is present. *)
Fixpoint dict_del {V : Type} (k : string) (d : list (string * V))
  : list (string * V) :=
  match d with
  | [] => []
  | (k', v') :: d' =>
      if String.eqb k k' then d' else (k', v') :: dict_del k d'
  end.

Definition dict_item {V : Type} (k : string) (d : list (string * V)) : outcome V :=
  match dict_get k d with
  | Some v => Returned v
  | None => Raised (KeyError k)
  end.

(** *** Serialization

    [json.dumps] with its default separators and [ensure_ascii], on this
    fragment; a character of a string is a code point below 256. *)
Definition hex_digit (n : nat) : ascii :=
  nth n ["0"; "1"; "2"; "3"; "4"; "5"; "6"; "7"; "8"; "9";
         "a"; "b"; "c"; "d"; "e"; "f"]%char "0"%char.

Definition json_char (c : ascii) : string :=
  let n := nat_of_ascii c in
  if Nat.eqb n 34 then String "\" (String c EmptyString)
  else if Nat.eqb n 92 then String "\" (String c EmptyString)
  else if Nat.eqb n 10 then "\n"
  else if Nat.eqb n 13 then "\r"
  else if Nat.eqb n 9 then "\t"
  else if Nat.eqb n 8 then "\b"
  else if Nat.eqb n 12 then "\f"
  else if (n <? 32) || (126 <? n)
       then "\u00" ++ String (hex_digit (n / 16))
                         (String (hex_digit (n mod 16)) EmptyString)
       else String c EmptyString.

Definition json_string (s : string) : string :=
  String "034" (String.concat "" (map json_char (list_ascii_of_string s))
                ++ String "034" EmptyString).

Fixpoint json_value (v : value) : string :=
  match v with
  | VNone => "null"
  | VBool true => "true"
  | VBool false => "false"
  | VInt z => NilZero.string_of_int (Z.to_int z)
  | VStr s => json_string s
  | VList l => "[" ++ String.concat ", " (map json_value l) ++ "]"
  | VDict d =>
      "{" ++ String.concat ", "
               (map (λ kv, json_string (fst kv) ++ ": " ++ json_value (snd kv)) d)
          ++ "}"
  end%string.

Definition json_dumps (d : list (string * value)) : string :=
  json_value (VDict d).

(** *** State passing with exceptions

    A method takes the state of its object and gives back an outcome and
    the state it leaves behind, also when it raises. *)
Definition M (S A : Type) : Type := S → outcome A * S.

Definition ret {S A : Type} (a : A) : M S A := λ st, (Returned a, st).

Definition bind {S A B : Type} (m : M S A) (k : A → M S B) : M S B :=
  λ st, match m st with
        | (Returned a, st') => k a st'
        | (Raised e, st') => (Raised e, st')
        end.

Definition lift {S A : Type} (o : outcome A) : M S A := λ st, (o, st).

Definition read {S A : Type} (f : S → A) : M S A :=
  λ st, (Returned (f st), st).

Definition modify {S : Type} (f : S → S) : M S unit :=
  λ st, (Returned tt, f st).

(** [try: body except Exception as e: handler(e)]: the clause takes the
    exceptions that derive from [Exception]; any other goes on to the
    caller. *)
Definition try_except {S A : Type} (body : M S A) (handler : exn → M S A)
  : M S A :=
  λ st, match body st with
        | (Returned a, st') => (Returned a, st')
        | (Raised e, st') =>
            if is_Exception e then handler e st' else (Raised e, st')
        end.

(** What [asyncio.gather(..., return_exceptions=True)] does with one of
    its awaitables.  The coroutine runs as a task of the event loop.  What
    it returns is its item of the result.  A [SystemExit] or
    [KeyboardInterrupt] it raises is raised again by the task, out of the
    loop: nothing else runs, and whoever waits on the loop gets the
    exception.  A [CancelledError] it raises cancels the task, and the item
    is a new [CancelledError('')].  Any other exception is the item. *)
Definition collected (e : exn) : exn :=
  if String.eqb (exn_class e) "CancelledError" then CancelledError "" else e.

Definition capture {S A : Type} (m : M S A) : M S (outcome A) :=
  λ st, match m st with
        | (Returned a, st') => (Returned (Returned a), st')
        | (Raised e, st') =>
            if stops_loop e then (Raised e, st')
            else (Returned (Raised (collected e)), st')
        end.

Declare Scope py_scope.
Delimit Scope py_scope with py.
Notation "x <- m ;; k" := (bind m (λ x, k))
  (at level 100, m at next level, right associativity) : py_scope.
Notation "m ;; k" := (bind m (λ _, k))
  (at level 100, right associativity) : py_scope.

End Py.
Import Py.
Local Open Scope py_scope.

(** ** The orchestrator: [src/core/orchestrator.py] *)

Module Orchestrator.

Inductive TaskStatus : Type := PENDING | RUNNING | COMPLETED | FAILED.

#[global] Instance TaskStatus_eq_decision : EqDecision TaskStatus.
Proof. solve_decision. Defined.

(** [@dataclass class Task]; [__post_init__] replaces a missing
    [dependencies] by the empty list and missing [params] by the empty dict. *)
Record Task : Type := {
  id : string;
  role : string;
  action : string;
  dependencies : list string;
  params : list (string * value);
  status : TaskStatus;
  result : value;
  error : option string
}.

(** The dataclass's generated [__eq__] compares the fields one by one; it
    is modelled by equality of records.  (Python compares two [params]
    dictionaries whatever the order of their keys; two tasks with different
    ids are unequal either way.) *)
#[global] Instance Task_eq_decision : EqDecision Task.
Proof. solve_decision. Defined.

Definition mkTask (i r a : string) (deps : list string) : Task :=
  {| id := i; role := r; action := a; dependencies := deps; params := [];
     status := PENDING; result := VNone; error := None |}.

(** Task objects are mutable and shared: a batch, its waves and the list of
    results all refer to the same objects. *)
Definition addr : Type := nat.
Definition heap : Type := addr → Task.

Definition heap_of (objs : list Task) : heap :=
  λ a, nth a objs (mkTask "" "" "" []).

(** [all(dep in completed_ids for dep in task.dependencies)] *)
Definition ready (h : heap) (completed_ids : gset string) (t : addr) : bool :=
  forallb (λ dep, bool_decide (dep ∈ completed_ids)) (dependencies (h t)).

(** [t in wave] on a list of objects: identity first, then [==]. *)
Definition obj_in (h : heap) (t : addr) (wave : list addr) : bool :=
  existsb (λ w, bool_decide (w = t) || bool_decide (h w = h t)) wave.

Definition inspect {A : Type} (a : A) : {b : A | a = b} := exist _ a eq_refl.

Lemma filter_drops_one {A : Type} (f : A → bool) (l : list A) (x : A) :
  In x l → f x = false → length (List.filter f l) < length l.
Proof.
  induction l as [|y l IH]; simpl; [tauto |].
  intros [-> | Hin] Hx.
  - rewrite Hx. pose proof (List.filter_length_le f l). lia.
  - specialize (IH Hin Hx). destruct (f y); simpl; lia.
Qed.

Lemma obj_in_head (h : heap) (w : addr) (wave : list addr) :
  negb (obj_in h w (w :: wave)) = false.
Proof.
  unfold obj_in. simpl. rewrite bool_decide_eq_true_2 by reflexivity.
  reflexivity.
Qed.

(** The [while remaining_tasks:] loop of [calculate_waves].  Every round
    either raises or places at least one task, so the loop is recursion on
    the number of tasks that remain. *)
Equations? waves_loop (h : heap) (waves : list (list addr))
    (completed_ids : gset string) (remaining_tasks : list addr)
    : outcome (list (list addr)) by wf (length remaining_tasks) lt :=
  waves_loop h waves completed_ids [] := Returned waves;
  waves_loop h waves completed_ids (t :: ts)
    with inspect (List.filter (ready h completed_ids) (t :: ts)) => {
    | exist _ [] _ := Raised (ValueError "Circular dependency detected");
    | exist _ (w :: wave) Hwave :=
        waves_loop h (waves ++ [w :: wave])
          (completed_ids ∪ list_to_set (map (λ a, id (h a)) (w :: wave)))
          (List.filter (λ t', negb (obj_in h t' (w :: wave))) (t :: ts)) }.
Proof.
  assert (Hin : In w (t :: ts)).
  { eapply proj1, List.filter_In. setoid_rewrite Hwave. left. reflexivity. }
  exact (filter_drops_one _ _ w Hin (obj_in_head h w wave)).
Qed.

Definition calculate_waves (h : heap) (tasks : list addr)
  : outcome (list (list addr)) :=
  waves_loop h [] ∅ tasks.

(** *** Events and collaborators *)

(** The dictionary [_emit_event] builds:
    [{"type": event_type, "data": {"args": args, "kwargs": kwargs}}].
    The positional arguments the orchestrator passes are task objects. *)
Record OEvent : Type := {
  ev_type : string;
  ev_args : list addr;
  ev_kwargs : list (string * value)
}.

(** A callable registered with [on_event].  It is handed the event (and
    sees the task objects the event refers to); it returns or raises. *)
Definition observer : Type := heap → OEvent → outcome unit.

(** [hooks_runner.run_hooks(hook_type)], an external collaborator that runs
    shell commands: an oracle from the number of earlier calls and the
    argument to the dictionary it returns, or the exception it raises. *)
Definition runner : Type := nat → value → outcome (list (string * value)).

(** [ParallelOrchestrator], with the task objects it works on.  [emitted]
    and [hook_calls] are ghost fields: the events built by [_emit_event] so
    far, in order, and the number of [run_hooks] calls made. *)
Record Orch : Type := {
  objs : heap;
  tasks : list (string * addr);
  event_handlers : list observer;
  hooks_runner : option runner;
  emitted : list OEvent;
  hook_calls : nat
}.

(** [ParallelOrchestrator()] *)
Definition init (h : heap) : Orch :=
  {| objs := h; tasks := []; event_handlers := []; hooks_runner := None;
     emitted := []; hook_calls := 0 |}.

Definition with_objs (h : heap) (st : Orch) : Orch :=
  {| objs := h; tasks := tasks st; event_handlers := event_handlers st;
     hooks_runner := hooks_runner st; emitted := emitted st;
     hook_calls := hook_calls st |}.

Definition with_emitted (evs : list OEvent) (st : Orch) : Orch :=
  {| objs := objs st; tasks := tasks st; event_handlers := event_handlers st;
     hooks_runner := hooks_runner st; emitted := evs;
     hook_calls := hook_calls st |}.

Definition with_hook_calls (n : nat) (st : Orch) : Orch :=
  {| objs := objs st; tasks := tasks st; event_handlers := event_handlers st;
     hooks_runner := hooks_runner st; emitted := emitted st;
     hook_calls := n |}.

(** [on_event] *)
Definition on_event (handler : observer) (st : Orch) : Orch :=
  {| objs := objs st; tasks := tasks st;
     event_handlers := event_handlers st ++ [handler];
     hooks_runner := hooks_runner st; emitted := emitted st;
     hook_calls := hook_calls st |}.

Definition set_status (s : TaskStatus) (t : Task) : Task :=
  {| id := id t; role := role t; action := action t;
     dependencies := dependencies t; params := params t;
     status := s; result := result t; error := error t |}.

Definition set_result (r : value) (t : Task) : Task :=
  {| id := id t; role := role t; action := action t;
     dependencies := dependencies t; params := params t;
     status := status t; result := r; error := error t |}.

Definition set_error (e : option string) (t : Task) : Task :=
  {| id := id t; role := role t; action := action t;
     dependencies := dependencies t; params := params t;
     status := status t; result := result t; error := e |}.

(** *** Methods *)

Abbreviation M := (Py.M Orch).

(** [task.field = v] on the object at address [task]. *)
Definition store (task : addr) (t : Task) (h : heap) : heap :=
  λ a, if Nat.eqb a task then t else h a.
Arguments store : simpl never.

Definition update_task (task : addr) (f : Task → Task) : M unit :=
  modify (λ st, with_objs (store task (f (objs st task)) (objs st)) st).

(** [for handler in self.event_handlers: handler(event)] *)
Fixpoint notify (handlers : list observer) (event : OEvent) : M unit :=
  match handlers with
  | [] => ret tt
  | handler :: rest =>
      (λ st, (handler (objs st) event, st)) ;;
      notify rest event
  end.

Definition _emit_event (event_type : string) (args : list addr)
    (kwargs : list (string * value)) : M unit :=
  let event :=
    {| ev_type := event_type; ev_args := args; ev_kwargs := kwargs |} in
  modify (λ st, with_emitted (emitted st ++ [event]) st) ;;
  handlers <- read event_handlers ;;
  notify handlers event.

(** [add_task] *)
Definition add_task (task : addr) : M unit :=
  t <- read (λ st, objs st task) ;;
  modify (λ st,
    {| objs := objs st;
       tasks := dict_set (id t) task (tasks st);
       event_handlers := event_handlers st; hooks_runner := hooks_runner st;
       emitted := emitted st; hook_calls := hook_calls st |}) ;;
  _emit_event "task.added" [task] [].

(** [await self.hooks_runner.run_hooks(arg)] *)
Definition run_hooks (run : runner) (arg : value)
  : M (list (string * value)) :=
  λ st, (run (hook_calls st) arg, with_hook_calls (S (hook_calls st)) st).

(** *** Role handlers *)

Definition _handle_product_owner (task : addr) : M value :=
  ret (VDict [("vision", VStr "Feature vision document");
              ("acceptance_criteria", VList [VStr "AC1"; VStr "AC2"; VStr "AC3"]);
              ("success_metrics", VDict [("metric1", VStr "value1")])]).

Definition _handle_backend_dev (task : addr) : M value :=
  ret (VDict [("api_endpoints", VList [VStr "/api/v1/feature"]);
              ("data_models", VList [VStr "Model1"; VStr "Model2"]);
              ("tests_written", VInt 15)]).

Definition _handle_frontend_dev (task : addr) : M value :=
  ret (VDict [("components", VList [VStr "Component1"; VStr "Component2"]);
              ("ui_tests", VInt 10);
              ("accessibility_score", VInt 98)]).

Definition _handle_devops (task : addr) : M value :=
  ret (VDict [("deployment_ready", VBool true);
              ("ci_pipeline", VStr "configured");
              ("monitoring", VStr "enabled")]).

Definition _handle_qa (task : addr) : M value :=
  ret (VDict [("test_coverage", VInt 85);
              ("bugs_found", VInt 3);
              ("performance_baseline", VStr "established")]).

Definition _run_quality_checks (task : addr) : M value :=
  hooks <- read hooks_runner ;;
  match hooks with
  | Some run =>
      res <- run_hooks run (VStr "pre-push") ;;
      passed <- lift (dict_item "success" res) ;;
      ret (VDict [("quality_passed", passed);
                  ("issues_found", default (VList []) (dict_get "issues" res));
                  ("auto_fixed", default (VInt 0) (dict_get "fixed" res))])
  | None =>
      ret (VDict [("quality_passed", VBool true);
                  ("message", VStr "No hooks configured")])
  end.

Definition _perform_code_review (task : addr) : M value :=
  ret (VDict [("review_status", VStr "approved");
              ("suggestions", VList [VStr "Consider using type hints";
                                     VStr "Add docstrings"]);
              ("security_check", VStr "passed")]).

Definition _execute_hooks (task : addr) : M value :=
  t <- read (λ st, objs st task) ;;
  let hook_type := default (VStr "pre-commit") (dict_get "hook_type" (params t)) in
  hooks <- read hooks_runner ;;
  match hooks with
  | Some run => res <- run_hooks run hook_type ;; ret (VDict res)
  | None =>
      ret (VDict [("success", VBool true);
                  ("message", VStr "No hooks configured")])
  end.

Definition _default_tech_lead_action (task : addr) : M value :=
  t <- read (λ st, objs st task) ;;
  ret (VDict [("action", VStr (action t));
              ("status", VStr "completed");
              ("quality_score", VInt 95)]).

Definition _handle_tech_lead (task : addr) : M value :=
  t <- read (λ st, objs st task) ;;
  let action_handlers :=
    [("run_quality_checks", _run_quality_checks);
     ("perform_review", _perform_code_review);
     ("execute_hooks", _execute_hooks)] in
  let handler :=
    default _default_tech_lead_action (dict_get (action t) action_handlers) in
  handler task.

Definition _execute_by_role (task : addr) : M value :=
  t <- read (λ st, objs st task) ;;
  let role_handlers :=
    [("product_owner", _handle_product_owner);
     ("backend_dev", _handle_backend_dev);
     ("frontend_dev", _handle_frontend_dev);
     ("devops_eng", _handle_devops);
     ("qa_engineer", _handle_qa);
     ("tech_lead", _handle_tech_lead)] in
  match dict_get (role t) role_handlers with
  | Some handler => handler task
  | None => lift (Raised (ValueError ("Unknown role: " ++ role t)))
  end.

(** *** [execute_task], [execute_wave] *)

Section Executor.

(** Python's [str()] on a value, as the f-string of the hook failure
    message applies it. *)
Variable py_str : value → string.

(** Where a coroutine stands when it gives up control: [execute_task] does
    so once, at [await asyncio.sleep(0.1)]; the awaits on the hooks runner
    and on the role handlers run through. *)
Inductive progress : Type :=
| Finished (task : addr)
| Suspended.

(** The [except Exception as e:] clause of [execute_task]. *)
Definition on_failure (task : addr) (e : exn) : M unit :=
  update_task task (set_error (Some (exn_str e))) ;;
  update_task task (set_status FAILED) ;;
  _emit_event "task.failed" [task] [("error", VStr (exn_str e))].

(** The [try] body up to the sleep: the pre-task hooks of a TechLead task.
    [Finished] is the early [return task]. *)
Definition pre_task_hooks (task : addr) : M progress :=
  t <- read (λ st, objs st task) ;;
  hooks <- read hooks_runner ;;
  match hooks with
  | Some run =>
      if String.eqb (role t) "tech_lead" then
        hook_result <- run_hooks run (VStr (action t)) ;;
        success <- lift (dict_item "success" hook_result) ;;
        if negb (truthy success) then
          err <- lift (dict_item "error" hook_result) ;;
          update_task task (set_error (Some ("Hook failed: " ++ py_str err)%string)) ;;
          update_task task (set_status FAILED) ;;
          ret (Finished task)
        else ret Suspended
      else ret Suspended
  | None => ret Suspended
  end.

(** The [try] body after the sleep. *)
Definition run_role_handler (task : addr) : M unit :=
  res <- _execute_by_role task ;;
  update_task task (set_result res) ;;
  update_task task (set_status COMPLETED) ;;
  _emit_event "task.completed" [task] [].

(** [execute_task] from its start to the sleep ... *)
Definition execute_task_begin (task : addr) : M progress :=
  update_task task (set_status RUNNING) ;;
  _emit_event "task.started" [task] [] ;;
  try_except (pre_task_hooks task)
             (λ e, on_failure task e ;; ret (Finished task)).

(** ... and from the sleep to its [return task]. *)
Definition execute_task_resume (task : addr) : M addr :=
  try_except (run_role_handler task) (on_failure task) ;;
  ret task.

(** [await execute_task(task)] on its own: nothing else runs during the
    sleep. *)
Definition execute_task (task : addr) : M addr :=
  p <- execute_task_begin task ;;
  match p with
  | Finished t => ret t
  | Suspended => execute_task_resume task
  end.

(** [asyncio.gather] over [self.execute_task(task) for task in wave] with
    [return_exceptions=True]: the coroutines are started in order and each
    runs to its sleep; once the sleeps are over each runs to its end, in the
    same order.  An item of the result is the task a coroutine returned or
    the exception it raised; a [SystemExit] or [KeyboardInterrupt] out of a
    coroutine ends the run instead, and the coroutines after it are not
    run. *)
Fixpoint gather_start (wave : list addr)
  : M (list (addr * option (outcome addr))) :=
  match wave with
  | [] => ret []
  | task :: rest =>
      r <- capture (execute_task_begin task) ;;
      let slot := match r with
                  | Returned (Finished t) => Some (Returned t)
                  | Returned Suspended => None
                  | Raised e => Some (Raised e)
                  end in
      slots <- gather_start rest ;;
      ret ((task, slot) :: slots)
  end.

Fixpoint gather_finish (slots : list (addr * option (outcome addr)))
  : M (list (outcome addr)) :=
  match slots with
  | [] => ret []
  | (task, Some r) :: rest =>
      rs <- gather_finish rest ;; ret (r :: rs)
  | (task, None) :: rest =>
      r <- capture (execute_task_resume task) ;;
      rs <- gather_finish rest ;; ret (r :: rs)
  end.

Definition gather (wave : list addr) : M (list (outcome addr)) :=
  slots <- gather_start wave ;;
  gather_finish slots.

(** The [for i, wave in enumerate(waves):] loop of [execute_wave]. *)
Fixpoint run_waves (i : nat) (waves : list (list addr))
    (all_results : list (outcome addr)) : M (list (outcome addr)) :=
  match waves with
  | [] => ret all_results
  | wave :: rest =>
      _emit_event "wave.started" []
        [("wave_number", VInt (Z.of_nat i + 1));
         ("tasks", VInt (Z.of_nat (length wave)))] ;;
      wave_results <- gather wave ;;
      _emit_event "wave.completed" []
        [("wave_number", VInt (Z.of_nat i + 1))] ;;
      run_waves (S i) rest (all_results ++ wave_results)
  end.

Definition execute_wave (batch : list addr) : M (list (outcome addr)) :=
  waves <- (λ st, (calculate_waves (objs st) batch, st)) ;;
  run_waves 0 waves [].

End Executor.


(** *** [synthesize_results] *)

(** [TaskStatus.X.value] *)
Definition TaskStatus_value (s : TaskStatus) : string :=
  match s with
  | PENDING => "pending"
  | RUNNING => "running"
  | COMPLETED => "completed"
  | FAILED => "failed"
  end.

(** An item of a list under ["by_role"]. *)
Record role_item : Type := {
  ri_action : string;
  ri_status : string;
  ri_result : value
}.

Record synthesis_metrics : Type := {
  m_total_tasks : nat;
  m_completed : nat;
  m_failed : nat
}.

Record synthesis : Type := {
  syn_summary : list (string * value);
  syn_by_role : list (string * list role_item);
  syn_metrics : synthesis_metrics
}.

(** [r.name] for an item of a list of results, up to the object that has
    the attribute: a task has it, an exception object that [gather] put in
    the list (an exception is its class and its message) has not. *)
Definition attribute (name : string) (r : outcome addr) : outcome addr :=
  match r with
  | Returned t => Returned t
  | Raised e =>
      Raised (AttributeError
                ("'" ++ exn_class e ++ "' object has no attribute '"
                 ++ name ++ "'"))
  end.

(** [sum(1 for r in results if r.status == s)] *)
Fixpoint count_status (s : TaskStatus) (results : list (outcome addr))
  : M nat :=
  match results with
  | [] => ret 0
  | r :: rest =>
      t <- lift (attribute "status" r) ;;
      s' <- read (λ st, status (objs st t)) ;;
      n <- count_status s rest ;;
      ret (if decide (s' = s) then S n else n)
  end.

(** The [for task in results:] loop. *)
Fixpoint group_by_role (results : list (outcome addr))
    (by_role : list (string * list role_item))
  : M (list (string * list role_item)) :=
  match results with
  | [] => ret by_role
  | r :: rest =>
      t <- lift (attribute "role" r) ;;
      task <- read (λ st, objs st t) ;;
      let items := default [] (dict_get (role task) by_role) in
      group_by_role rest
        (dict_set (role task)
           (items ++ [{| ri_action := action task;
                         ri_status := TaskStatus_value (status task);
                         ri_result := result task |}])
           by_role)
  end.

Definition synthesize_results (results : list (outcome addr)) : M synthesis :=
  completed <- count_status COMPLETED results ;;
  failed <- count_status FAILED results ;;
  by_role <- group_by_role results [] ;;
  ret {| syn_summary := [];
         syn_by_role := by_role;
         syn_metrics := {| m_total_tasks := length results;
                           m_completed := completed;
                           m_failed := failed |} |}.

End Orchestrator.

(** ** The event bus: [src/core/events.py] *)

Module Events.

Inductive EventType : Type :=
| TASK_CREATED | TASK_STARTED | TASK_COMPLETED | TASK_FAILED
| WAVE_STARTED | WAVE_COMPLETED
| HANDOFF_INITIATED | REVIEW_REQUESTED | APPROVAL_GIVEN
| GATE_PASSED | GATE_FAILED
| TOKEN_USAGE_HIGH | CONTEXT_COMPRESSED.

#[global] Instance EventType_eq_decision : EqDecision EventType.
Proof. solve_decision. Defined.

Definition all_event_types : list EventType :=
  [TASK_CREATED; TASK_STARTED; TASK_COMPLETED; TASK_FAILED;
   WAVE_STARTED; WAVE_COMPLETED;
   HANDOFF_INITIATED; REVIEW_REQUESTED; APPROVAL_GIVEN;
   GATE_PASSED; GATE_FAILED;
   TOKEN_USAGE_HIGH; CONTEXT_COMPRESSED].

#[global] Instance EventType_countable : Countable EventType.
Proof.
  refine (inj_countable'
    (λ t, match t with
          | TASK_CREATED => 0 | TASK_STARTED => 1 | TASK_COMPLETED => 2
          | TASK_FAILED => 3 | WAVE_STARTED => 4 | WAVE_COMPLETED => 5
          | HANDOFF_INITIATED => 6 | REVIEW_REQUESTED => 7
          | APPROVAL_GIVEN => 8 | GATE_PASSED => 9 | GATE_FAILED => 10
          | TOKEN_USAGE_HIGH => 11 | CONTEXT_COMPRESSED => 12
          end)
    (λ n, nth n all_event_types TASK_CREATED) _).
  by intros [].
Defined.

(** [EventType.X.value] *)
Definition EventType_value (t : EventType) : string :=
  match t with
  | TASK_CREATED => "task.created"
  | TASK_STARTED => "task.started"
  | TASK_COMPLETED => "task.completed"
  | TASK_FAILED => "task.failed"
  | WAVE_STARTED => "wave.started"
  | WAVE_COMPLETED => "wave.completed"
  | HANDOFF_INITIATED => "handoff.initiated"
  | REVIEW_REQUESTED => "review.requested"
  | APPROVAL_GIVEN => "approval.given"
  | GATE_PASSED => "gate.passed"
  | GATE_FAILED => "gate.failed"
  | TOKEN_USAGE_HIGH => "system.token_usage_high"
  | CONTEXT_COMPRESSED => "system.context_compressed"
  end.

(** [str(EventType.X)], as the f-string of [_safe_handle] prints it. *)
Definition EventType_str (t : EventType) : string :=
  "EventType." ++
  match t with
  | TASK_CREATED => "TASK_CREATED"
  | TASK_STARTED => "TASK_STARTED"
  | TASK_COMPLETED => "TASK_COMPLETED"
  | TASK_FAILED => "TASK_FAILED"
  | WAVE_STARTED => "WAVE_STARTED"
  | WAVE_COMPLETED => "WAVE_COMPLETED"
  | HANDOFF_INITIATED => "HANDOFF_INITIATED"
  | REVIEW_REQUESTED => "REVIEW_REQUESTED"
  | APPROVAL_GIVEN => "APPROVAL_GIVEN"
  | GATE_PASSED => "GATE_PASSED"
  | GATE_FAILED => "GATE_FAILED"
  | TOKEN_USAGE_HIGH => "TOKEN_USAGE_HIGH"
  | CONTEXT_COMPRESSED => "CONTEXT_COMPRESSED"
  end.

(** The values of an event's [data]: [None], numbers (a [bool] is the
    number 1 or 0), strings, lists and dictionaries.  Lists and dictionaries
    are the values that cannot be hashed. *)
Inductive datum : Type :=
| DNone
| DNum (q : Q)
| DStr (s : string)
| DList (l : list datum)
| DDict (d : list (string * datum)).

Definition datum_truthy (v : datum) : bool :=
  match v with
  | DNone => false
  | DNum q => negb (Qeq_bool q 0)
  | DStr s => negb (String.eqb s "")
  | DList l => negb (Nat.eqb (length l) 0)
  | DDict d => negb (Nat.eqb (length d) 0)
  end.

(** [hash(v)], as a dictionary takes it of a key: it returns, or raises
    [TypeError] for a list or a dictionary. *)
Definition hash_of (v : datum) : outcome unit :=
  match v with
  | DList _ => Raised (TypeError "unhashable type: 'list'")
  | DDict _ => Raised (TypeError "unhashable type: 'dict'")
  | _ => Returned tt
  end.

(** [==] on the keys of a dictionary, which are values that can be hashed. *)
Definition datum_eqb (a b : datum) : bool :=
  match a, b with
  | DNone, DNone => true
  | DNum p, DNum q => Qeq_bool p q
  | DStr s, DStr t => String.eqb s t
  | _, _ => false
  end.

Record Event : Type := {
  id : string;
  type : EventType;
  timestamp : Z;
  source : string;
  data : list (string * datum);
  metadata : option (list (string * datum))
}.

(** An entry of [EventMetrics.errors]. *)
Record error_record : Type := {
  err_timestamp : Z;
  err_type : string;
  err_error : datum
}.

Record EventMetrics : Type := {
  counts : gmap string nat;
  durations : list (datum * list datum);
  errors : list error_record
}.

(** [EventMetrics()] *)
Definition EventMetrics_init : EventMetrics :=
  {| counts := ∅; durations := []; errors := [] |}.

Abbreviation R := (Py.M EventMetrics).

(** [self.durations[task_type].append(duration)], after
    [if task_type not in self.durations: self.durations[task_type] = []]. *)
Fixpoint durations_append (task_type duration : datum)
    (d : list (datum * list datum)) : list (datum * list datum) :=
  match d with
  | [] => [(task_type, [duration])]
  | (k, times) :: d' =>
      if datum_eqb task_type k then (k, times ++ [duration]) :: d'
      else (k, times) :: durations_append task_type duration d'
  end.

(** [EventMetrics.record].  The count is written first; the lookup of
    [task_type] in [self.durations] hashes it, and raises for a value that
    cannot be hashed. *)
Definition record (event : Event) : R unit :=
  let name := EventType_value (type event) in
  modify (λ m, {| counts := <[name := default 0 (counts m !! name) + 1]>
                              (counts m);
                  durations := durations m; errors := errors m |}) ;;
  (if decide (type event = TASK_COMPLETED) then
     let duration :=
       default DNone (dict_get "duration_seconds" (data event)) in
     if datum_truthy duration then
       let task_type :=
         default (DStr "unknown") (dict_get "task_type" (data event)) in
       lift (hash_of task_type) ;;
       modify (λ m, {| counts := counts m;
                       durations :=
                         durations_append task_type duration (durations m);
                       errors := errors m |})
     else ret tt
   else ret tt) ;;
  if decide (type event = TASK_FAILED ∨ type event = GATE_FAILED) then
    modify (λ m, {| counts := counts m; durations := durations m;
                    errors :=
                      errors m ++
                      [{| err_timestamp := timestamp event;
                          err_type := name;
                          err_error :=
                            default (DStr "Unknown error")
                              (dict_get "error" (data event)) |}] |})
  else ret tt.

(** A subscribed callable: its [__name__], when it has one, and what a call
    on an event does, return or raise.  What else a handler does is its own
    business.  A handler that is a coroutine function runs to its end
    without giving up control. *)
Record handler : Type := {
  h_name : option string;
  h_call : Event → outcome unit
}.

(** [EventBus].  [logged] and [invoked] are ghost fields: the lines
    [_safe_handle] wrote with [logging.error], and the handler calls made,
    in order. *)
Record EventBus : Type := {
  handlers : gmap EventType (list handler);
  event_log : list Event;
  metrics : EventMetrics;
  logged : list string;
  invoked : list (handler * Event)
}.

Abbreviation B := (Py.M EventBus).

(** The two default handlers only write a line to the log of the process. *)
Definition _log_failure : handler :=
  {| h_name := Some "_log_failure"; h_call := λ _, Returned tt |}.

Definition _log_gate_failure : handler :=
  {| h_name := Some "_log_gate_failure"; h_call := λ _, Returned tt |}.

(** [subscribe] *)
Definition subscribe (event_type : EventType) (h : handler) (b : EventBus)
  : EventBus :=
  {| handlers :=
       <[event_type := default [] (handlers b !! event_type) ++ [h]]>
         (handlers b);
     event_log := event_log b; metrics := metrics b;
     logged := logged b; invoked := invoked b |}.

(** [subscribe_all] *)
Definition subscribe_all (h : handler) (b : EventBus) : EventBus :=
  foldl (λ b' event_type, subscribe event_type h b') b all_event_types.

(** [EventBus()] *)
Definition EventBus_init : EventBus :=
  subscribe GATE_FAILED _log_gate_failure
    (subscribe TASK_FAILED _log_failure
       {| handlers := ∅; event_log := []; metrics := EventMetrics_init;
          logged := []; invoked := [] |}).

(** [_safe_handle]: the call is inside [try]; the [except Exception] clause
    formats a line with [handler.__name__], which raises [AttributeError]
    for a callable without that attribute.  An exception of the handler
    that does not derive from [Exception] is not caught, and nothing is
    logged for it. *)
Definition _safe_handle (h : handler) (event : Event) : B unit :=
  try_except
    (modify (λ b, {| handlers := handlers b; event_log := event_log b;
                     metrics := metrics b; logged := logged b;
                     invoked := invoked b ++ [(h, event)] |}) ;;
     lift (h_call h event))
    (λ e,
       name <- lift (match h_name h with
                     | Some n => Returned n
                     | None => Raised (AttributeError "__name__")
                     end) ;;
       modify (λ b, {| handlers := handlers b; event_log := event_log b;
                       metrics := metrics b;
                       logged := logged b ++
                         [("Handler " ++ name ++ " failed for "
                           ++ EventType_str (type event) ++ ": "
                           ++ exn_str e)%string];
                       invoked := invoked b |})).

(** [asyncio.gather] over [_safe_handle(handler, event)] for each handler,
    with [return_exceptions=True]: the calls are started in the order of
    the list, and a call is one step of the model.  A [SystemExit] or
    [KeyboardInterrupt] out of a call ends the run of the loop: the
    handlers after it are not called. *)
Fixpoint gather_handlers (hs : list handler) (event : Event)
  : B (list (outcome unit)) :=
  match hs with
  | [] => ret []
  | h :: rest =>
      r <- capture (_safe_handle h event) ;;
      rs <- gather_handlers rest event ;;
      ret (r :: rs)
  end.

(** [self.metrics.record(event)]: a call on the metrics of the bus. *)
Definition on_metrics {A : Type} (m : R A) : B A :=
  λ b, let '(r, ms) := m (metrics b) in
       (r, {| handlers := handlers b; event_log := event_log b;
              metrics := ms; logged := logged b; invoked := invoked b |}).

(** [emit] *)
Definition emit (event : Event) : B unit :=
  modify (λ b, {| handlers := handlers b;
                  event_log := event_log b ++ [event];
                  metrics := metrics b; logged := logged b;
                  invoked := invoked b |}) ;;
  on_metrics (record event) ;;
  hs <- read (λ b, default [] (handlers b !! type event)) ;;
  match hs with
  | [] => ret tt
  | _ :: _ => gather_handlers hs event ;; ret tt
  end.

(** A call on the bus. *)
Inductive call : Type :=
| Emit (event : Event)
| Subscribe (event_type : EventType) (h : handler)
| SubscribeAll (h : handler).

Definition do_call (c : call) : B unit :=
  match c with
  | Emit event => emit event
  | Subscribe event_type h => modify (subscribe event_type h)
  | SubscribeAll h => modify (subscribe_all h)
  end.

(** A sequence of calls, each made after the previous one returned. *)
Fixpoint do_calls (cs : list call) : B unit :=
  match cs with
  | [] => ret tt
  | c :: rest => do_call c ;; do_calls rest
  end.




(** *** Queries on the log and the metrics *)

(** [l[-limit:]]: the last [limit] items for a positive [limit]; the whole
    list for 0, since [-0] is 0; the list without its first [-limit] items
    for a negative one. *)
Definition slice_last {A : Type} (limit : Z) (l : list A) : list A :=
  if (0 <? limit)%Z
  then skipn (length l - Z.to_nat limit) l
  else skipn (Z.to_nat (- limit)) l.

(** [get_events_by_type] *)
Definition get_events_by_type (event_type : EventType) (limit : Z)
    (b : EventBus) : list Event :=
  slice_last limit
    (List.filter (λ e, bool_decide (type e = event_type)) (event_log b)).

(** [get_events_by_source] *)
Definition get_events_by_source (src : string) (limit : Z) (b : EventBus)
  : list Event :=
  slice_last limit
    (List.filter (λ e, String.eqb (source e) src) (event_log b)).

(** What [EventMetrics.export] returns. *)
Record metrics_summary : Type := {
  event_counts : gmap string nat;
  average_durations : list (datum * Q);
  error_rate : Q;
  recent_errors : list error_record
}.

Definition ZeroDivisionError (msg : string) : exn :=
  {| exn_class := "ZeroDivisionError"; exn_str := msg |}.

(** [sum(self.counts.values())] *)
Definition total_count (c : gmap string nat) : nat :=
  map_fold (λ _ n acc, n + acc) 0 c.

Section MetricsExport.

(** The [TypeError] that [+] raises for the sum so far and an item that is
    not a number; its message names the types of both. *)
Variable unsupported_operand : Q → datum → exn.

(** [sum(times)], from the left. *)
Fixpoint py_sum (acc : Q) (times : list datum) : outcome Q :=
  match times with
  | [] => Returned acc
  | DNum q :: rest => py_sum (acc + q)%Q rest
  | x :: _ => Raised (unsupported_operand acc x)
  end.

(** [sum(times) / len(times) if times else 0] *)
Definition average (times : list datum) : outcome Q :=
  match times with
  | [] => Returned 0%Q
  | _ :: _ =>
      match py_sum 0%Q times with
      | Returned total =>
          Returned (total / inject_Z (Z.of_nat (length times)))%Q
      | Raised e => Raised e
      end
  end.

(** The dictionary comprehension over [self.durations.items()]. *)
Fixpoint averages (d : list (datum * list datum))
  : outcome (list (datum * Q)) :=
  match d with
  | [] => Returned []
  | (task, times) :: rest =>
      match average times with
      | Returned a =>
          match averages rest with
          | Returned l => Returned ((task, a) :: l)
          | Raised e => Raised e
          end
      | Raised e => Raised e
      end
  end.

(** [len(self.errors) / sum(self.counts.values()) if self.counts else 0] *)
Definition error_rate_of (m : EventMetrics) : outcome Q :=
  if decide (counts m = ∅) then Returned 0%Q
  else if Nat.eqb (total_count (counts m)) 0
       then Raised (ZeroDivisionError "division by zero")
       else Returned (inject_Z (Z.of_nat (length (errors m)))
                      / inject_Z (Z.of_nat (total_count (counts m))))%Q.

(** [EventMetrics.export] *)
Definition export (m : EventMetrics) : outcome metrics_summary :=
  match averages (durations m) with
  | Returned avgs =>
      match error_rate_of m with
      | Returned rate =>
          Returned {| event_counts := counts m;
                      average_durations := avgs;
                      error_rate := rate;
                      recent_errors := slice_last 10 (errors m) |}
      | Raised e => Raised e
      end
  | Raised e => Raised e
  end.

(** [export_metrics] *)
Definition export_metrics (b : EventBus) : outcome metrics_summary :=
  export (metrics b).

End MetricsExport.

End Events.

(** ** The context store: [src/core/context.py] *)

Module Context.

(** [@dataclass class ContextEntry].  A score is a rational, as every
    double is; a timestamp is a point on the clock's scale. *)
Record ContextEntry : Type := {
  key : string;
  value : Py.value;
  relevance_score : Q;
  last_accessed : Z;
  access_count : Z
}.

(** [ContextManager].  [context] is the dictionary, in insertion order.
    [ticks] is a ghost field: the number of [datetime.now()] readings taken
    for this store so far. *)
Record ContextManager : Type := {
  max_tokens : Z;
  context : list (string * ContextEntry);
  compression_threshold : Q;
  pattern_cache : list (string * string);
  relevance_decay : Q;
  ticks : nat
}.

(** [ContextManager(max_tokens)] *)
Definition init (max_tokens : Z) : ContextManager :=
  {| max_tokens := max_tokens; context := [];
     compression_threshold := (3 # 4)%Q; pattern_cache := [];
     relevance_decay := (19 # 20)%Q; ticks := 0 |}.

Definition with_context (ctx : list (string * ContextEntry))
    (cm : ContextManager) : ContextManager :=
  {| max_tokens := max_tokens cm; context := ctx;
     compression_threshold := compression_threshold cm;
     pattern_cache := pattern_cache cm;
     relevance_decay := relevance_decay cm; ticks := ticks cm |}.

Abbreviation C := (Py.M ContextManager).

(** The static table of [_calculate_relevance]. *)
Definition relevance_map : list (string * list (string * list string)) :=
  [("product_owner",
     [("requirements", ["business_goals"; "user_stories"; "constraints"]);
      ("planning", ["sprint_capacity"; "backlog"; "priorities"]);
      ("review", ["acceptance_criteria"; "metrics"; "feedback"])]);
   ("backend_dev",
     [("design", ["api_standards"; "data_models"; "architecture"]);
      ("implement", ["tech_stack"; "database_schema"; "endpoints"]);
      ("test", ["test_coverage"; "integration_points"; "performance"])]);
   ("frontend_dev",
     [("design", ["ui_framework"; "design_system"; "components"]);
      ("implement", ["state_management"; "api_endpoints"; "routes"]);
      ("test", ["browser_targets"; "accessibility"; "performance"])]);
   ("devops_eng",
     [("setup", ["infrastructure"; "ci_tools"; "deployment_targets"]);
      ("deploy", ["pipeline_config"; "secrets"; "monitoring"]);
      ("monitor", ["metrics"; "alerts"; "sla_requirements"])]);
   ("qa_engineer",
     [("plan", ["quality_standards"; "test_strategy"; "coverage_goals"]);
      ("test", ["test_suites"; "bug_tracking"; "environments"]);
      ("report", ["metrics"; "issues"; "recommendations"])])].

(** [_calculate_relevance] *)
Definition _calculate_relevance (task_type role : string)
    (cm : ContextManager) : gset string :=
  let role_context := default [] (dict_get role relevance_map) in
  let task_keys := default [] (dict_get task_type role_context) in
  list_to_set
    (concat
       (map (λ k, k :: List.filter (String.prefix (k ++ "."))
                         (map fst (context cm)))
            task_keys)).

(** [<] on the key tuples. *)
Definition rank_ltb (a b : Q * Z) : bool :=
  negb (Qle_bool (fst b) (fst a))
  || (Qeq_bool (fst a) (fst b) && (snd a <? snd b)%Z).

Definition decay (factor : Q) (e : ContextEntry) : ContextEntry :=
  {| key := key e; value := value e;
     relevance_score := (relevance_score e * factor)%Q;
     last_accessed := last_accessed e; access_count := access_count e |}.

Section Store.

(** [x * n] for a float [x] and an int [n], as Python computes it: [n] is
    made a double and the product of the two doubles is rounded to a
    double.  The rounding can make two products equal that differ as
    rationals. *)
Variable float_mul : Q → Z → Q.

(** The sort key of [_compress]:
    [(relevance_score * access_count, last_accessed)]. *)
Definition rank (e : ContextEntry) : Q * Z :=
  (float_mul (relevance_score e) (access_count e), last_accessed e).

(** [entries.sort(key=..., reverse=True)]: descending keys, entries with
    equal keys in the order they had. *)
Fixpoint insert_desc (x : string * ContextEntry)
    (l : list (string * ContextEntry)) : list (string * ContextEntry) :=
  match l with
  | [] => [x]
  | y :: l' =>
      if rank_ltb (rank (snd x)) (rank (snd y))
      then y :: insert_desc x l'
      else x :: y :: l'
  end.

Definition sort_desc (l : list (string * ContextEntry))
  : list (string * ContextEntry) :=
  foldr insert_desc [] l.

(** [json.dumps(obj, default=str)] on a dictionary of values. *)
Variable json_dumps : list (string * Py.value) → string.

(** Python's [str()] on a value. *)
Variable py_str : Py.value → string.

(** The clock: the n-th reading of [datetime.now()]. *)
Variable clock : nat → Z.

(** [datetime.now()] *)
Definition now : C Z :=
  λ cm, (Returned (clock (ticks cm)),
         {| max_tokens := max_tokens cm; context := context cm;
            compression_threshold := compression_threshold cm;
            pattern_cache := pattern_cache cm;
            relevance_decay := relevance_decay cm; ticks := S (ticks cm) |}).

(** [TokenCounter.count] on the dump of [{k: v.value}]. *)
Definition usage_of (ctx : list (string * ContextEntry)) : Z :=
  (Z.of_nat (String.length (json_dumps (map (λ kv, (fst kv, value (snd kv))) ctx)))
   / 4)%Z.

(** [get_token_usage] *)
Definition get_token_usage (cm : ContextManager) : Z :=
  usage_of (context cm).

(** [threshold * budget], the bound of the [while] loop. *)
Definition limit (cm : ContextManager) : Q :=
  (compression_threshold cm * inject_Z (max_tokens cm))%Q.

(** The [while] loop of [_compress]; [entries] is the sorted list seen from
    its end, the side [entries.pop()] takes from.  The loop gives back the
    entries not popped and the dictionary. *)
Fixpoint evict (bound : Q) (entries : list (string * ContextEntry))
    (ctx : list (string * ContextEntry))
  : list (string * ContextEntry) * list (string * ContextEntry) :=
  match entries with
  | [] => ([], ctx)
  | (k, _) :: rest =>
      if negb (Qle_bool (inject_Z (usage_of ctx)) bound)
      then evict bound rest (dict_del k ctx)
      else (entries, ctx)
  end.

(** [_compress] *)
Definition _compress (cm : ContextManager) : ContextManager :=
  let entries := sort_desc (context cm) in
  let '(_, ctx) := evict (limit cm) (rev entries) (context cm) in
  with_context
    (map (λ kv, (fst kv, decay (relevance_decay cm) (snd kv))) ctx) cm.

(** [set] *)
Definition set (k : string) (v : Py.value) (relevance : Q) : C unit :=
  t <- now ;;
  let entry := {| key := k; value := v; relevance_score := relevance;
                  last_accessed := t; access_count := 0%Z |} in
  modify (λ cm, with_context (dict_set k entry (context cm)) cm) ;;
  cm <- read (λ cm, cm) ;;
  if negb (Qle_bool (inject_Z (get_token_usage cm)) (compression_threshold cm))
  then modify _compress
  else ret tt.

(** [get] *)
Definition get (k : string) (default : Py.value) : C Py.value :=
  cm <- read (λ cm, cm) ;;
  match dict_get k (context cm) with
  | Some entry =>
      t <- now ;;
      let entry' := {| key := key entry; value := value entry;
                       relevance_score := relevance_score entry;
                       last_accessed := t;
                       access_count := (access_count entry + 1)%Z |} in
      modify (λ cm, with_context (dict_set k entry' (context cm)) cm) ;;
      ret (value entry)
  | None => ret default
  end.

(** One item of [_apply_compression_patterns]. *)
Definition summarize (v : Py.value) : Py.value :=
  match v with
  | VList l =>
      if 10 <? length l
      then VDict [("_type", VStr "list_summary");
                  ("count", VInt (Z.of_nat (length l)));
                  ("sample", VList (firstn 3 l))]
      else v
  | VDict d =>
      if 500 <? String.length (py_str v)
      then VDict [("_type", VStr "dict_summary");
                  ("keys", VList (map VStr (firstn 5 (map fst d))));
                  ("total_keys", VInt (Z.of_nat (length d)))]
      else v
  | VStr s =>
      if 1000 <? String.length s
      then VDict [("_type", VStr "text_summary");
                  ("length", VInt (Z.of_nat (String.length s)));
                  ("preview", VStr (String.substring 0 200 s ++ "..."))]
      else v
  | _ => v
  end.

(** [_apply_compression_patterns] *)
Definition _apply_compression_patterns (d : gmap string Py.value)
  : gmap string Py.value :=
  summarize <$> d.

(** [get_relevant_context].  The keys come out of a set, whose order of
    iteration is not fixed: the result is a finite map. *)
Definition get_relevant_context (task_type role : string)
    (cm : ContextManager) : gmap string Py.value :=
  let relevant_keys := _calculate_relevance task_type role cm in
  let result :=
    set_fold (λ k (res : gmap string Py.value),
                match dict_get k (context cm) with
                | Some entry => <[k := value entry]> res
                | None => res
                end) ∅ relevant_keys in
  _apply_compression_patterns result.

(** What [export_context] writes for an entry, and what [import_context]
    reads: a dictionary whose keys may be missing. *)
Record entry_data : Type := {
  ed_value : option Py.value;
  ed_relevance : option Q;
  ed_access_count : option Z
}.

Record export_metadata : Type := {
  md_token_usage : Z;
  md_max_tokens : Z;
  md_compression_threshold : Q
}.

Record exported : Type := {
  ex_context : option (list (string * entry_data));
  ex_metadata : option export_metadata
}.


(** The loop of [import_context]. *)
Fixpoint import_entries (items : list (string * entry_data)) : C unit :=
  match items with
  | [] => ret tt
  | (k, d) :: rest =>
      v <- lift (match ed_value d with
                 | Some v => Returned v
                 | None => Raised (KeyError "value")
                 end) ;;
      t <- now ;;
      let entry := {| key := k; value := v;
                      relevance_score := default 1%Q (ed_relevance d);
                      last_accessed := t;
                      access_count := default 0%Z (ed_access_count d) |} in
      modify (λ cm, with_context (dict_set k entry (context cm)) cm) ;;
      import_entries rest
  end.

(** [import_context] *)
Definition import_context (data : exported) : C unit :=
  import_entries (default [] (ex_context data)).

End Store.

(** The float product on the doubles of the machine, for the examples:
    the score, given as a fraction whose numerator and denominator a double
    holds exactly, and the count, an integer below [2^63] in absolute value,
    are made doubles and multiplied, and the product is read back as the
    rational it is.  (An infinite product is no rational; it is read as 0,
    and the examples have none.) *)
Definition double_of_int (n : Z) : PrimFloat.float :=
  if (n <? 0)%Z
  then PrimFloat.opp (PrimFloat.of_uint63 (Uint63.of_Z (- n)))
  else PrimFloat.of_uint63 (Uint63.of_Z n).

Definition double_of (q : Q) : PrimFloat.float :=
  PrimFloat.div (double_of_int (Qnum q)) (double_of_int (Zpos (Qden q))).

Definition rational_of (x : PrimFloat.float) : Q :=
  match FloatOps.Prim2SF x with
  | SpecFloat.S754_finite sign m e =>
      let n := if sign then Zneg m else Zpos m in
      if (0 <=? e)%Z then inject_Z (n * 2 ^ e)
      else (n # Z.to_pos (2 ^ (- e)))%Q
  | _ => 0%Q
  end.

Definition double_mul (x : Q) (n : Z) : Q :=
  rational_of (PrimFloat.mul (double_of x) (double_of_int n)).

End Context.
(** ** The hooks runner: [src/core/hooks.py] *)

Module Hooks.

(** An entry of a hook list: [{"cmd": ..., "fix": ..., "name": ...}], the
    key ["fix"] being optional. *)
Record hook : Type := {
  hook_cmd : string;
  hook_fix : option string;
  hook_name : string
}.

Record HooksRunner : Type := {
  config_path : string;
  hooks : list (string * list hook)
}.

(** [HooksRunner(config_path)] *)
Definition HooksRunner_init (config_path : string) : HooksRunner :=
  {| config_path := config_path;
     hooks :=
       [("pre-commit",
          [{| hook_cmd := "black --check ."; hook_fix := Some "black .";
              hook_name := "Black formatter" |};
           {| hook_cmd := "ruff check ."; hook_fix := Some "ruff check --fix .";
              hook_name := "Ruff linter" |}]);
        ("pre-push",
          [{| hook_cmd := "pytest"; hook_fix := None;
              hook_name := "Run tests" |};
           {| hook_cmd := "pytest --cov=. --cov-report=term-missing";
              hook_fix := None; hook_name := "Coverage check" |}])] |}.

(** What [subprocess.run] gives back, as far as the code looks at it. *)
Record completed_process : Type := {
  returncode : Z;
  stderr : string
}.

(** The shell, an external collaborator: from the number of commands run
    so far in this call of [run_hooks] and the command line to the finished
    process, or the exception [subprocess.run] raises. *)
Definition shell : Type := nat → string → outcome completed_process.

(** The [results] dictionary while the loop works on it. *)
Record results : Type := {
  success : bool;
  issues : list string;
  fixed : Z
}.

(** The state of one call is the number of commands run. *)
Abbreviation H := (Py.M nat).

(** [subprocess.run(cmd, shell=True, capture_output=True, text=True)] *)
Definition subprocess_run (sh : shell) (cmd : string) : H completed_process :=
  λ n, (sh n cmd, S n).

(** [results["success"] = False] and
    [results["issues"].append(f"{hook['name']}: {detail}")] *)
Definition report (h : hook) (detail : string) (r : results) : results :=
  {| success := false;
     issues := issues r ++ [(hook_name h ++ ": " ++ detail)%string];
     fixed := fixed r |}.

(** The body of the loop over the hooks of a type; both calls of
    [subprocess.run] are inside the [try], whose [except Exception] clause
    reports what it catches as an issue. *)
Definition run_hook (sh : shell) (hook_type : string) (h : hook)
    (r : results) : H results :=
  try_except
    (result <- subprocess_run sh (hook_cmd h) ;;
     if negb (returncode result =? 0)%Z then
       match hook_fix h with
       | Some fix_cmd =>
           if String.eqb hook_type "pre-commit" then
             fix_result <- subprocess_run sh fix_cmd ;;
             if (returncode fix_result =? 0)%Z
             then ret {| success := success r; issues := issues r;
                         fixed := (fixed r + 1)%Z |}
             else ret (report h (stderr result) r)
           else ret (report h (stderr result) r)
       | None => ret (report h (stderr result) r)
       end
     else ret r)
    (λ e, ret (report h (exn_str e) r)).

Fixpoint run_each (sh : shell) (hook_type : string) (hs : list hook)
    (r : results) : H results :=
  match hs with
  | [] => ret r
  | h :: rest => r' <- run_hook sh hook_type h r ;; run_each sh hook_type rest r'
  end.

Definition results_dict (r : results) : list (string * value) :=
  [("success", VBool (success r));
   ("issues", VList (map VStr (issues r)));
   ("fixed", VInt (fixed r))].

(** [run_hooks].  The orchestrator passes the action of a task, a string,
    or the ["hook_type"] parameter of a task, which is any value: a list or
    a dictionary cannot be looked up in [self.hooks], any other value is
    looked up and, not being one of its keys, is not found. *)
Definition run_hooks (py_str : value → string) (sh : shell)
    (self : HooksRunner) (hook_type : value) : H (list (string * value)) :=
  let undefined (shown : string) : H (list (string * value)) :=
    ret [("success", VBool true);
         ("message", VStr ("No hooks defined for " ++ shown))] in
  match hook_type with
  | VStr s =>
      match dict_get s (hooks self) with
      | None => undefined s
      | Some hs =>
          r <- run_each sh s hs
                 {| success := true; issues := []; fixed := 0 |} ;;
          ret (results_dict r)
      end
  | VList _ => lift (Raised (TypeError "unhashable type: 'list'"))
  | VDict _ => lift (Raised (TypeError "unhashable type: 'dict'"))
  | v => undefined (py_str v)
  end.

(** A [HooksRunner] as the [hooks_runner] of an orchestrator (the
    attribute is [None] until it is assigned).  Each call of [run_hooks]
    has a shell of its own. *)
Definition as_runner (py_str : value → string) (sh : nat → shell)
    (self : HooksRunner) : Orchestrator.runner :=
  λ n arg, fst (run_hooks py_str (sh n) self arg 0).

End Hooks.

(** * Properties *)

(** ** The wave scheduler *)

Module SchedulerFacts.
Import Orchestrator.

Lemma waves_loop_unfold (h : heap) (waves : list (list addr))
    (completed_ids : gset string) (remaining_tasks : list addr) :
  waves_loop h waves completed_ids remaining_tasks =
  match remaining_tasks with
  | [] => Returned waves
  | _ :: _ =>
      match List.filter (ready h completed_ids) remaining_tasks with
      | [] => Raised (ValueError "Circular dependency detected")
      | w :: wave =>
          waves_loop h (waves ++ [w :: wave])
            (completed_ids ∪ list_to_set (map (λ a, id (h a)) (w :: wave)))
            (List.filter (λ t', negb (obj_in h t' (w :: wave)))
               remaining_tasks)
      end
  end.
Proof.
  destruct remaining_tasks as [|t ts]; simp waves_loop; [reflexivity |].
  destruct (inspect (List.filter (ready h completed_ids) (t :: ts)))
    as [[|w wave] Hwave]; simp waves_loop; rewrite Hwave; reflexivity.
Qed.

(** A finite set of nodes in which every node has a successor inside the
    set contains a cycle. *)
Lemma cycle_of_total (n : nat) :
  ∀ (R : relation addr) (l : list addr),
    length l ≤ n → l ≠ [] →
    (∀ x, In x l → ∃ y, In y l ∧ R x y) →
    ∃ x, In x l ∧ tc R x x.
Proof.
  induction n as [|n IH]; intros R l Hlen Hne Hsucc.
  - destruct l; [congruence | simpl in Hlen; lia].
  - destruct l as [|x l0]; [congruence |].
    destruct (Hsucc x (or_introl eq_refl)) as (y & Hy & Hxy).
    destruct (decide (y = x)) as [-> | Hyx].
    { exists x. split; [left; reflexivity | by apply tc_once]. }
    set (l' := List.remove Nat.eq_dec x (x :: l0)).
    set (R' := λ a b, R a b ∨ (R a x ∧ R x b)).
    assert (Hin' : ∀ a, In a l' ↔ In a (x :: l0) ∧ a ≠ x).
    { intros a. unfold l'. split.
      - intros Ha. apply List.in_remove in Ha. tauto.
      - intros [Ha Hax]. by apply List.in_in_remove. }
    assert (Hlen' : length l' ≤ n).
    { pose proof (List.remove_length_lt Nat.eq_dec (x :: l0) x
                    (or_introl eq_refl)) as Hlt.
      change (length l' < length (x :: l0)) in Hlt.
      clearbody l'. simpl length in Hlt, Hlen. lia. }
    assert (Hy' : In y l') by (apply Hin'; tauto).
    destruct (IH R' l' Hlen') as (z & Hz & Hcyc).
    + intros Hnil. rewrite Hnil in Hy'. destruct Hy'.
    + intros a Ha. apply Hin' in Ha as [Ha Hax].
      destruct (Hsucc a Ha) as (b & Hb & Hab).
      destruct (decide (b = x)) as [-> | Hbx].
      * exists y. split; [exact Hy' |]. right. tauto.
      * exists b. split; [apply Hin'; tauto |]. by left.
    + exists z. split; [apply Hin' in Hz; tauto |].
      assert (Hsub : ∀ a b, tc R' a b → tc R a b); [| by apply Hsub].
      clear. intros z0 z' Hcyc.
      induction Hcyc as [a b [Hab | [Hax Hxb]] | a b c [Hab | [Hax Hxb]] _ IHc].
      * apply tc_once. exact Hab.
      * eapply tc_l; [exact Hax | apply tc_once; exact Hxb].
      * eapply tc_l; [exact Hab | exact IHc].
      * eapply tc_l; [exact Hax |]. eapply tc_l; [exact Hxb | exact IHc].
Qed.

Section Scheduler.
Variable h : heap.

Lemma ready_same_fields (c : gset string) (w t : addr) :
  h w = h t → ready h c w = ready h c t.
Proof. unfold ready. by intros ->. Qed.

(** Among the remaining tasks, membership in the wave is readiness. *)
Lemma obj_in_wave (c : gset string) (rem : list addr) (t : addr) :
  In t rem → obj_in h t (List.filter (ready h c) rem) = ready h c t.
Proof.
  intros Ht. unfold obj_in.
  destruct (ready h c t) eqn:Hr.
  - apply existsb_exists. exists t. split.
    + apply List.filter_In. tauto.
    + rewrite bool_decide_eq_true_2 by reflexivity. reflexivity.
  - apply not_true_is_false. intros Hex.
    apply existsb_exists in Hex as (w & Hw & Hsame).
    apply List.filter_In in Hw as [_ Hrw].
    assert (h w = h t) as Heq.
    { apply orb_true_iff in Hsame as [Hs | Hs];
        apply bool_decide_eq_true_1 in Hs; congruence. }
    rewrite (ready_same_fields c w t Heq) in Hrw. congruence.
Qed.

Lemma remaining_after_wave (c : gset string) (rem : list addr) :
  List.filter (λ t', negb (obj_in h t' (List.filter (ready h c) rem))) rem
  = List.filter (λ t', negb (ready h c t')) rem.
Proof.
  apply List.filter_ext_in. intros t Ht. by rewrite obj_in_wave.
Qed.

Lemma wave_remaining_perm (f : addr → bool) (l : list addr) :
  Permutation (List.filter f l ++ List.filter (λ x, negb (f x)) l) l.
Proof.
  induction l as [|x l IH]; simpl; [constructor |].
  destruct (f x); simpl.
  - by constructor.
  - rewrite <- Permutation_middle. by constructor.
Qed.

(** One round of the loop, with the membership test resolved. *)
Lemma waves_loop_step (waves : list (list addr)) (c : gset string)
    (t : addr) (ts : list addr) :
  waves_loop h waves c (t :: ts) =
  match List.filter (ready h c) (t :: ts) with
  | [] => Raised (ValueError "Circular dependency detected")
  | w :: wave =>
      waves_loop h (waves ++ [w :: wave])
        (c ∪ list_to_set (map (λ a, id (h a)) (w :: wave)))
        (List.filter (λ t', negb (ready h c t')) (t :: ts))
  end.
Proof.
  rewrite waves_loop_unfold.
  pose proof (remaining_after_wave c (t :: ts)) as Hrem.
  destruct (List.filter (ready h c) (t :: ts)) eqn:Hw; [reflexivity |].
  by rewrite Hrem.
Qed.

Lemma remaining_shrinks (c : gset string) (rem : list addr) :
  List.filter (ready h c) rem ≠ [] →
  length (List.filter (λ t', negb (ready h c t')) rem) < length rem.
Proof.
  intros Hne.
  destruct (List.filter (ready h c) rem) as [|w wave] eqn:Hw; [congruence |].
  assert (In w (List.filter (ready h c) rem)) as Hin by (rewrite Hw; by left).
  apply List.filter_In in Hin as [Hin Hr].
  apply (filter_drops_one _ _ w Hin). by rewrite Hr.
Qed.

(** The only exception the scheduler raises. *)
Lemma waves_loop_outcome (n : nat) :
  ∀ (waves : list (list addr)) (c : gset string) (rem : list addr),
    length rem ≤ n →
    (∃ out, waves_loop h waves c rem = Returned out)
    ∨ waves_loop h waves c rem
      = Raised (ValueError "Circular dependency detected").
Proof.
  induction n as [|n IH]; intros waves c rem Hlen.
  - destruct rem; [| simpl in Hlen; lia].
    left. exists waves. by rewrite waves_loop_unfold.
  - destruct rem as [|t ts].
    { left. exists waves. by rewrite waves_loop_unfold. }
    rewrite waves_loop_step.
    pose proof (remaining_shrinks c (t :: ts)) as Hshr.
    destruct (List.filter (ready h c) (t :: ts)) as [|w wave] eqn:Hw;
      [by right |].
    apply IH. specialize (Hshr ltac:(congruence)). simpl in *. lia.
Qed.

(** What a returned partition looks like, for the loop started with
    [completed_ids = c] on the tasks [rem]: the new waves are non-empty,
    together they are the remaining tasks, and every dependency of a placed
    task is either already complete or the id of a task in an earlier new
    wave. *)
Lemma waves_loop_sound (n : nat) :
  ∀ (waves : list (list addr)) (c : gset string) (rem : list addr)
    (out : list (list addr)),
    length rem ≤ n →
    waves_loop h waves c rem = Returned out →
    ∃ new, out = waves ++ new
      ∧ Permutation (concat new) rem
      ∧ Forall (λ w, w ≠ []) new
      ∧ ∀ i w t d, new !! i = Some w → In t w → In d (dependencies (h t)) →
          d ∈ c ∨ ∃ j w' t', j < i ∧ new !! j = Some w' ∧ In t' w'
                              ∧ id (h t') = d.
Proof.
  induction n as [|n IH]; intros waves c rem out Hlen Hrun.
  - destruct rem; [| simpl in Hlen; lia].
    rewrite waves_loop_unfold in Hrun. injection Hrun as <-.
    exists []. rewrite app_nil_r.
    split; [reflexivity |]. split; [constructor |]. split; [constructor |].
    intros i w t d Hi. by destruct i.
  - destruct rem as [|t0 ts].
    { rewrite waves_loop_unfold in Hrun. injection Hrun as <-.
      exists []. rewrite app_nil_r.
      split; [reflexivity |]. split; [constructor |]. split; [constructor |].
      intros i w t d Hi. by destruct i. }
    rewrite waves_loop_step in Hrun.
    pose proof (remaining_shrinks c (t0 :: ts)) as Hshr.
    pose proof (wave_remaining_perm (ready h c) (t0 :: ts)) as Hperm.
    set (rem := t0 :: ts) in *.
    destruct (List.filter (ready h c) rem) as [|w0 wave0] eqn:Hw;
      [discriminate |].
    set (wave := w0 :: wave0) in *.
    specialize (Hshr ltac:(discriminate)).
    apply IH in Hrun as (new & -> & Hnew & Hne & Hdeps);
      [| subst rem; simpl in *; lia].
    exists (wave :: new). split; [by rewrite <- app_assoc |].
    split; [simpl; by rewrite Hnew |].
    split; [constructor; [discriminate | exact Hne] |].
    intros i w t d Hi Ht Hd. destruct i as [|i]; simpl in Hi.
    + injection Hi as <-. left.
      assert (In t (List.filter (ready h c) rem)) as Hin by by rewrite Hw.
      apply List.filter_In in Hin as [_ Hr]. unfold ready in Hr.
      rewrite forallb_forall in Hr. specialize (Hr d Hd).
      by apply bool_decide_eq_true_1 in Hr.
    + destruct (Hdeps i w t d Hi Ht Hd) as [Hc | (j & w' & t' & Hj & Hw' & Ht' & Hid)].
      * apply elem_of_union in Hc as [Hc | Hc]; [by left |].
        right. apply elem_of_list_to_set, list_elem_of_In, in_map_iff in Hc
          as (t' & Hid & Ht').
        exists 0, wave, t'. simpl. repeat split; auto. lia.
      * right. exists (S j), w', t'. simpl. repeat split; auto. lia.
Qed.

(** Well-formed batches, as the data model describes them: ids are unique,
    every dependency id is the id of a task of the batch, and the
    dependency relation of the batch has no cycle. *)
Definition unique_ids (tasks : list addr) : Prop :=
  NoDup (map (λ a, id (h a)) tasks).

Definition depends_on (tasks : list addr) (a b : addr) : Prop :=
  In a tasks ∧ In b tasks ∧ In (id (h b)) (dependencies (h a)).

Definition resolved (tasks : list addr) : Prop :=
  ∀ a d, In a tasks → In d (dependencies (h a)) →
    ∃ b, In b tasks ∧ id (h b) = d.

Definition acyclic (tasks : list addr) : Prop :=
  ∀ a, ¬ tc (depends_on tasks) a a.

Definition missing_dependency (tasks : list addr) : Prop :=
  ∃ a d, In a tasks ∧ In d (dependencies (h a))
         ∧ ∀ b, In b tasks → id (h b) ≠ d.

Definition cyclic (tasks : list addr) : Prop :=
  ∃ a, tc (depends_on tasks) a a.

Lemma not_ready_dependency (c : gset string) (t : addr) :
  ready h c t = false → ∃ d, In d (dependencies (h t)) ∧ d ∉ c.
Proof.
  unfold ready. induction (dependencies (h t)) as [|d ds IH]; simpl;
    [discriminate |].
  intros Hf. apply andb_false_iff in Hf as [Hd | Hds].
  - exists d. split; [by left |]. by apply bool_decide_eq_false in Hd.
  - destruct (IH Hds) as (d' & Hin & Hd'). exists d'. split; [by right | done].
Qed.

(** On a well-formed batch the loop never finds an empty wave. *)
Lemma waves_loop_complete (tasks : list addr) (n : nat) :
  resolved tasks → acyclic tasks →
  ∀ (waves : list (list addr)) (c : gset string) (rem : list addr),
    length rem ≤ n →
    (∀ t, In t rem → In t tasks) →
    (∀ t, In t tasks → ¬ In t rem → id (h t) ∈ c) →
    ∃ out, waves_loop h waves c rem = Returned out.
Proof.
  intros Hres Hacyc.
  induction n as [|n IH]; intros waves c rem Hlen Hsub Hdone.
  - destruct rem; [| simpl in Hlen; lia].
    exists waves. by rewrite waves_loop_unfold.
  - destruct rem as [|t0 ts].
    { exists waves. by rewrite waves_loop_unfold. }
    rewrite waves_loop_step.
    pose proof (remaining_shrinks c (t0 :: ts)) as Hshr.
    set (rem := t0 :: ts) in *.
    destruct (List.filter (ready h c) rem) as [|w0 wave0] eqn:Hw.
    + exfalso.
      destruct (cycle_of_total (length rem) (depends_on tasks) rem)
        as (x & _ & Hcyc); [lia | discriminate | | by apply (Hacyc x)].
      intros x Hx.
      assert (ready h c x = false) as Hnr.
      { apply not_true_is_false. intros Hr.
        assert (In x (List.filter (ready h c) rem)) as Hin
          by (apply List.filter_In; tauto).
        rewrite Hw in Hin. destruct Hin. }
      destruct (not_ready_dependency c x Hnr) as (d & Hd & Hdc).
      destruct (Hres x d (Hsub x Hx) Hd) as (b & Hb & Hid).
      exists b. destruct (in_dec Nat.eq_dec b rem) as [Hbr | Hbr].
      * split; [exact Hbr |]. unfold depends_on. rewrite Hid. auto.
      * exfalso. apply Hdc. rewrite <- Hid. by apply Hdone.
    + specialize (Hshr ltac:(discriminate)).
      apply IH.
      * subst rem. simpl in *. lia.
      * intros t Ht. apply List.filter_In in Ht as [Ht _]. by apply Hsub.
      * intros t Ht Hnot.
        destruct (in_dec Nat.eq_dec t rem) as [Htr | Htr].
        -- destruct (ready h c t) eqn:Hr.
           ++ apply elem_of_union_r, elem_of_list_to_set, list_elem_of_In,
                in_map_iff.
              exists t. split; [reflexivity |]. rewrite <- Hw.
              apply List.filter_In. tauto.
           ++ exfalso. apply Hnot. apply List.filter_In. by rewrite Hr.
        -- apply elem_of_union_l. by apply Hdone.
Qed.

(** A boolean certificate of a well-formed batch: a rank that decreases
    along every dependency edge. *)
Definition ranked (rank : addr → nat) (tasks : list addr) : bool :=
  forallb (λ a, forallb (λ b,
      implb (existsb (String.eqb (id (h b))) (dependencies (h a)))
            (rank b <? rank a)) tasks) tasks.

Lemma acyclic_of_rank (rank : addr → nat) (tasks : list addr) :
  ranked rank tasks = true → acyclic tasks.
Proof.
  intros Hrk.
  assert (Hedge : ∀ a b, depends_on tasks a b → rank b < rank a).
  { intros a b (Ha & Hb & Hdep). unfold ranked in Hrk.
    rewrite forallb_forall in Hrk. specialize (Hrk a Ha).
    rewrite forallb_forall in Hrk. specialize (Hrk b Hb).
    assert (existsb (String.eqb (id (h b))) (dependencies (h a)) = true)
      as Hex.
    { apply existsb_exists. exists (id (h b)).
      split; [exact Hdep | apply String.eqb_refl]. }
    rewrite Hex in Hrk. by apply Nat.ltb_lt in Hrk. }
  assert (Htc : ∀ a b, tc (depends_on tasks) a b → rank b < rank a).
  { intros a b Hab. induction Hab as [a b Hab | a b c Hab _ IHbc].
    - by apply Hedge.
    - apply Hedge in Hab. lia. }
  intros a Ha. apply Htc in Ha. lia.
Qed.

Definition resolvedb (tasks : list addr) : bool :=
  forallb (λ a, forallb (λ d,
      existsb (λ b, String.eqb (id (h b)) d) tasks) (dependencies (h a)))
    tasks.

Lemma resolved_of_resolvedb (tasks : list addr) :
  resolvedb tasks = true → resolved tasks.
Proof.
  intros Hb a d Ha Hd. unfold resolvedb in Hb.
  rewrite forallb_forall in Hb. specialize (Hb a Ha).
  rewrite forallb_forall in Hb. specialize (Hb d Hd).
  apply existsb_exists in Hb as (b & Hin & Heq).
  exists b. split; [exact Hin | by apply String.eqb_eq].
Qed.

Lemma unique_ids_NoDup (batch : list addr) :
  unique_ids batch → NoDup batch.
Proof.
  unfold unique_ids. intros Hnd. apply NoDup_ListNoDup in Hnd.
  apply NoDup_ListNoDup. by apply List.NoDup_map_inv in Hnd.
Qed.

Lemma unique_ids_inj (batch : list addr) (a b : addr) :
  unique_ids batch → In a batch → In b batch → id (h a) = id (h b) → a = b.
Proof.
  unfold unique_ids. induction batch as [|x l IH]; simpl; [tauto |].
  intros Hnd Ha Hb Hid. apply NoDup_cons in Hnd as [Hx Hnd].
  rewrite list_elem_of_In in Hx.
  destruct Ha as [<- | Ha], Hb as [<- | Hb]; auto.
  - exfalso. apply Hx. rewrite Hid.
    exact (in_map (λ a, id (h a)) l b Hb).
  - exfalso. apply Hx. rewrite <- Hid.
    exact (in_map (λ a, id (h a)) l a Ha).
Qed.

Lemma in_concat_lookup (ws : list (list addr)) (t : addr) :
  In t (concat ws) ↔ ∃ i w, ws !! i = Some w ∧ In t w.
Proof.
  rewrite in_concat. split.
  - intros (w & Hw & Ht). apply list_elem_of_In, list_elem_of_lookup in Hw
      as (i & Hi). eauto.
  - intros (i & w & Hi & Ht). exists w. split; [| done].
    apply list_elem_of_In, list_elem_of_lookup. eauto.
Qed.

Lemma one_wave_only (ws : list (list addr)) :
  NoDup (concat ws) →
  ∀ i j w w' t, ws !! i = Some w → ws !! j = Some w' →
    In t w → In t w' → i = j.
Proof.
  induction ws as [|w0 ws IH]; intros Hnd i j w w' t Hi Hj Ht Ht';
    [by destruct i |].
  simpl in Hnd. apply NoDup_app in Hnd as (_ & Hdisj & Hnd).
  assert (Hsep : ∀ k wk, ws !! k = Some wk → In t wk → In t w0 → False).
  { intros k wk Hk Hwk Hw0. apply (Hdisj t); [by apply list_elem_of_In |].
    apply list_elem_of_In, in_concat_lookup. eauto. }
  destruct i as [|i], j as [|j]; simpl in Hi, Hj; auto.
  - injection Hi as <-. exfalso. eauto.
  - injection Hj as <-. exfalso. eauto.
  - f_equal. eapply IH; eauto.
Qed.

(** What [calculate_waves] returns, when it returns. *)
Lemma calculate_waves_sound (batch : list addr) (waves : list (list addr)) :
  calculate_waves h batch = Returned waves →
  Permutation (concat waves) batch
  ∧ Forall (λ w, w ≠ []) waves
  ∧ ∀ i w t d, waves !! i = Some w → In t w → In d (dependencies (h t)) →
      ∃ j w' t', j < i ∧ waves !! j = Some w' ∧ In t' w' ∧ id (h t') = d.
Proof.
  intros Hrun. unfold calculate_waves in Hrun.
  apply (waves_loop_sound (length batch)) in Hrun
    as (new & -> & Hperm & Hne & Hdeps); [| lia].
  simpl. split; [exact Hperm |]. split; [exact Hne |].
  intros i w t d Hi Ht Hd.
  destruct (Hdeps i w t d Hi Ht Hd) as [Hc | Hex]; [| exact Hex].
  by apply not_elem_of_empty in Hc.
Qed.

(** With unique ids, the task a dependency names sits in an earlier wave. *)
Lemma dependency_earlier (batch : list addr) (waves : list (list addr)) :
  unique_ids batch →
  calculate_waves h batch = Returned waves →
  ∀ i w a b, waves !! i = Some w → In a w → depends_on batch a b →
    ∃ j w', j < i ∧ waves !! j = Some w' ∧ In b w'.
Proof.
  intros Huniq Hrun i w a b Hi Ha (_ & Hb & Hdep).
  destruct (calculate_waves_sound batch waves Hrun) as (Hperm & _ & Hdeps).
  destruct (Hdeps i w a _ Hi Ha Hdep) as (j & w' & t' & Hj & Hw' & Ht' & Hid).
  assert (In t' batch) as Hin.
  { eapply Permutation_in; [exact Hperm |]. apply in_concat_lookup. eauto. }
  rewrite (unique_ids_inj batch b t' Huniq Hb Hin (eq_sym Hid)). eauto.
Qed.

Lemma returned_placed (batch : list addr) (waves : list (list addr)) :
  calculate_waves h batch = Returned waves →
  ∀ t, In t batch → ∃ i w, waves !! i = Some w ∧ In t w.
Proof.
  intros Hrun t Ht.
  destruct (calculate_waves_sound batch waves Hrun) as (Hperm & _ & _).
  apply in_concat_lookup.
  eapply Permutation_in; [symmetry; exact Hperm | exact Ht].
Qed.

(** A batch the scheduler accepts has no dependency on a missing id ... *)
Lemma returned_is_resolved (batch : list addr) (waves : list (list addr)) :
  calculate_waves h batch = Returned waves → resolved batch.
Proof.
  intros Hrun a d Ha Hd.
  destruct (calculate_waves_sound batch waves Hrun) as (Hperm & _ & Hdeps).
  destruct (returned_placed batch waves Hrun a Ha) as (i & w & Hi & Hw).
  destruct (Hdeps i w a d Hi Hw Hd) as (j & w' & t' & _ & Hj & Ht' & Hid).
  exists t'. split; [| exact Hid].
  eapply Permutation_in; [exact Hperm |]. apply in_concat_lookup. eauto.
Qed.

(** ... and, when its ids are unique, no dependency cycle. *)
Lemma returned_is_acyclic (batch : list addr) (waves : list (list addr)) :
  unique_ids batch →
  calculate_waves h batch = Returned waves →
  acyclic batch.
Proof.
  intros Huniq Hrun.
  destruct (calculate_waves_sound batch waves Hrun) as (Hperm & _ & Hdeps).
  pose proof (dependency_earlier batch waves Huniq Hrun) as Hearly.
  pose proof (returned_placed batch waves Hrun) as Hplaced.
  assert (Htc : ∀ a b, tc (depends_on batch) a b →
            ∀ i w, waves !! i = Some w → In a w →
            ∃ j w', j < i ∧ waves !! j = Some w' ∧ In b w').
  { intros a b Hab. induction Hab as [a b Hab | a b c Hab _ IHbc];
      intros i w Hi Ha.
    - eapply Hearly; eauto.
    - destruct (Hearly i w a b Hi Ha Hab) as (j & w' & Hj & Hw' & Hb).
      destruct (IHbc j w' Hw' Hb) as (k & w'' & Hk & Hw'' & Hc).
      exists k, w''. split; [lia | auto]. }
  intros a Hcyc.
  assert (In a batch) as Ha
    by (inversion Hcyc as [? ? [? _] | ? ? ? [? _]]; auto).
  destruct (Hplaced a Ha) as (i & w & Hi & Hw).
  destruct (Htc a a Hcyc i w Hi Hw) as (j & w' & Hj & Hw' & Ha').
  assert (NoDup (concat waves)) as Hnd.
  { rewrite Hperm. by apply unique_ids_NoDup. }
  pose proof (one_wave_only waves Hnd i j w w' a Hi Hw' Hw Ha'). lia.
Qed.

Lemma calculate_waves_outcome (batch : list addr) :
  (∃ waves, calculate_waves h batch = Returned waves)
  ∨ calculate_waves h batch
    = Raised (ValueError "Circular dependency detected").
Proof. apply (waves_loop_outcome (length batch)). lia. Qed.

Lemma calculate_waves_complete (batch : list addr) :
  resolved batch → acyclic batch →
  ∃ waves, calculate_waves h batch = Returned waves.
Proof.
  intros Hres Hacyc.
  apply (waves_loop_complete batch (length batch) Hres Hacyc); [lia | auto |].
  intros t Ht Hnot. contradiction.
Qed.

End Scheduler.

End SchedulerFacts.

(** ** The executor *)

Module ExecutorFacts.
Import Orchestrator SchedulerFacts.

(** No registered observer raises. *)
Definition quiet (st : Orch) : Prop :=
  ∀ o, In o (event_handlers st) → ∀ hp ev, o hp ev = Returned tt.

(** An exception that comes out of a call of the hooks runner. *)
Definition from_runner (st : Orch) (e : exn) : Prop :=
  ∃ run n arg, hooks_runner st = Some run ∧ run n arg = Raised e.

(** The hooks runner raises only exceptions that derive from [Exception]. *)
Definition ordinary (st : Orch) : Prop :=
  ∀ e, from_runner st e → is_Exception e = true.

(** The exceptions the code of the orchestrator raises itself. *)
Definition from_code (e : exn) : Prop :=
  (∃ k, e = KeyError k) ∨ (∃ msg, e = ValueError msg).

Lemma from_code_is_Exception (e : exn) : from_code e → is_Exception e = true.
Proof. by intros [[k ->] | [msg ->]]. Qed.

Lemma from_code_keeps_loop (e : exn) : from_code e → stops_loop e = false.
Proof. by intros [[k ->] | [msg ->]]. Qed.

Definition terminal (s : TaskStatus) : Prop := s = COMPLETED ∨ s = FAILED.

(** What running tasks leaves alone: the observers and the hooks runner;
    events are only added. *)
Record preserved (st st' : Orch) : Prop := {
  p_handlers : event_handlers st' = event_handlers st;
  p_runner : hooks_runner st' = hooks_runner st;
  p_emitted : ∃ evs, emitted st' = emitted st ++ evs
}.

Lemma preserved_refl (st : Orch) : preserved st st.
Proof. split; auto. exists []. by rewrite app_nil_r. Qed.

Lemma preserved_trans (st1 st2 st3 : Orch) :
  preserved st1 st2 → preserved st2 st3 → preserved st1 st3.
Proof.
  intros [H1 R1 [e1 E1]] [H2 R2 [e2 E2]]. split; try congruence.
  exists (e1 ++ e2). rewrite E2, E1. by rewrite app_assoc.
Qed.

Lemma preserved_quiet (st st' : Orch) :
  preserved st st' → quiet st → quiet st'.
Proof. intros [H _ _] Hq. unfold quiet. by rewrite H. Qed.

Lemma preserved_from_runner (st st' : Orch) (e : exn) :
  preserved st st' → from_runner st' e → from_runner st e.
Proof.
  intros [_ R _] (run & n & arg & Hrun & He). exists run, n, arg.
  split; [congruence | exact He].
Qed.

Lemma preserved_ordinary (st st' : Orch) :
  preserved st st' → ordinary st → ordinary st'.
Proof.
  intros P Ho e He. apply Ho. by eapply preserved_from_runner.
Qed.

Lemma preserved_emitted (st st' : Orch) (ev : OEvent) :
  preserved st st' → In ev (emitted st) → In ev (emitted st').
Proof. intros [_ _ [evs ->]] Hin. apply in_app_iff. by left. Qed.

(** Only the task at [t] is written. *)
Definition writes_only (t : addr) (st st' : Orch) : Prop :=
  ∀ u, u ≠ t → objs st' u = objs st u.

Lemma store_same (t : addr) (x : Task) (h : heap) : store t x h t = x.
Proof. unfold store. by rewrite Nat.eqb_refl. Qed.

Lemma store_other (t u : addr) (x : Task) (h : heap) :
  u ≠ t → store t x h u = h u.
Proof. intros Hne. unfold store. by apply Nat.eqb_neq in Hne as ->. Qed.

Lemma notify_accepted (hs : list observer) (ev : OEvent) (st : Orch) :
  (∀ o, In o hs → o (objs st) ev = Returned tt) →
  notify hs ev st = (Returned tt, st).
Proof.
  induction hs as [|o hs IH]; intros Hq; [reflexivity |].
  simpl. unfold bind. rewrite (Hq o (or_introl eq_refl)).
  apply IH. intros o' Ho'. apply Hq. by right.
Qed.

(** An event every observer returns on. *)
Lemma emit_accepted (ty : string) (args : list addr)
    (kw : list (string * value)) (st : Orch) :
  (∀ o, In o (event_handlers st) →
     o (objs st) {| ev_type := ty; ev_args := args; ev_kwargs := kw |}
     = Returned tt) →
  _emit_event ty args kw st
  = (Returned tt,
     with_emitted (emitted st ++
       [{| ev_type := ty; ev_args := args; ev_kwargs := kw |}]) st).
Proof.
  intros Hq. unfold _emit_event, bind, modify, read. simpl.
  by rewrite notify_accepted.
Qed.

Lemma emit_quiet (ty : string) (args : list addr)
    (kw : list (string * value)) (st : Orch) :
  quiet st →
  _emit_event ty args kw st
  = (Returned tt,
     with_emitted (emitted st ++
       [{| ev_type := ty; ev_args := args; ev_kwargs := kw |}]) st).
Proof. intros Hq. apply emit_accepted. intros o Ho. by apply Hq. Qed.

(** The event is on record whatever the observers do with it. *)
Lemma emit_recorded (ty : string) (args : list addr)
    (kw : list (string * value)) (st : Orch) :
  snd (_emit_event ty args kw st)
  = with_emitted (emitted st ++
      [{| ev_type := ty; ev_args := args; ev_kwargs := kw |}]) st.
Proof.
  unfold _emit_event, bind, modify, read. simpl.
  generalize (with_emitted (emitted st ++
      [{| ev_type := ty; ev_args := args; ev_kwargs := kw |}]) st) as st1.
  generalize {| ev_type := ty; ev_args := args; ev_kwargs := kw |} as ev.
  generalize (event_handlers st) as hs. clear.
  induction hs as [|o hs IH]; intros ev st1; [reflexivity |].
  simpl. unfold bind. destruct (o (objs st1) ev) as [[]|e]; [apply IH | done].
Qed.

(** The role handlers only consult the hooks runner: they leave the task
    objects, the observers and the events alone. *)
Definition hooks_only {A : Type} (m : M A) : Prop :=
  ∀ st, ∃ n, snd (m st) = with_hook_calls n st.

Lemma with_hook_calls_twice (n m : nat) (st : Orch) :
  with_hook_calls n (with_hook_calls m st) = with_hook_calls n st.
Proof. reflexivity. Qed.

Lemma with_hook_calls_same (st : Orch) :
  st = with_hook_calls (hook_calls st) st.
Proof. by destruct st. Qed.

Lemma hooks_only_ret {A : Type} (a : A) : hooks_only (ret a : M A).
Proof. intros st. exists (hook_calls st). apply with_hook_calls_same. Qed.

Lemma hooks_only_lift {A : Type} (o : outcome A) : hooks_only (lift o : M A).
Proof. intros st. exists (hook_calls st). apply with_hook_calls_same. Qed.

Lemma hooks_only_read {A : Type} (f : Orch → A) : hooks_only (read f).
Proof. intros st. exists (hook_calls st). apply with_hook_calls_same. Qed.

Lemma hooks_only_run_hooks (run : runner) (arg : value) :
  hooks_only (run_hooks run arg).
Proof. intros st. by exists (S (hook_calls st)). Qed.

Lemma hooks_only_bind {A B : Type} (m : M A) (k : A → M B) :
  hooks_only m → (∀ a, hooks_only (k a)) → hooks_only (bind m k).
Proof.
  intros Hm Hk st. unfold bind. destruct (Hm st) as [n Hn].
  destruct (m st) as [[a | e] st1]; simpl in Hn; subst st1.
  - destruct (Hk a (with_hook_calls n st)) as [n' Hn'].
    exists n'. by rewrite Hn'.
  - by exists n.
Qed.

Ltac hooks_only_step :=
  first [ apply hooks_only_bind; [| intros ?]
        | apply hooks_only_ret | apply hooks_only_lift
        | apply hooks_only_read | apply hooks_only_run_hooks
        | match goal with
          | |- hooks_only (match ?x with Some _ => _ | None => _ end) =>
              destruct x
          end ].

Lemma hooks_only_dispatch {A : Type} (k : string)
    (table : list (string * (addr → M A))) (fallback : addr → M A) :
  (∀ t, hooks_only (fallback t)) →
  Forall (λ kv, ∀ t, hooks_only (snd kv t)) table →
  ∀ t, hooks_only (default fallback (dict_get k table) t).
Proof.
  intros Hf Htable. induction Htable as [|[k' f] table Hhd _ IH]; simpl;
    [exact Hf |].
  destruct (String.eqb k k'); [exact Hhd | exact IH].
Qed.

Lemma hooks_only_tech_lead (task : addr) : hooks_only (_handle_tech_lead task).
Proof.
  unfold _handle_tech_lead. hooks_only_step; [hooks_only_step |].
  apply hooks_only_dispatch.
  - intros t. unfold _default_tech_lead_action. repeat hooks_only_step.
  - repeat constructor; simpl; intros t.
    + unfold _run_quality_checks. repeat hooks_only_step.
    + unfold _perform_code_review. hooks_only_step.
    + unfold _execute_hooks. repeat hooks_only_step.
Qed.

Lemma hooks_only_execute_by_role (task : addr) :
  hooks_only (_execute_by_role task).
Proof.
  unfold _execute_by_role. apply hooks_only_bind; [hooks_only_step |].
  intros a.
  set (table := [("product_owner", _handle_product_owner);
                 ("backend_dev", _handle_backend_dev);
                 ("frontend_dev", _handle_frontend_dev);
                 ("devops_eng", _handle_devops);
                 ("qa_engineer", _handle_qa);
                 ("tech_lead", _handle_tech_lead)]).
  pose proof (hooks_only_dispatch (role a) table
                (λ _, lift (Raised (ValueError ("Unknown role: " ++ role a))))
                (λ _, hooks_only_lift _)) as Hd.
  assert (Forall (λ kv, ∀ t, hooks_only (snd kv t)) table) as Htable.
  { repeat constructor; simpl; intros t;
      try (unfold _handle_product_owner, _handle_backend_dev,
             _handle_frontend_dev, _handle_devops, _handle_qa;
           apply hooks_only_ret).
    apply hooks_only_tech_lead. }
  specialize (Hd Htable task).
  destruct (dict_get (role a) table); exact Hd.
Qed.

(** What a role handler raises comes from the code of the orchestrator or
    from the hooks runner. *)
Definition confined {A : Type} (m : M A) : Prop :=
  ∀ st e st', m st = (Raised e, st') → from_code e ∨ from_runner st e.

Lemma confined_ret {A : Type} (a : A) : confined (ret a : M A).
Proof. intros st e st' H. discriminate H. Qed.

Lemma confined_read {A : Type} (f : Orch → A) : confined (read f).
Proof. intros st e st' H. discriminate H. Qed.

Lemma confined_item (k : string) (d : list (string * value)) :
  confined (lift (dict_item k d) : M value).
Proof.
  intros st e st'. unfold lift, dict_item.
  destruct (dict_get k d); intros [= <- _]. left. left. by exists k.
Qed.

Lemma confined_unknown_role {A : Type} (msg : string) :
  confined (lift (Raised (ValueError msg)) : M A).
Proof. intros st e st' [= <- _]. left. right. by exists msg. Qed.

Lemma confined_run_hooks (run : runner) (arg : value) :
  ∀ st, hooks_runner st = Some run →
  ∀ e st', run_hooks run arg st = (Raised e, st') → from_runner st e.
Proof.
  intros st Hrun e st'. unfold run_hooks. intros [= He _].
  by exists run, (hook_calls st), arg.
Qed.

Lemma confined_bind {A B : Type} (m : M A) (k : A → M B) :
  hooks_only m → confined m → (∀ a, confined (k a)) → confined (bind m k).
Proof.
  intros Hh Hm Hk st e st'. unfold bind. destruct (Hh st) as [n Hn].
  destruct (m st) as [[a | e0] st1] eqn:Hrun; simpl in Hn; subst st1.
  - intros H. destruct (Hk a _ _ _ H) as [Hc | (run & i & arg & Hr & He)];
      [by left | right]. by exists run, i, arg.
  - intros [= <- _]. by eapply Hm.
Qed.

Lemma confined_with_runner {A : Type} (k : option runner → M A) :
  (∀ run st e st', hooks_runner st = Some run →
     k (Some run) st = (Raised e, st') → from_code e ∨ from_runner st e) →
  confined (k None) →
  confined (bind (read hooks_runner) k).
Proof.
  intros Hsome Hnone st e st'. unfold bind, read.
  destruct (hooks_runner st) as [run |] eqn:Hrun.
  - by apply Hsome.
  - apply Hnone.
Qed.

Lemma confined_run_quality_checks (task : addr) :
  confined (_run_quality_checks task).
Proof.
  unfold _run_quality_checks. apply confined_with_runner;
    [| apply confined_ret].
  intros run st e st' Hrun. unfold bind.
  destruct (run_hooks run (VStr "pre-push") st) as [[res | e0] st1] eqn:Hcall.
  - unfold lift, dict_item. destruct (dict_get "success" res).
    + discriminate.
    + intros [= <- _]. left. left. by eexists.
  - intros [= <- _]. right. by eapply confined_run_hooks.
Qed.

Lemma confined_execute_hooks (task : addr) : confined (_execute_hooks task).
Proof.
  unfold _execute_hooks. apply confined_bind;
    [apply hooks_only_read | apply confined_read |]. intros t.
  apply confined_with_runner; [| apply confined_ret].
  intros run st e st' Hrun. unfold bind.
  destruct (run_hooks run _ st) as [[res | e0] st1] eqn:Hcall.
  - discriminate.
  - intros [= <- _]. right. by eapply confined_run_hooks.
Qed.

Lemma confined_dispatch {A : Type} (k : string)
    (table : list (string * (addr → M A))) (fallback : addr → M A) :
  (∀ t, confined (fallback t)) →
  Forall (λ kv, ∀ t, confined (snd kv t)) table →
  ∀ t, confined (default fallback (dict_get k table) t).
Proof.
  intros Hf Htable. induction Htable as [|[k' f] table Hhd _ IH]; simpl;
    [exact Hf |].
  destruct (String.eqb k k'); [exact Hhd | exact IH].
Qed.

Lemma confined_tech_lead (task : addr) : confined (_handle_tech_lead task).
Proof.
  unfold _handle_tech_lead. apply confined_bind;
    [apply hooks_only_read | apply confined_read |]. intros t.
  apply confined_dispatch.
  - intros u. unfold _default_tech_lead_action. apply confined_bind;
      [apply hooks_only_read | apply confined_read |]. intros x.
    apply confined_ret.
  - repeat (apply List.Forall_cons; [simpl; intros u |]);
      [| | | apply List.Forall_nil].
    + apply confined_run_quality_checks.
    + apply confined_ret.
    + apply confined_execute_hooks.
Qed.

Lemma confined_execute_by_role (task : addr) :
  confined (_execute_by_role task).
Proof.
  unfold _execute_by_role. apply confined_bind;
    [apply hooks_only_read | apply confined_read |]. intros a.
  set (table := [("product_owner", _handle_product_owner);
                 ("backend_dev", _handle_backend_dev);
                 ("frontend_dev", _handle_frontend_dev);
                 ("devops_eng", _handle_devops);
                 ("qa_engineer", _handle_qa);
                 ("tech_lead", _handle_tech_lead)]).
  pose proof (confined_dispatch (role a) table
                (λ _, lift (Raised (ValueError ("Unknown role: " ++ role a))))
                (λ _, confined_unknown_role _)) as Hd.
  assert (Forall (λ kv, ∀ t, confined (snd kv t)) table) as Htable.
  { repeat (apply List.Forall_cons; [simpl; intros t |]);
      [| | | | | | apply List.Forall_nil];
      try (unfold _handle_product_owner, _handle_backend_dev,
             _handle_frontend_dev, _handle_devops, _handle_qa;
           apply confined_ret).
    apply confined_tech_lead. }
  specialize (Hd Htable task).
  destruct (dict_get (role a) table); exact Hd.
Qed.

Section Tasks.
Variable py_str : value → string.

Definition started (t : addr) : OEvent :=
  {| ev_type := "task.started"; ev_args := [t]; ev_kwargs := [] |}.

Definition failed (t : addr) (msg : string) : OEvent :=
  {| ev_type := "task.failed"; ev_args := [t];
     ev_kwargs := [("error", VStr msg)] |}.

(** A step that writes at most the task at [t] and emits nothing. *)
Definition silent (t : addr) (st st' : Orch) : Prop :=
  event_handlers st' = event_handlers st
  ∧ hooks_runner st' = hooks_runner st
  ∧ emitted st' = emitted st
  ∧ writes_only t st st'.

Lemma silent_preserved (t : addr) (st st' : Orch) :
  silent t st st' → preserved st st'.
Proof.
  intros (H & R & E & _). split; auto. exists []. by rewrite app_nil_r.
Qed.

Lemma pre_task_hooks_spec (t : addr) (st : Orch) :
  ∃ r st', pre_task_hooks py_str t st = (r, st')
    ∧ silent t st st'
    ∧ match r with
      | Returned (Finished t') => t' = t ∧ status (objs st' t) = FAILED
      | _ => objs st' t = objs st t
      end.
Proof.
  unfold pre_task_hooks, bind, read, lift, run_hooks, dict_item, silent,
    writes_only. simpl.
  destruct (hooks_runner st) as [run|] eqn:Hrun; simpl.
  2: { eexists _, _. split; [reflexivity |]. auto 10. }
  destruct (String.eqb (role (objs st t)) "tech_lead"); simpl.
  2: { eexists _, _. split; [reflexivity |]. auto 10. }
  destruct (run (hook_calls st) (VStr (action (objs st t)))) as [res | e];
    simpl.
  2: { eexists _, _. split; [reflexivity |]. simpl. auto 10. }
  destruct (dict_get "success" res) as [success|]; simpl.
  2: { eexists _, _. split; [reflexivity |]. simpl. auto 10. }
  destruct (negb (truthy success)); simpl.
  2: { eexists _, _. split; [reflexivity |]. simpl. auto 10. }
  destruct (dict_get "error" res) as [err|]; simpl.
  2: { eexists _, _. split; [reflexivity |]. simpl. auto 10. }
  eexists _, _. split; [reflexivity |]. simpl.
  split; [| split; [reflexivity | by rewrite store_same]].
  repeat split; auto. intros u Hu. by rewrite !(store_other t u) by exact Hu.
Qed.

(** What the pre-task hooks raise: a missing key of the runner's answer,
    or what the runner raised. *)
Lemma pre_task_hooks_raises (t : addr) (st st' : Orch) (e : exn) :
  pre_task_hooks py_str t st = (Raised e, st') →
  from_code e ∨ from_runner st e.
Proof.
  unfold pre_task_hooks, bind, read, lift, run_hooks, dict_item. simpl.
  destruct (hooks_runner st) as [run|] eqn:Hrun; simpl; [| discriminate].
  destruct (String.eqb (role (objs st t)) "tech_lead"); simpl;
    [| discriminate].
  destruct (run (hook_calls st) (VStr (action (objs st t)))) as [res | e0]
    eqn:Hcall; simpl.
  2: { intros [= <- _]. right.
       by exists run, (hook_calls st), (VStr (action (objs st t))). }
  destruct (dict_get "success" res) as [success|]; simpl.
  2: { intros [= <- _]. left. left. by eexists. }
  destruct (negb (truthy success)); simpl; [| discriminate].
  destruct (dict_get "error" res) as [err|]; simpl; [discriminate |].
  intros [= <- _]. left. left. by eexists.
Qed.

Lemma raised_is_Exception (st : Orch) (e : exn) :
  ordinary st → from_code e ∨ from_runner st e → is_Exception e = true.
Proof.
  intros Ho [Hc | Hr]; [by apply from_code_is_Exception | by apply Ho].
Qed.

(** The state the [except] clause leaves, whatever the observers then do
    with the [task.failed] event. *)
Lemma on_failure_state (t : addr) (e : exn) (st : Orch) :
  let st' := snd (on_failure t e st) in
  status (objs st' t) = FAILED
  ∧ error (objs st' t) = Some (exn_str e)
  ∧ emitted st' = emitted st ++ [failed t (exn_str e)]
  ∧ event_handlers st' = event_handlers st
  ∧ hooks_runner st' = hooks_runner st
  ∧ writes_only t st st'.
Proof.
  unfold on_failure, update_task, bind, modify, writes_only. simpl.
  rewrite emit_recorded. simpl. rewrite !store_same. simpl.
  repeat split; auto. intros u Hu. by rewrite !(store_other t u) by exact Hu.
Qed.

Lemma on_failure_returns (t : addr) (e : exn) (st : Orch) :
  quiet st → fst (on_failure t e st) = Returned tt.
Proof.
  intros Hq. unfold on_failure, update_task, bind, modify. simpl.
  by rewrite emit_quiet.
Qed.

Lemma on_failure_spec (t : addr) (e : exn) (st : Orch) :
  quiet st →
  ∃ st', on_failure t e st = (Returned tt, st')
    ∧ preserved st st' ∧ writes_only t st st'
    ∧ status (objs st' t) = FAILED
    ∧ error (objs st' t) = Some (exn_str e)
    ∧ emitted st' = emitted st ++ [failed t (exn_str e)].
Proof.
  intros Hq. pose proof (on_failure_returns t e st Hq) as Hr.
  destruct (on_failure_state t e st) as (Hs & He & Hev & Hh & Hk & Hw).
  destruct (on_failure t e st) as [r st'] eqn:Hrun. simpl in *. subst r.
  exists st'. split; [reflexivity |]. repeat split; auto.
  by eexists.
Qed.

Lemma execute_task_begin_spec (t : addr) (st : Orch) :
  quiet st → ordinary st →
  ∃ p st', execute_task_begin py_str t st = (Returned p, st')
    ∧ preserved st st' ∧ writes_only t st st'
    ∧ In (started t) (emitted st')
    ∧ ((p = Finished t ∧ status (objs st' t) = FAILED)
       ∨ (p = Suspended ∧ status (objs st' t) = RUNNING)).
Proof.
  intros Hq Ho. unfold execute_task_begin, bind, update_task, modify. simpl.
  rewrite emit_quiet by exact Hq.
  set (st1 := with_emitted _ _).
  assert (preserved st st1) as P1.
  { split; [reflexivity | reflexivity |]. by eexists. }
  assert (writes_only t st st1) as W1.
  { intros u Hu. simpl. by rewrite store_other. }
  assert (In (started t) (emitted st1)) as S1.
  { simpl. apply in_app_iff. right. by left. }
  assert (status (objs st1 t) = RUNNING) as R1.
  { simpl. by rewrite store_same. }
  destruct (pre_task_hooks_spec t st1) as (r & st2 & Hrun & Hsil & Hr).
  unfold try_except. rewrite Hrun.
  assert (∀ e, r = Raised e → is_Exception e = true) as Hexn.
  { intros e ->. apply (raised_is_Exception st1).
    - by eapply preserved_ordinary.
    - by eapply pre_task_hooks_raises. }
  pose proof (silent_preserved t st1 st2 Hsil) as P2.
  destruct Hsil as (_ & _ & _ & W2).
  destruct r as [[t' |] | e].
  - destruct Hr as [-> Hst]. exists (Finished t), st2.
    split; [reflexivity |].
    split; [by eapply preserved_trans |].
    split; [intros u Hu; by rewrite W2, W1 |].
    split; [by eapply preserved_emitted |]. by left.
  - exists Suspended, st2. split; [reflexivity |].
    split; [by eapply preserved_trans |].
    split; [intros u Hu; by rewrite W2, W1 |].
    split; [by eapply preserved_emitted |]. right. by rewrite Hr.
  - destruct (on_failure_spec t e st2) as (st3 & Hf & P3 & W3 & Hs & _).
    { eapply preserved_quiet; [| exact Hq]. by eapply preserved_trans. }
    rewrite (Hexn e eq_refl). unfold bind. rewrite Hf.
    exists (Finished t), st3. split; [reflexivity |].
    split; [eapply preserved_trans; [| exact P3]; by eapply preserved_trans |].
    split; [intros u Hu; by rewrite W3, W2, W1 |].
    split; [| by left].
    eapply preserved_emitted; [exact P3 |]. by eapply preserved_emitted.
Qed.

Lemma execute_task_resume_spec (t : addr) (st : Orch) :
  quiet st → ordinary st →
  ∃ st', execute_task_resume t st = (Returned t, st')
    ∧ preserved st st' ∧ writes_only t st st'
    ∧ terminal (status (objs st' t)).
Proof.
  intros Hq Ho. unfold execute_task_resume, run_role_handler, try_except, bind.
  destruct (hooks_only_execute_by_role t st) as [n Hn].
  pose proof (confined_execute_by_role t st) as Hexn.
  destruct (_execute_by_role t st) as [[res | e] st1]; simpl in Hn; subst st1.
  - unfold update_task, modify. simpl. rewrite emit_quiet by exact Hq.
    eexists. split; [reflexivity |]. simpl.
    split; [split; [reflexivity | reflexivity | by eexists] |].
    split; [intros u Hu; simpl; by rewrite !(store_other t u) by exact Hu |].
    left. by rewrite store_same.
  - destruct (on_failure_spec t e (with_hook_calls n st) Hq)
      as (st3 & Hf & P3 & W3 & Hs & _).
    rewrite (raised_is_Exception st e Ho (Hexn e _ eq_refl)), Hf.
    exists st3. split; [reflexivity |].
    split; [| split; [exact W3 | by right]].
    destruct P3 as [H3 R3 E3]. by split.
Qed.

(** The first phase of [gather]: every coroutine of the wave is started. *)
Lemma gather_start_spec (wave : list addr) :
  NoDup wave →
  ∀ st, quiet st → ordinary st →
  ∃ slots st', gather_start py_str wave st = (Returned slots, st')
    ∧ preserved st st'
    ∧ (∀ u, ¬ In u wave → objs st' u = objs st u)
    ∧ map fst slots = wave
    ∧ (∀ t, In t wave → In (started t) (emitted st'))
    ∧ Forall (λ s, snd s = None
                   ∨ (snd s = Some (Returned (fst s))
                      ∧ status (objs st' (fst s)) = FAILED)) slots.
Proof.
  induction wave as [|t rest IH]; intros Hnd st Hq Ho.
  - exists [], st. simpl. split; [reflexivity |].
    split; [apply preserved_refl |]. repeat split; auto.
    intros t [].
  - apply NoDup_cons in Hnd as [Ht Hnd]. rewrite list_elem_of_In in Ht.
    destruct (execute_task_begin_spec t st Hq Ho)
      as (p & st1 & Hb & P1 & W1 & S1 & Hp).
    destruct (IH Hnd st1 (preserved_quiet _ _ P1 Hq)
                (preserved_ordinary _ _ P1 Ho))
      as (slots & st2 & Hrest & P2 & F2 & Hfst & S2 & Hslots).
    cbn [gather_start]. unfold bind, capture. rewrite Hb, Hrest.
    eexists _, st2. split; [reflexivity |].
    split; [by eapply preserved_trans |].
    split.
    { intros u Hu. simpl in Hu. rewrite F2 by tauto.
      apply W1. intros ->. tauto. }
    split; [simpl; by rewrite Hfst |].
    split.
    { intros u [<- | Hu]; [by eapply preserved_emitted | by apply S2]. }
    constructor; [| exact Hslots]. simpl.
    destruct Hp as [[-> Hs] | [-> _]]; [right | by left].
    split; [reflexivity |]. by rewrite F2.
Qed.

(** The second phase: every suspended coroutine runs to its end. *)
Lemma gather_finish_spec (slots : list (addr * option (outcome addr))) :
  NoDup (map fst slots) →
  ∀ st, quiet st → ordinary st →
  Forall (λ s, snd s = None
               ∨ (snd s = Some (Returned (fst s))
                  ∧ status (objs st (fst s)) = FAILED)) slots →
  ∃ st', gather_finish slots st
         = (Returned (map (λ s, Returned (fst s)) slots), st')
    ∧ preserved st st'
    ∧ (∀ u, ¬ In u (map fst slots) → objs st' u = objs st u)
    ∧ (∀ t, In t (map fst slots) → terminal (status (objs st' t))).
Proof.
  induction slots as [|[t slot] rest IH]; intros Hnd st Hq Ho Hslots.
  - exists st. simpl. split; [reflexivity |].
    split; [apply preserved_refl |]. split; [auto | intros t []].
  - simpl in Hnd. apply NoDup_cons in Hnd as [Ht Hnd].
    rewrite list_elem_of_In in Ht.
    apply Forall_cons in Hslots as [Hslot Hslots]. simpl in Hslot.
    destruct Hslot as [-> | [-> Hfailed]].
    + destruct (execute_task_resume_spec t st Hq Ho)
        as (st1 & Hr & P1 & W1 & T1).
      destruct (IH Hnd st1 (preserved_quiet _ _ P1 Hq)
                  (preserved_ordinary _ _ P1 Ho))
        as (st2 & Hrest & P2 & F2 & T2).
      { rewrite Forall_forall in Hslots. apply Forall_forall.
        intros [u s] Hin. destruct (Hslots _ Hin) as [Hs | [Hs Hf]];
          [by left | right]. split; [exact Hs |]. simpl in *.
        rewrite W1; [exact Hf |]. intros ->. apply Ht.
        apply list_elem_of_In in Hin. by apply (in_map fst) in Hin. }
      cbn [gather_finish]. unfold bind, capture. rewrite Hr, Hrest.
      exists st2. split; [reflexivity |].
      split; [by eapply preserved_trans |].
      split.
      { intros u Hu. simpl in Hu. rewrite F2 by tauto.
        apply W1. intros ->. tauto. }
      intros u [<- | Hu]; [| by apply T2]. by rewrite F2.
    + simpl in Hfailed.
      destruct (IH Hnd st Hq Ho Hslots) as (st2 & Hrest & P2 & F2 & T2).
      cbn [gather_finish]. unfold bind. rewrite Hrest.
      exists st2. split; [reflexivity |]. split; [exact P2 |].
      split.
      { intros u Hu. simpl in Hu. apply F2. tauto. }
      intros u [<- | Hu]; [| by apply T2]. rewrite F2 by exact Ht.
      by right.
Qed.

Lemma gather_spec (wave : list addr) (st : Orch) :
  NoDup wave → quiet st → ordinary st →
  ∃ st', gather py_str wave st = (Returned (map Returned wave), st')
    ∧ preserved st st'
    ∧ (∀ u, ¬ In u wave → objs st' u = objs st u)
    ∧ (∀ t, In t wave → terminal (status (objs st' t)))
    ∧ (∀ t, In t wave → In (started t) (emitted st')).
Proof.
  intros Hnd Hq Ho.
  destruct (gather_start_spec wave Hnd st Hq Ho)
    as (slots & st1 & Hs & P1 & F1 & Hfst & S1 & Hslots).
  destruct (gather_finish_spec slots) with (st := st1)
    as (st2 & Hf & P2 & F2 & T2);
    [by rewrite Hfst | by eapply preserved_quiet
    | by eapply preserved_ordinary | exact Hslots |].
  unfold gather, bind. rewrite Hs, Hf. exists st2.
  rewrite Hfst in F2, T2.
  split; [by rewrite <- Hfst, map_map |].
  split; [by eapply preserved_trans |].
  split; [intros u Hu; by rewrite F2, F1 |].
  split; [exact T2 |].
  intros t Ht. eapply preserved_emitted; [exact P2 | by apply S1].
Qed.

Definition wave_started (i : nat) (wave : list addr) : OEvent :=
  {| ev_type := "wave.started"; ev_args := [];
     ev_kwargs := [("wave_number", VInt (Z.of_nat i + 1));
                   ("tasks", VInt (Z.of_nat (length wave)))] |}.

Lemma run_waves_spec (waves : list (list addr)) :
  NoDup (concat waves) →
  ∀ i acc st, quiet st → ordinary st →
  ∃ st', run_waves py_str i waves acc st
         = (Returned (acc ++ map Returned (concat waves)), st')
    ∧ preserved st st'
    ∧ (∀ u, ¬ In u (concat waves) → objs st' u = objs st u)
    ∧ (∀ t, In t (concat waves) →
         terminal (status (objs st' t)) ∧ In (started t) (emitted st'))
    ∧ (∀ k w, waves !! k = Some w →
         In (wave_started (i + k) w) (emitted st')).
Proof.
  induction waves as [|wave rest IH]; intros Hnd i acc st Hq Ho.
  - exists st. simpl. rewrite app_nil_r. split; [reflexivity |].
    split; [apply preserved_refl |]. split; [auto |].
    split; [intros t [] |]. intros k w Hk. by destruct k.
  - simpl in Hnd. apply NoDup_app in Hnd as (Hw & Hdisj & Hrest).
    cbn [run_waves concat]. unfold bind. rewrite emit_quiet by exact Hq.
    set (st1 := with_emitted _ st).
    assert (preserved st st1) as P1.
    { split; [reflexivity | reflexivity | by eexists]. }
    destruct (gather_spec wave st1 Hw (preserved_quiet _ _ P1 Hq)
                (preserved_ordinary _ _ P1 Ho))
      as (st2 & Hg & P2 & F2 & T2 & S2).
    rewrite Hg.
    assert (quiet st2) as Hq2.
    { eapply preserved_quiet; [exact P2 |]. by eapply preserved_quiet. }
    assert (ordinary st2) as Ho2.
    { eapply preserved_ordinary; [exact P2 |]. by eapply preserved_ordinary. }
    rewrite emit_quiet by exact Hq2.
    set (st3 := with_emitted _ st2).
    assert (preserved st2 st3) as P3.
    { split; [reflexivity | reflexivity | by eexists]. }
    destruct (IH Hrest (S i) (acc ++ map Returned wave) st3
                (preserved_quiet _ _ P3 Hq2) (preserved_ordinary _ _ P3 Ho2))
      as (st4 & Hr & P4 & F4 & T4 & W4).
    rewrite Hr. exists st4.
    split; [by rewrite map_app, app_assoc |].
    split.
    { eapply preserved_trans; [exact P1 |].
      eapply preserved_trans; [exact P2 |].
      eapply preserved_trans; [exact P3 | exact P4]. }
    split.
    { intros u Hu. rewrite in_app_iff in Hu.
      rewrite F4 by tauto. simpl. rewrite F2 by tauto. reflexivity. }
    split.
    { intros t Ht. apply in_app_iff in Ht as [Ht | Ht]; [| by apply T4].
      assert (¬ In t (concat rest)) as Hnot.
      { rewrite <- list_elem_of_In. apply Hdisj. by apply list_elem_of_In. }
      split.
      - rewrite F4 by exact Hnot. simpl. by apply T2.
      - eapply preserved_emitted; [exact P4 |].
        eapply preserved_emitted; [exact P3 |]. by apply S2. }
    intros k w Hk. destruct k as [|k]; simpl in Hk.
    + injection Hk as <-. rewrite Nat.add_0_r.
      eapply preserved_emitted; [exact P4 |].
      eapply preserved_emitted; [exact P3 |].
      eapply preserved_emitted; [exact P2 |].
      simpl. apply in_app_iff. right. by left.
    + replace (i + S k) with (S i + k) by lia. by apply W4.
Qed.

(** A run that reaches the role handler: the task is [RUNNING] there and
    the setup is the one the call started with. *)
Lemma begin_suspended (t : addr) (st st1 : Orch) :
  execute_task_begin py_str t st = (Returned Suspended, st1) →
  status (objs st1 t) = RUNNING
  ∧ event_handlers st1 = event_handlers st.
Proof.
  unfold execute_task_begin, bind, update_task, modify. simpl.
  pose proof (emit_recorded "task.started" [t] []
    (with_objs (store t (set_status RUNNING (objs st t)) (objs st)) st))
    as Hrec.
  destruct (_emit_event "task.started" [t] [] _) as [[[] | e] st0];
    [| discriminate].
  simpl in Hrec. subst st0.
  set (st0 := with_emitted _ _).
  destruct (pre_task_hooks_spec t st0) as (r & st2 & Hrun & Hsil & Hr).
  unfold try_except. rewrite Hrun.
  destruct r as [[t' |] | e].
  - discriminate.
  - intros [= <-]. rewrite Hr. destruct Hsil as (Hh & _).
    split; [simpl; by rewrite store_same | exact Hh].
  - destruct (is_Exception e); [unfold bind |]; [| discriminate].
    destruct (on_failure t e st2) as [[[] | e'] st3]; discriminate.
Qed.

End Tasks.

End ExecutorFacts.

(** ** The claims about the scheduler and the executor *)

Import Orchestrator SchedulerFacts ExecutorFacts.

(** The batch of the first example scenario: A has no dependencies, B and
    C depend on A, D depends on B and C. *)
Definition diamond : heap :=
  heap_of [mkTask "A" "product_owner" "plan" [];
           mkTask "B" "backend_dev" "build" ["A"];
           mkTask "C" "frontend_dev" "build" ["A"];
           mkTask "D" "qa_engineer" "test" ["B"; "C"]].

(** C1.  For every batch with unique ids whose dependencies all name tasks
    of the batch and form no cycle, [calculate_waves] returns waves that
    together are exactly the tasks of the batch, every task in one wave
    and no other, and the task a dependency names sits in a strictly earlier
    wave than the task that depends on it.  For A, B, C, D as above the
    waves are [[A], [B, C], [D]]. *)
Theorem calculate_waves_partitions_the_batch :
  (∀ (h : heap) (batch : list addr),
     unique_ids h batch → resolved h batch → acyclic h batch →
     ∃ waves,
       calculate_waves h batch = Returned waves
       ∧ Permutation (concat waves) batch
       ∧ (∀ t, In t batch →
            ∃ i w, waves !! i = Some w ∧ In t w
                 ∧ ∀ j w', waves !! j = Some w' → In t w' → j = i)
       ∧ (∀ i w a b, waves !! i = Some w → In a w → depends_on h batch a b →
            ∃ j w', j < i ∧ waves !! j = Some w' ∧ In b w'))
  ∧ calculate_waves diamond [0; 1; 2; 3] = Returned [[0]; [1; 2]; [3]].
Proof.
  split; [| by vm_compute].
  intros h batch Huniq Hres Hacyc.
  destruct (calculate_waves_complete h batch Hres Hacyc) as [waves Hrun].
  destruct (calculate_waves_sound h batch waves Hrun) as (Hperm & _ & _).
  exists waves. split; [exact Hrun |]. split; [exact Hperm |]. split.
  - intros t Ht.
    assert (In t (concat waves)) as Hin
      by (eapply Permutation_in; [symmetry; exact Hperm | exact Ht]).
    apply in_concat_lookup in Hin as (i & w & Hi & Hw).
    exists i, w. split; [exact Hi |]. split; [exact Hw |].
    intros j w' Hj Hw'.
    eapply (one_wave_only waves); eauto.
    rewrite Hperm. by apply (unique_ids_NoDup h).
  - by apply dependency_earlier.
Qed.

Lemma calculate_waves_partitions_the_batch_witness :
  unique_ids diamond [0; 1; 2; 3]
  ∧ resolved diamond [0; 1; 2; 3]
  ∧ acyclic diamond [0; 1; 2; 3]
  ∧ ∃ waves,
      calculate_waves diamond [0; 1; 2; 3] = Returned waves
      ∧ Permutation (concat waves) [0; 1; 2; 3].
Proof.
  assert (unique_ids diamond [0; 1; 2; 3]) as Huniq
    by (apply (bool_decide_unpack _); vm_compute; exact I).
  assert (resolved diamond [0; 1; 2; 3]) as Hres
    by (apply resolved_of_resolvedb; vm_compute; reflexivity).
  assert (acyclic diamond [0; 1; 2; 3]) as Hacyc
    by (apply (acyclic_of_rank diamond (λ a, a)); vm_compute; reflexivity).
  split; [exact Huniq |]. split; [exact Hres |]. split; [exact Hacyc |].
  destruct calculate_waves_partitions_the_batch as [Hgeneral _].
  destruct (Hgeneral diamond [0; 1; 2; 3] Huniq Hres Hacyc)
    as (waves & Hrun & Hperm & _).
  exists waves. split; [exact Hrun | exact Hperm].
Defined.

(** C2.  For every batch whose dependency relation has a cycle (the ids
    of the batch being unique, so that an id names one task), or in which a
    dependency names no task of the batch, [calculate_waves] raises
    [ValueError("Circular dependency detected")],
    and [execute_wave] raises it before anything else happens: the state it
    leaves is the state it was called in, so no task object has changed and
    no event was emitted. *)
Theorem cyclic_batch_aborts_before_any_task :
  ∀ (py_str : value → string) (st : Orch) (batch : list addr),
    (unique_ids (objs st) batch ∧ cyclic (objs st) batch)
    ∨ missing_dependency (objs st) batch →
    calculate_waves (objs st) batch
      = Raised (ValueError "Circular dependency detected")
    ∧ ∃ st', execute_wave py_str batch st
             = (Raised (ValueError "Circular dependency detected"), st')
        ∧ (∀ t, objs st' t = objs st t)
        ∧ emitted st' = emitted st.
Proof.
  intros py_str st batch Hbad.
  assert (calculate_waves (objs st) batch
          = Raised (ValueError "Circular dependency detected")) as Hraise.
  { destruct (calculate_waves_outcome (objs st) batch) as [[waves Hrun] | Hr];
      [exfalso | exact Hr].
    destruct Hbad as [[Huniq [a Hcyc]] | (a & d & Ha & Hd & Hmiss)].
    - by apply (returned_is_acyclic (objs st) batch waves Huniq Hrun a).
    - destruct (returned_is_resolved (objs st) batch waves Hrun a d Ha Hd)
        as (b & Hb & Hid).
      by apply (Hmiss b). }
  split; [exact Hraise |].
  exists st. unfold execute_wave, bind. rewrite Hraise. auto.
Qed.

(** The batch of the second example scenario: A depends on B and B on A. *)
Definition two_cycle : heap :=
  heap_of [mkTask "A" "backend_dev" "build" ["B"];
           mkTask "B" "backend_dev" "build" ["A"]].

Lemma cyclic_batch_aborts_before_any_task_witness :
  ((unique_ids two_cycle [0; 1] ∧ cyclic two_cycle [0; 1])
   ∨ missing_dependency two_cycle [0; 1])
  ∧ fst (execute_wave (λ _, "") [0; 1] (init two_cycle))
    = Raised (ValueError "Circular dependency detected")
  ∧ emitted (snd (execute_wave (λ _, "") [0; 1] (init two_cycle))) = [].
Proof.
  assert ((unique_ids two_cycle [0; 1] ∧ cyclic two_cycle [0; 1])
          ∨ missing_dependency two_cycle [0; 1]) as Hbad.
  { left. split; [apply (bool_decide_unpack _); vm_compute; exact I |].
    exists 0. apply (tc_l _ 0 1 0); [| apply tc_once];
      (split; [simpl; tauto | split; simpl; tauto]). }
  split; [exact Hbad |].
  destruct (cyclic_batch_aborts_before_any_task (λ _, "") (init two_cycle)
              [0; 1] Hbad) as (_ & st' & Hrun & _ & Hev).
  rewrite Hrun. split; [reflexivity | exact Hev].
Defined.

(** The batch of the fifth example scenario: a first wave with A, a second
    wave of three tasks of which the middle one has a role without handler,
    and a third wave that depends on the task that fails. *)
Definition middle_fails : heap :=
  heap_of [mkTask "A" "product_owner" "plan" [];
           mkTask "B" "backend_dev" "build" ["A"];
           mkTask "C" "nobody" "build" ["A"];
           mkTask "D" "frontend_dev" "build" ["A"];
           mkTask "E" "qa_engineer" "test" ["C"]].

(** An observer that raises on every event. *)
Definition raising_observer : observer :=
  λ _ _, Raised (ValueError "observer failed").

(** C3, as the claim states it, fails: with an observer registered through
    [on_event] that raises, [execute_wave] on a one-task batch raises at the
    first [wave.started] event and returns no result. *)
Lemma execute_wave_raises_with_raising_observer :
  let h := heap_of [mkTask "A" "product_owner" "plan" []] in
  let st := on_event raising_observer (init h) in
  unique_ids h [0] ∧ resolved h [0] ∧ acyclic h [0]
  ∧ fst (execute_wave (λ _, "") [0] st)
    = Raised (ValueError "observer failed")
  ∧ status (objs (snd (execute_wave (λ _, "") [0] st)) 0) = PENDING.
Proof.
  intros h st.
  split; [apply (bool_decide_unpack _); vm_compute; exact I |].
  split; [apply resolved_of_resolvedb; vm_compute; reflexivity |].
  split; [apply (acyclic_of_rank h (λ a, a)); vm_compute; reflexivity |].
  split; vm_compute; reflexivity.
Qed.

(** C3, amended.  For every well-formed batch, when no observer registered
    with [on_event] raises and the hooks runner, if there is one, raises
    only exceptions that derive from [Exception], [execute_wave] returns
    one result per task of the batch, each the task itself, and at the end
    every task of the batch is [COMPLETED] or [FAILED] and was started, and
    every wave was started, whichever tasks fail.  In the scenario above the
    task without handler fails, its two siblings complete, and the task of
    the third wave, which depends on the failed one, completes too. *)
Theorem execute_wave_runs_every_task :
  (∀ (py_str : value → string) (st : Orch) (batch : list addr),
     unique_ids (objs st) batch → resolved (objs st) batch →
     acyclic (objs st) batch → quiet st → ordinary st →
     ∃ waves results st',
       calculate_waves (objs st) batch = Returned waves
       ∧ execute_wave py_str batch st = (Returned results, st')
       ∧ length results = length batch
       ∧ Permutation results (map Returned batch)
       ∧ (∀ t, In t batch →
            terminal (status (objs st' t)) ∧ In (started t) (emitted st'))
       ∧ (∀ k w, waves !! k = Some w → In (wave_started k w) (emitted st')))
  ∧ (let '(results, st') :=
       execute_wave (λ _, "") [0; 1; 2; 3; 4] (init middle_fails) in
     results = Returned [Returned 0; Returned 1; Returned 2; Returned 3;
                         Returned 4]
     ∧ map (λ t, status (objs st' t)) [0; 1; 2; 3; 4]
       = [COMPLETED; COMPLETED; FAILED; COMPLETED; COMPLETED]).
Proof.
  split; [| by vm_compute].
  intros py_str st batch Huniq Hres Hacyc Hq Ho.
  destruct (calculate_waves_complete (objs st) batch Hres Hacyc)
    as [waves Hrun].
  destruct (calculate_waves_sound (objs st) batch waves Hrun)
    as (Hperm & _ & _).
  assert (NoDup (concat waves)) as Hnd.
  { rewrite Hperm. by apply (unique_ids_NoDup (objs st)). }
  destruct (run_waves_spec py_str waves Hnd 0 [] st Hq Ho)
    as (st' & Hr & _ & _ & Hdone & Hwaves).
  exists waves, (map Returned (concat waves)), st'.
  split; [exact Hrun |].
  split; [unfold execute_wave, bind; by rewrite Hrun |].
  split; [by rewrite length_map, Hperm |].
  split; [by apply Permutation_map |].
  split; [| exact Hwaves].
  intros t Ht. apply Hdone.
  eapply Permutation_in; [symmetry; exact Hperm | exact Ht].
Qed.

(** An observer that returns on every event. *)
Definition steady_observer : observer := λ _ _, Returned tt.

Lemma execute_wave_runs_every_task_witness :
  let st := on_event steady_observer (init middle_fails) in
  unique_ids (objs st) [0; 1; 2; 3; 4]
  ∧ resolved (objs st) [0; 1; 2; 3; 4]
  ∧ acyclic (objs st) [0; 1; 2; 3; 4]
  ∧ quiet st
  ∧ ordinary st
  ∧ ∃ results st',
      execute_wave (λ _, "") [0; 1; 2; 3; 4] st = (Returned results, st')
      ∧ length results = 5.
Proof.
  intros st.
  assert (unique_ids (objs st) [0; 1; 2; 3; 4]) as Huniq
    by (apply (bool_decide_unpack _); vm_compute; exact I).
  assert (resolved (objs st) [0; 1; 2; 3; 4]) as Hres
    by (apply resolved_of_resolvedb; vm_compute; reflexivity).
  assert (acyclic (objs st) [0; 1; 2; 3; 4]) as Hacyc
    by (apply (acyclic_of_rank (objs st) (λ a, a)); vm_compute;
        reflexivity).
  assert (quiet st) as Hq by (intros o [<- | []] hp ev; reflexivity).
  assert (ordinary st) as Ho
    by (intros e (run & n & arg & Hrun & _); discriminate Hrun).
  split; [exact Huniq |]. split; [exact Hres |]. split; [exact Hacyc |].
  split; [exact Hq |]. split; [exact Ho |].
  destruct execute_wave_runs_every_task as [Hgeneral _].
  destruct (Hgeneral (λ _, "") st [0; 1; 2; 3; 4] Huniq Hres Hacyc Hq Ho)
    as (waves & results & st' & _ & Hrun & Hlen & _).
  exists results, st'. split; [exact Hrun | exact Hlen].
Defined.

(** An observer that raises on [task.failed] events only. *)
Definition failure_observer : observer :=
  λ _ ev, if String.eqb (ev_type ev) "task.failed"
          then Raised (ValueError "observer failed")
          else Returned tt.

(** A task whose role has no handler. *)
Definition no_handler : heap := heap_of [mkTask "A" "nobody" "build" []].

(** C5, as the claim states it, fails: the role handler of the task raises
    (the role is unknown), the error is stored and the task is [FAILED], but
    an observer registered through [on_event] raises on the [task.failed]
    event and [execute_task] raises instead of returning the task. *)
Lemma execute_task_raises_with_raising_observer :
  let st := on_event failure_observer (init no_handler) in
  fst (_execute_by_role 0 st) = Raised (ValueError "Unknown role: nobody")
  ∧ fst (execute_task (λ _, "") 0 st) = Raised (ValueError "observer failed")
  ∧ status (objs (snd (execute_task (λ _, "") 0 st)) 0) = FAILED.
Proof. intros st. repeat split; vm_compute; reflexivity. Qed.

(** C5, amended.  When a task reaches its role handler and the handler
    raises an exception that derives from [Exception], [execute_task] stores
    the message of the exception on the task, takes the task from [RUNNING]
    to [FAILED] and emits a [task.failed] event carrying the message; the
    handler's exception does not leave [execute_task].  The call returns
    the task when the observers registered with [on_event] return on that
    event; an observer that raises on it makes the call raise.  An
    exception of the handler that does not derive from [Exception] (a
    [SystemExit], [KeyboardInterrupt] or [CancelledError] out of the hooks
    runner) is not caught: [execute_task] raises it, the task stays
    [RUNNING] and no event is emitted. *)
Theorem execute_task_contains_handler_failure :
  ∀ (py_str : value → string) (st st1 st2 : Orch) (task : addr) (e : exn),
    execute_task_begin py_str task st = (Returned Suspended, st1) →
    _execute_by_role task st1 = (Raised e, st2) →
    ∃ r st',
      execute_task py_str task st = (r, st')
      ∧ status (objs st2 task) = RUNNING
      ∧ (is_Exception e = true →
         status (objs st' task) = FAILED
         ∧ error (objs st' task) = Some (exn_str e)
         ∧ emitted st' = emitted st2 ++ [failed task (exn_str e)]
         ∧ ((∀ o, In o (event_handlers st) →
               ∀ hp, o hp (failed task (exn_str e)) = Returned tt) →
            r = Returned task))
      ∧ (is_Exception e = false → r = Raised e ∧ st' = st2).
Proof.
  intros py_str st st1 st2 task e Hbegin Hrole.
  destruct (begin_suspended py_str task st st1 Hbegin) as [Hrunning Hobs].
  destruct (hooks_only_execute_by_role task st1) as [n Hn].
  rewrite Hrole in Hn. simpl in Hn. subst st2.
  destruct (on_failure_state task e (with_hook_calls n st1))
    as (Hs & He & Hev & Hh & _ & _).
  unfold execute_task, bind. rewrite Hbegin.
  unfold execute_task_resume, run_role_handler, try_except, bind.
  rewrite Hrole.
  destruct (is_Exception e).
  2: { eexists _, _. split; [reflexivity |]. split; [exact Hrunning |].
       split; [discriminate | auto]. }
  destruct (on_failure task e (with_hook_calls n st1)) as [r0 st'] eqn:Hfail.
  simpl in Hs, He, Hev, Hh.
  exists (match r0 with Returned _ => Returned task | Raised x => Raised x end),
    st'.
  split; [by destruct r0 |].
  split; [exact Hrunning |]. split; [| discriminate]. intros _.
  split; [exact Hs |]. split; [exact He |].
  split; [exact Hev |].
  intros Haccept.
  assert (r0 = Returned tt) as ->; [| reflexivity].
  change r0 with (fst (r0, st')). rewrite <- Hfail.
  unfold on_failure, update_task, bind, modify. simpl.
  rewrite emit_accepted; [reflexivity |].
  simpl. intros o Ho. apply Haccept. by rewrite <- Hobs.
Qed.

Lemma execute_task_contains_handler_failure_witness :
  let st := init no_handler in
  let st1 := snd (execute_task_begin (λ _, "") 0 st) in
  let e := ValueError "Unknown role: nobody" in
  let st2 := snd (_execute_by_role 0 st1) in
  execute_task_begin (λ _, "") 0 st = (Returned Suspended, st1)
  ∧ _execute_by_role 0 st1 = (Raised e, st2)
  ∧ ∃ st', execute_task (λ _, "") 0 st = (Returned 0, st')
      ∧ status (objs st' 0) = FAILED
      ∧ error (objs st' 0) = Some "Unknown role: nobody".
Proof.
  intros st st1 e st2.
  assert (execute_task_begin (λ _, "") 0 st = (Returned Suspended, st1))
    as Hbegin by (vm_compute; reflexivity).
  assert (_execute_by_role 0 st1 = (Raised e, st2))
    as Hrole by (vm_compute; reflexivity).
  split; [exact Hbegin |]. split; [exact Hrole |].
  destruct (execute_task_contains_handler_failure (λ _, "") st st1 st2 0 e
              Hbegin Hrole)
    as (r' & st' & Hrun & _ & Hcaught & _).
  destruct (Hcaught eq_refl) as (Hs & He & _ & Hret).
  exists st'. rewrite Hrun, Hret; [auto |].
  intros o [].
Defined.

(** ** The event bus *)

Module EventsFacts.
Import Events.


(** [record] writes the count before anything else. *)
Lemma record_counts (e : Event) (m : EventMetrics) :
  counts (snd (record e m))
  = <[EventType_value (type e) :=
        default 0 (counts m !! EventType_value (type e)) + 1]> (counts m).
Proof.
  unfold record, bind, modify, lift, ret. simpl.
  destruct (decide (type e = TASK_COMPLETED)) as [Ht | Ht].
  - destruct (datum_truthy _); simpl.
    + destruct (hash_of _); simpl; [| reflexivity].
      by destruct (decide (type e = TASK_FAILED ∨ type e = GATE_FAILED)).
    + by destruct (decide (type e = TASK_FAILED ∨ type e = GATE_FAILED)).
  - by destruct (decide (type e = TASK_FAILED ∨ type e = GATE_FAILED)).
Qed.


(** The [task_type] that [record] looks up for an event. *)
Definition task_type_of (e : Event) : datum :=
  default (DStr "unknown") (dict_get "task_type" (data e)).

(** The events [record] takes a duration from. *)
Definition timed (e : Event) : Prop :=
  type e = TASK_COMPLETED
  ∧ datum_truthy (default DNone (dict_get "duration_seconds" (data e))) = true.

(** An event [record] returns on: when it carries a duration, its task
    type can be hashed. *)
Definition measurable (e : Event) : Prop :=
  timed e → hash_of (task_type_of e) = Returned tt.

(** [record] returns, or it raises what hashing the task type raises. *)
Lemma record_outcome (e : Event) (m : EventMetrics) :
  (fst (record e m) = Returned tt ∧ measurable e)
  ∨ (timed e ∧ ∃ x, hash_of (task_type_of e) = Raised x
                   ∧ fst (record e m) = Raised x).
Proof.
  unfold record, measurable, timed, task_type_of, bind, modify, lift, ret.
  simpl.
  destruct (decide (type e = TASK_COMPLETED)) as [Ht | Ht].
  - destruct (datum_truthy _) eqn:Hd; simpl.
    + destruct (hash_of _) as [[] | x] eqn:Hh; simpl.
      * left. split; [| done].
        by destruct (decide (type e = TASK_FAILED ∨ type e = GATE_FAILED)).
      * right. split; [done |]. by exists x.
    + left. split; [| by intros [_ ?]].
      by destruct (decide (type e = TASK_FAILED ∨ type e = GATE_FAILED)).
  - left. split; [| by intros [? _]].
    by destruct (decide (type e = TASK_FAILED ∨ type e = GATE_FAILED)).
Qed.

Lemma record_returns (e : Event) (m : EventMetrics) :
  measurable e → fst (record e m) = Returned tt.
Proof.
  intros Hm. destruct (record_outcome e m) as [[Hr _] | [Ht (x & Hx & _)]];
    [exact Hr |]. rewrite (Hm Ht) in Hx. discriminate Hx.
Qed.

(** Whether the handler raises [SystemExit] or [KeyboardInterrupt] on the
    event. *)
Definition halts (e : Event) (h : handler) : bool :=
  match h_call h e with
  | Raised x => stops_loop x
  | Returned _ => false
  end.

(** The handlers of a list that [gather] gets to call: all of them up to
    the first that ends the run of the loop. *)
Fixpoint called (e : Event) (hs : list handler) : list handler :=
  match hs with
  | [] => []
  | h :: rest => h :: (if halts e h then [] else called e rest)
  end.

(** The exception that ends the run of the loop, if a handler raises one. *)
Fixpoint halting (e : Event) (hs : list handler) : option exn :=
  match hs with
  | [] => None
  | h :: rest =>
      match h_call h e with
      | Raised x => if stops_loop x then Some x else halting e rest
      | Returned _ => halting e rest
      end
  end.

Lemma none_halts (e : Event) (hs : list handler) :
  Forall (λ h, halts e h = false) hs → called e hs = hs ∧ halting e hs = None.
Proof.
  induction 1 as [|h hs Hh _ [IH1 IH2]]; [done |]. simpl.
  rewrite Hh, IH1. split; [reflexivity |]. unfold halts in Hh.
  destruct (h_call h e) as [[] | x]; [exact IH2 |]. by rewrite Hh.
Qed.

(** What a call of [_safe_handle] changes: the ghost records only.  It
    raises what the handler raised when that is no [Exception], and
    [AttributeError] when the handler failed and has no name. *)
Lemma safe_handle_spec (h : handler) (e : Event) (b : EventBus) :
  ∃ r b', _safe_handle h e b = (r, b')
    ∧ handlers b' = handlers b
    ∧ event_log b' = event_log b
    ∧ metrics b' = metrics b
    ∧ invoked b' = invoked b ++ [(h, e)]
    ∧ match r with
      | Returned _ => halts e h = false
      | Raised x => stops_loop x = halts e h
      end.
Proof.
  unfold _safe_handle, try_except, bind, modify, lift, halts. simpl.
  destruct (h_call h e) as [[] | x]; simpl.
  - eexists _, _. split; [reflexivity |]. simpl. auto 10.
  - destruct (is_Exception x) eqn:Hx; simpl.
    + assert (stops_loop x = false) as Hs.
      { unfold is_Exception, stops_loop, base_only in *.
        cbn [existsb] in *.
        repeat (destruct (String.eqb (exn_class x) _); try discriminate).
        reflexivity. }
      destruct (h_name h) as [n |]; simpl.
      * eexists _, _. split; [reflexivity |]. simpl. auto 10.
      * eexists _, _. split; [reflexivity |]. simpl.
        repeat split; auto.
    + eexists _, _. split; [reflexivity |]. simpl. auto 10.
Qed.

Lemma gather_handlers_spec (e : Event) (hs : list handler) :
  ∀ b, ∃ r b', gather_handlers hs e b = (r, b')
    ∧ handlers b' = handlers b
    ∧ event_log b' = event_log b
    ∧ metrics b' = metrics b
    ∧ invoked b' = invoked b ++ map (λ h, (h, e)) (called e hs)
    ∧ match halting e hs with
      | Some x => r = Raised x
      | None => ∃ rs, r = Returned rs ∧ length rs = length hs
      end.
Proof.
  induction hs as [|h hs IH]; intros b.
  - exists (Returned []), b. simpl. rewrite app_nil_r.
    repeat split; auto. by exists [].
  - destruct (safe_handle_spec h e b) as (r & b1 & Hh & H1 & L1 & M1 & I1 & Hr).
    destruct (IH b1) as (rs & b2 & Hrest & H2 & L2 & M2 & I2 & Hrs).
    cbn [gather_handlers called halting]. unfold bind, capture. rewrite Hh.
    unfold halts in *.
    destruct r as [[] | x].
    + rewrite Hrest, Hr.
      assert (halting e (h :: hs) = halting e hs) as Hsame.
      { simpl. destruct (h_call h e) as [[] | y]; [done | by rewrite Hr]. }
      simpl in Hsame. rewrite Hsame.
      destruct (halting e hs) as [y |].
      * subst rs. eexists _, b2. split; [reflexivity |].
        split; [congruence |]. split; [congruence |]. split; [congruence |].
        split; [| reflexivity].
        rewrite I2, I1. simpl. by rewrite <- app_assoc.
      * destruct Hrs as (rs' & -> & Hlen).
        eexists _, b2. split; [reflexivity |].
        split; [congruence |]. split; [congruence |]. split; [congruence |].
        split; [rewrite I2, I1; simpl; by rewrite <- app_assoc |].
        eexists. split; [reflexivity |]. simpl. by rewrite Hlen.
    + destruct (h_call h e) as [[] | y] eqn:Hcall.
      { (* the handler returned: [_safe_handle] did too *)
        exfalso. revert Hh. unfold _safe_handle, try_except, bind, modify, lift.
        simpl. rewrite Hcall. discriminate. }
      assert (stops_loop y = true → x = y) as Hxy.
      { intros Hy. revert Hh.
        unfold _safe_handle, try_except, bind, modify, lift.
        simpl. rewrite Hcall.
        assert (is_Exception y = false) as ->.
        { unfold is_Exception, stops_loop, base_only in *.
          cbn [existsb] in *.
          repeat (destruct (String.eqb (exn_class y) _); try discriminate;
                  try reflexivity). }
        by intros [= -> _]. }
      destruct (stops_loop y) eqn:Hy.
      * rewrite (Hxy eq_refl) in *. rewrite Hy.
        eexists _, b1. split; [reflexivity |]. simpl.
        repeat split; auto.
      * rewrite Hr, Hrest.
        destruct (halting e hs) as [z |].
        -- subst rs. eexists _, b2. split; [reflexivity |].
           split; [congruence |]. split; [congruence |]. split; [congruence |].
           split; [| reflexivity].
           rewrite I2, I1. simpl. by rewrite <- app_assoc.
        -- destruct Hrs as (rs' & -> & Hlen).
           eexists _, b2. split; [reflexivity |].
           split; [congruence |]. split; [congruence |]. split; [congruence |].
           split; [rewrite I2, I1; simpl; by rewrite <- app_assoc |].
           eexists. split; [reflexivity |]. simpl. by rewrite Hlen.
Qed.

(** [emit]: the log and the metrics it leaves depend on the bus and the
    event only.  When [record] raises, [emit] raises the same and calls no
    handler; otherwise the handlers registered for the type of the event are
    called in order, up to the first that ends the run of the loop, and
    [emit] returns unless there is one. *)
Lemma emit_spec (e : Event) (b : EventBus) :
  ∃ r b', emit e b = (r, b')
    ∧ handlers b' = handlers b
    ∧ event_log b' = event_log b ++ [e]
    ∧ metrics b' = snd (record e (metrics b))
    ∧ match fst (record e (metrics b)) with
      | Raised x => r = Raised x ∧ invoked b' = invoked b
      | Returned _ =>
          invoked b'
          = invoked b
            ++ map (λ h, (h, e)) (called e (default [] (handlers b !! type e)))
          ∧ r = match halting e (default [] (handlers b !! type e)) with
                | Some x => Raised x
                | None => Returned tt
                end
      end.
Proof.
  unfold emit, bind, modify, read, on_metrics. simpl.
  destruct (record e (metrics b)) as [[[] | x] ms]; simpl.
  2: { eexists _, _. split; [reflexivity |]. simpl. auto 10. }
  destruct (default [] (handlers b !! type e)) as [|h hs] eqn:Hhs.
  - eexists _, _. split; [reflexivity |]. simpl. rewrite app_nil_r. auto 10.
  - set (b1 := {| handlers := handlers b; event_log := event_log b ++ [e];
                  metrics := ms; logged := logged b;
                  invoked := invoked b |}).
    destruct (gather_handlers_spec e (h :: hs) b1)
      as (r & b2 & Hg & H2 & L2 & M2 & I2 & Hr).
    rewrite Hg.
    destruct (halting e (h :: hs)) as [x |].
    + subst r. eexists _, b2. split; [reflexivity |]. auto.
    + destruct Hr as (rs & -> & _). unfold ret.
      eexists _, b2. split; [reflexivity |]. auto.
Qed.

Lemma subscribe_all_metrics (h : handler) (b : EventBus) :
  metrics (subscribe_all h b) = metrics b.
Proof. reflexivity. Qed.

(** A handler that never raises [SystemExit] or [KeyboardInterrupt]. *)
Definition harmless (h : handler) : Prop := ∀ e, halts e h = false.

(** Every handler subscribed on the bus is harmless. *)
Definition bus_harmless (b : EventBus) : Prop :=
  ∀ t h, In h (default [] (handlers b !! t)) → harmless h.

(** A call that returns on a bus of harmless handlers. *)
Definition call_harmless (c : call) : Prop :=
  match c with
  | Emit e => measurable e
  | Subscribe _ h | SubscribeAll h => harmless h
  end.

Lemma subscribe_harmless (ty : EventType) (h : handler) (b : EventBus) :
  harmless h → bus_harmless b → bus_harmless (subscribe ty h b).
Proof.
  intros Hh Hb t h'. unfold subscribe. simpl.
  destruct (decide (ty = t)) as [-> | Hne].
  - rewrite lookup_insert_eq. simpl. rewrite in_app_iff.
    intros [Hin | [<- | []]]; [by apply (Hb t) | exact Hh].
  - rewrite lookup_insert_ne by exact Hne. apply Hb.
Qed.

Lemma subscribe_all_harmless (h : handler) (b : EventBus) :
  harmless h → bus_harmless b → bus_harmless (subscribe_all h b).
Proof.
  intros Hh. unfold subscribe_all. revert b.
  induction all_event_types as [|ty tys IH]; intros b Hb; [exact Hb |].
  simpl. apply IH. by apply subscribe_harmless.
Qed.

Lemma EventBus_init_harmless : bus_harmless EventBus_init.
Proof.
  apply subscribe_harmless; [by intros e |].
  apply subscribe_harmless; [by intros e |].
  intros t h. simpl. by rewrite lookup_empty.
Qed.

(** [emit] on a bus of harmless handlers returns when [record] does. *)
Lemma emit_returns (e : Event) (b : EventBus) :
  measurable e → bus_harmless b →
  ∃ b', emit e b = (Returned tt, b')
    ∧ handlers b' = handlers b
    ∧ event_log b' = event_log b ++ [e]
    ∧ metrics b' = snd (record e (metrics b))
    ∧ invoked b'
      = invoked b ++ map (λ h, (h, e)) (default [] (handlers b !! type e)).
Proof.
  intros Hm Hb.
  destruct (emit_spec e b) as (r & b' & He & Hh & Hl & Hms & Hr).
  rewrite (record_returns e (metrics b) Hm) in Hr.
  destruct (none_halts e (default [] (handlers b !! type e))) as [Hc Hn].
  { apply Forall_forall. intros h Hin. apply list_elem_of_In in Hin.
    by apply (Hb (type e)). }
  rewrite Hc, Hn in Hr. destruct Hr as [Hi ->].
  exists b'. auto.
Qed.


(** A sequence of harmless calls on a bus of harmless handlers returns. *)
Lemma do_calls_returns (cs : list call) :
  Forall call_harmless cs →
  ∀ b, bus_harmless b →
  ∃ b', do_calls cs b = (Returned tt, b') ∧ bus_harmless b'.
Proof.
  induction 1 as [|c cs Hc _ IH]; intros b Hb.
  - by exists b.
  - cbn [do_calls]. unfold bind.
    destruct c as [e | ty h | h]; simpl in *.
    + destruct (emit_returns e b Hc Hb) as (b1 & He & Hh & _).
      rewrite He. apply IH. unfold bus_harmless. by rewrite Hh.
    + apply IH. by apply subscribe_harmless.
    + apply IH. by apply subscribe_all_harmless.
Qed.

End EventsFacts.

Import Events EventsFacts.












(** ** The context store *)

Module ContextFacts.
Import Context.

(** *** Insertion-ordered dictionaries *)

Section Dict.
Context {V : Type}.
Implicit Types (d : list (string * V)) (k : string) (v : V).

Lemma dict_get_set_eq k v d : dict_get k (dict_set k v d) = Some v.
Proof.
  induction d as [|[k' v'] d IH]; simpl.
  - by rewrite String.eqb_refl.
  - destruct (String.eqb k k') eqn:E; simpl; rewrite E; [done | exact IH].
Qed.

Lemma dict_get_set_ne k k' v d :
  k ≠ k' → dict_get k' (dict_set k v d) = dict_get k' d.
Proof.
  intros Hne.
  assert (String.eqb k' k = false) as Hkk
    by (apply String.eqb_neq; congruence).
  induction d as [|[k0 v0] d IH]; simpl.
  - by rewrite Hkk.
  - destruct (String.eqb k k0) eqn:E; simpl.
    + apply String.eqb_eq in E as <-. by rewrite Hkk.
    + by rewrite IH.
Qed.

Lemma keys_dict_set k v d :
  map fst (dict_set k v d)
  = if bool_decide (k ∈ map fst d) then map fst d else map fst d ++ [k].
Proof.
  induction d as [|[k0 v0] d IH]; simpl; [done |].
  destruct (String.eqb k k0) eqn:E; simpl.
  - apply String.eqb_eq in E as ->.
    by rewrite bool_decide_eq_true_2 by (apply elem_of_cons; by left).
  - rewrite IH. apply String.eqb_neq in E.
    case_bool_decide as B.
    + by rewrite bool_decide_eq_true_2 by (apply elem_of_cons; by right).
    + rewrite bool_decide_eq_false_2; [done |].
      intros Hin. apply elem_of_cons in Hin as [? | ?]; congruence.
Qed.

Lemma NoDup_dict_set k v d :
  NoDup (map fst d) → NoDup (map fst (dict_set k v d)).
Proof.
  intros Hnd. rewrite keys_dict_set. case_bool_decide as Hin; [done |].
  apply NoDup_app. split; [done |]. split; [| apply NoDup_singleton].
  intros x Hx Hx'. by apply list_elem_of_singleton in Hx' as ->.
Qed.

Lemma dict_get_None k d : ¬ In k (map fst d) → dict_get k d = None.
Proof.
  induction d as [|[k0 v0] d IH]; simpl; [done |]. intros Hnot.
  destruct (String.eqb k k0) eqn:E.
  - apply String.eqb_eq in E. intuition congruence.
  - apply IH. tauto.
Qed.



Lemma dict_get_del k k' d :
  NoDup (map fst d) →
  dict_get k' (dict_del k d)
  = if String.eqb k k' then None else dict_get k' d.
Proof.
  induction d as [|[k0 v0] d IH]; simpl; intros Hnd.
  - by destruct (String.eqb k k').
  - apply NoDup_cons in Hnd as [Hk0 Hnd]. rewrite list_elem_of_In in Hk0.
    destruct (String.eqb_spec k k0) as [-> | Hne0]; simpl.
    + destruct (String.eqb_spec k0 k') as [<- | Hne].
      * by apply dict_get_None.
      * destruct (String.eqb_spec k' k0) as [-> | _]; [done | done].
    + rewrite IH by done.
      destruct (String.eqb_spec k k') as [<- | Hne]; [| done].
      by destruct (String.eqb_spec k k0).
Qed.

Lemma keys_dict_del k d x : In x (map fst (dict_del k d)) → In x (map fst d).
Proof.
  induction d as [|[k0 v0] d IH]; simpl; [done |].
  destruct (String.eqb k k0); simpl; [tauto |]. intros [? | ?]; auto.
Qed.

Lemma NoDup_dict_del k d :
  NoDup (map fst d) → NoDup (map fst (dict_del k d)).
Proof.
  induction d as [|[k0 v0] d IH]; simpl; [done |]. intros Hnd.
  apply NoDup_cons in Hnd as [Hk0 Hnd].
  destruct (String.eqb k k0); simpl; [done |].
  apply NoDup_cons. split; [| by apply IH].
  rewrite list_elem_of_In in *. intros Hin. apply Hk0.
  by apply keys_dict_del in Hin.
Qed.

Lemma dict_all_None d : (∀ k, dict_get k d = None) → d = [].
Proof.
  destruct d as [|[k v] d]; [done |]. intros H. specialize (H k).
  simpl in H. by rewrite String.eqb_refl in H.
Qed.

End Dict.

Lemma dict_get_map {V W : Type} (f : V → W) (k : string)
    (d : list (string * V)) :
  dict_get k (map (λ kv, (fst kv, f (snd kv))) d) = f <$> dict_get k d.
Proof.
  induction d as [|[k0 v0] d IH]; simpl; [done |].
  by destruct (String.eqb k k0).
Qed.

(** *** [get_relevant_context] *)

Lemma no_table_entry_no_context (py_str : Py.value → string)
    (task_type role : string) (cm : ContextManager) :
  dict_get role relevance_map = None →
  get_relevant_context py_str task_type role cm = ∅.
Proof.
  intros Hrole. unfold get_relevant_context, _calculate_relevance.
  rewrite Hrole. simpl. rewrite set_fold_empty.
  unfold _apply_compression_patterns. apply fmap_empty.
Qed.


(** *** [export_context], [import_context] *)

Lemma import_entries_spec (clock : nat → Z)
    (items : list (string * entry_data)) :
  NoDup (map fst items) →
  Forall (λ kd, is_Some (ed_value (snd kd))) items →
  ∀ cm, ∃ cm',
    import_entries clock items cm = (Returned tt, cm')
    ∧ ticks cm' = ticks cm + length items
    ∧ (∀ k, ¬ In k (map fst items) →
         dict_get k (context cm') = dict_get k (context cm))
    ∧ (∀ i k d, items !! i = Some (k, d) →
         ∃ v, ed_value d = Some v
           ∧ dict_get k (context cm')
             = Some {| key := k; value := v;
                       relevance_score := default 1%Q (ed_relevance d);
                       last_accessed := clock (ticks cm + i);
                       access_count := default 0%Z (ed_access_count d) |}).
Proof.
  induction items as [|[k0 d0] items IH]; intros Hnd Hval cm.
  - exists cm. simpl. split; [reflexivity |]. split; [lia |].
    split; [auto |]. intros i k d Hi. by destruct i.
  - simpl in Hnd. apply NoDup_cons in Hnd as [Hk0 Hnd].
    rewrite list_elem_of_In in Hk0.
    apply Forall_cons in Hval as [[v0 Hv0] Hval]. simpl in Hv0.
    cbn [import_entries]. unfold bind, lift, now, modify. rewrite Hv0. simpl.
    set (entry := {| key := k0; value := v0;
                     relevance_score := default 1%Q (ed_relevance d0);
                     last_accessed := clock (ticks cm);
                     access_count := default 0%Z (ed_access_count d0) |}).
    set (cm1 := with_context _ _).
    destruct (IH Hnd Hval cm1) as (cm' & Hrun & Hticks & Hframe & Hget).
    rewrite Hrun. exists cm'. split; [reflexivity |].
    split; [rewrite Hticks; simpl; lia |].
    split.
    + intros k Hk. rewrite Hframe by tauto. simpl.
      apply dict_get_set_ne. tauto.
    + intros i k d Hi. destruct i as [|i]; simpl in Hi.
      * injection Hi as <- <-. exists v0. split; [exact Hv0 |].
        rewrite Hframe by exact Hk0. simpl. rewrite dict_get_set_eq.
        by rewrite Nat.add_0_r.
      * destruct (Hget i k d Hi) as (v & Hv & Hk). exists v.
        split; [exact Hv |].
        assert (ticks cm1 + i = ticks cm + S i) as <- by (simpl; lia).
        exact Hk.
Qed.

(** *** The order of eviction *)

(** [a] is not below [b]: the negation of [<] on the sort keys. *)
Definition not_below (a b : Q * Z) : Prop :=
  (fst b < fst a)%Q ∨ ((fst a == fst b)%Q ∧ (snd b <= snd a)%Z).

Lemma rank_ltb_false (a b : Q * Z) :
  rank_ltb a b = false ↔ not_below a b.
Proof.
  unfold rank_ltb, not_below. rewrite orb_false_iff, negb_false_iff.
  rewrite Qle_bool_iff, andb_false_iff, Z.ltb_ge.
  rewrite <- not_true_iff_false, Qeq_bool_iff.
  split.
  - intros [Hle [Hne | Hz]].
    + left. apply Qle_lt_or_eq in Hle as [Hlt | Heq]; [exact Hlt |].
      exfalso. apply Hne. by symmetry.
    + apply Qle_lt_or_eq in Hle as [Hlt | Heq]; [by left | right].
      split; [by symmetry | exact Hz].
  - intros [Hlt | [Heq Hz]].
    + split; [by apply Qlt_le_weak |]. left. intros Heq. lra.
    + split; [lra | by right].
Qed.

Lemma rank_ltb_true (a b : Q * Z) :
  rank_ltb a b = true →
  (fst a < fst b)%Q ∨ ((fst a == fst b)%Q ∧ (snd a < snd b)%Z).
Proof.
  unfold rank_ltb. rewrite orb_true_iff, negb_true_iff, andb_true_iff.
  rewrite <- not_true_iff_false, Qle_bool_iff, Qeq_bool_iff, Z.ltb_lt.
  intros [Hlt | Heq]; [left; lra | by right].
Qed.

Lemma not_below_trans (a b c : Q * Z) :
  not_below a b → not_below b c → not_below a c.
Proof.
  unfold not_below. intros [H1 | [E1 Z1]] [H2 | [E2 Z2]].
  - left. lra.
  - left. lra.
  - left. lra.
  - right. split; [lra | lia].
Qed.

Section Order.
Variable float_mul : Q → Z → Q.

(** [x] may stand before [y] in the sorted list. *)
Definition before (x y : string * ContextEntry) : Prop :=
  rank_ltb (rank float_mul (snd x)) (rank float_mul (snd y)) = false.

Lemma insert_desc_perm (x : string * ContextEntry)
    (l : list (string * ContextEntry)) :
  Permutation (insert_desc float_mul x l) (x :: l).
Proof.
  induction l as [|y l IH]; simpl; [done |].
  destruct (rank_ltb _ _); [| done].
  rewrite IH. apply perm_swap.
Qed.

Lemma sort_desc_perm (l : list (string * ContextEntry)) :
  Permutation (sort_desc float_mul l) l.
Proof.
  induction l as [|x l IH]; simpl; [done |].
  rewrite insert_desc_perm. by constructor.
Qed.

Lemma insert_desc_sorted (x : string * ContextEntry)
    (l : list (string * ContextEntry)) :
  StronglySorted before l → StronglySorted before (insert_desc float_mul x l).
Proof.
  induction l as [|y l IH]; simpl; intros Hs.
  - constructor; [constructor | constructor].
  - apply StronglySorted_inv in Hs as [Hl Hy].
    destruct (rank_ltb (rank float_mul (snd x)) (rank float_mul (snd y))) eqn:E.
    + constructor; [by apply IH |].
      rewrite List.Forall_forall. intros z Hz.
      apply (Permutation_in _ (insert_desc_perm x l)) in Hz as [<- | Hz].
      * unfold before. apply rank_ltb_false. apply rank_ltb_true in E.
        unfold not_below. destruct E as [? | [? ?]]; [by left | right].
        split; [lra | lia].
      * rewrite List.Forall_forall in Hy. by apply Hy.
    + constructor; [by constructor |]. constructor; [exact E |].
      rewrite List.Forall_forall in *. intros z Hz. specialize (Hy z Hz).
      unfold before in *. rewrite rank_ltb_false in *.
      by eapply not_below_trans.
Qed.

Lemma sort_desc_sorted (l : list (string * ContextEntry)) :
  StronglySorted before (sort_desc float_mul l).
Proof.
  induction l as [|x l IH]; simpl; [constructor |].
  by apply insert_desc_sorted.
Qed.

Lemma sorted_app {A : Type} (R : A → A → Prop) (l1 l2 : list A) :
  StronglySorted R (l1 ++ l2) → ∀ x y, In x l1 → In y l2 → R x y.
Proof.
  induction l1 as [|a l1 IH]; simpl; intros Hs x y Hx Hy; [done |].
  apply StronglySorted_inv in Hs as [Hs Ha].
  destruct Hx as [<- | Hx]; [| by apply IH].
  rewrite List.Forall_forall in Ha. apply Ha. apply in_app_iff. by right.
Qed.

End Order.

(** *** The eviction loop *)

(** The dictionary after the deletion of the keys of [evicted], in order. *)
Definition strip (ctx evicted : list (string * ContextEntry))
  : list (string * ContextEntry) :=
  fold_left (λ c kv, dict_del (fst kv) c) evicted ctx.

Lemma NoDup_strip (evicted ctx : list (string * ContextEntry)) :
  NoDup (map fst ctx) → NoDup (map fst (strip ctx evicted)).
Proof.
  revert ctx. induction evicted as [|[k e] evicted IH]; intros ctx Hnd;
    [done |].
  simpl. apply IH. by apply NoDup_dict_del.
Qed.

Lemma dict_get_strip (k : string) (evicted ctx : list (string * ContextEntry)) :
  NoDup (map fst ctx) →
  dict_get k (strip ctx evicted)
  = if bool_decide (k ∈ map fst evicted) then None else dict_get k ctx.
Proof.
  revert ctx. induction evicted as [|[k0 e0] evicted IH]; intros ctx Hnd;
    [done |].
  simpl. rewrite IH by by apply NoDup_dict_del.
  rewrite dict_get_del by done.
  destruct (String.eqb_spec k0 k) as [-> | Hne].
  - rewrite (bool_decide_eq_true_2 (k ∈ k :: _)) by (apply elem_of_cons; by left).
    by case_bool_decide.
  - case_bool_decide as Hin.
    + by rewrite bool_decide_eq_true_2 by (apply elem_of_cons; by right).
    + rewrite bool_decide_eq_false_2; [done |].
      intros Hin'. apply elem_of_cons in Hin' as [? | ?]; congruence.
Qed.

Section Compress.
Variable float_mul : Q → Z → Q.
Variable json_dumps : list (string * Py.value) → string.

(** The test of the [while] loop: the usage is above the bound. *)
Definition over (bound : Q) (ctx : list (string * ContextEntry)) : Prop :=
  (bound < inject_Z (usage_of json_dumps ctx))%Q.

Lemma over_test (bound : Q) (ctx : list (string * ContextEntry)) :
  negb (Qle_bool (inject_Z (usage_of json_dumps ctx)) bound) = true
  ↔ over bound ctx.
Proof.
  unfold over. rewrite negb_true_iff, <- not_true_iff_false, Qle_bool_iff.
  split; [apply Qnot_le_lt | apply Qlt_not_le].
Qed.

Lemma evict_spec (bound : Q) (entries : list (string * ContextEntry)) :
  ∀ ctx, ∃ evicted,
    entries = evicted ++ fst (evict json_dumps bound entries ctx)
    ∧ snd (evict json_dumps bound entries ctx) = strip ctx evicted
    ∧ (∀ n, n < length evicted → over bound (strip ctx (take n evicted)))
    ∧ (¬ over bound (snd (evict json_dumps bound entries ctx))
       ∨ fst (evict json_dumps bound entries ctx) = []).
Proof.
  induction entries as [|[k e] entries IH]; intros ctx.
  - exists []. simpl. split; [done |]. split; [done |].
    split; [intros n Hn; lia | by right].
  - simpl.
    destruct (negb (Qle_bool (inject_Z (usage_of json_dumps ctx)) bound))
      eqn:Htest.
    + apply over_test in Htest.
      destruct (IH (dict_del k ctx)) as (evicted & Hsplit & Hctx & Hover & Hend).
      exists ((k, e) :: evicted). simpl.
      split; [by rewrite <- Hsplit |]. split; [exact Hctx |].
      split; [| exact Hend].
      intros [|n] Hn; simpl; [exact Htest |]. apply Hover. lia.
    + exists []. simpl. split; [done |]. split; [done |].
      split; [intros n Hn; lia |]. left.
      rewrite <- over_test. by rewrite Htest.
Qed.

Lemma usage_of_decay (f : Q) (ctx : list (string * ContextEntry)) :
  usage_of json_dumps (map (λ kv, (fst kv, decay f (snd kv))) ctx)
  = usage_of json_dumps ctx.
Proof. unfold usage_of. by rewrite map_map. Qed.

(** What a compression pass does: it deletes a list [evicted] of entries,
    each taken while the usage was above the limit and none ranked above an
    entry that stays, until the usage is within the limit or nothing is
    left; the entries that stay have their score multiplied by the decay. *)
Lemma compress_spec (cm : ContextManager) :
  NoDup (map fst (context cm)) →
  ∃ evicted,
    context (_compress float_mul json_dumps cm)
    = map (λ kv, (fst kv, decay (relevance_decay cm) (snd kv)))
          (strip (context cm) evicted)
    ∧ (∀ x, In x evicted → In x (context cm))
    ∧ (∀ n, n < length evicted →
         over (limit cm) (strip (context cm) (take n evicted)))
    ∧ (∀ x y, In x evicted → In y (context cm) → ¬ In y evicted →
         before float_mul y x)
    ∧ (¬ over (limit cm) (context (_compress float_mul json_dumps cm))
       ∨ context (_compress float_mul json_dumps cm) = []).
Proof.
  intros Hnd. unfold _compress.
  destruct (evict_spec (limit cm) (rev (sort_desc float_mul (context cm))) (context cm))
    as (evicted & Hsplit & Hctx & Hover & Hend).
  destruct (evict json_dumps (limit cm) (rev (sort_desc float_mul (context cm)))
              (context cm)) as [left ctx] eqn:Hev.
  simpl in *. subst ctx.
  assert (Hall : ∀ x, In x (context cm) ↔ In x (evicted ++ left)).
  { intros x. rewrite <- Hsplit, <- in_rev. split; intros Hx.
    - by apply (Permutation_in _ (Permutation_sym (sort_desc_perm float_mul _))).
    - by apply (Permutation_in _ (sort_desc_perm float_mul _)) in Hx. }
  exists evicted. split; [reflexivity |].
  split; [intros x Hx; apply Hall, in_app_iff; by left |].
  split; [exact Hover |].
  split.
  - intros x y Hx Hy Hnot.
    apply Hall, in_app_iff in Hy as [Hy | Hy]; [done |].
    pose proof (sort_desc_sorted float_mul (context cm)) as Hsorted.
    rewrite <- (rev_involutive (sort_desc float_mul (context cm))), Hsplit in Hsorted.
    rewrite rev_app_distr in Hsorted.
    apply (sorted_app _ _ _ Hsorted); by apply -> in_rev.
  - destruct Hend as [Hok | ->].
    + left. unfold over in *. by rewrite usage_of_decay.
    + right. rewrite app_nil_r in Hsplit.
      replace (strip (context cm) evicted) with (@nil (string * ContextEntry));
        [done |].
      symmetry. apply dict_all_None. intros k.
      rewrite dict_get_strip by done. case_bool_decide as Hin; [done |].
      apply dict_get_None. intros Hk. apply Hin.
      apply list_elem_of_In. apply in_map_iff in Hk as (x & <- & Hx).
      apply in_map. apply Hall in Hx. by rewrite app_nil_r in Hx.
Qed.

Lemma compress_settings (cm : ContextManager) :
  limit (_compress float_mul json_dumps cm) = limit cm
  ∧ relevance_decay (_compress float_mul json_dumps cm) = relevance_decay cm.
Proof. unfold _compress, limit. by destruct (evict _ _ _ _). Qed.

End Compress.

End ContextFacts.

Import Context ContextFacts.

(** C10.  [get_relevant_context] with the role ["tech_lead"] returns the
    empty mapping, whatever the store holds and whatever the task type:
    the table of [_calculate_relevance] has entries for five roles and
    ["tech_lead"] is not one of them.  The same holds for every role the
    table has no entry for. *)
Theorem tech_lead_gets_no_context :
  ∀ (py_str : Py.value → string) (cm : ContextManager) (task_type : string),
    get_relevant_context py_str task_type "tech_lead" cm = ∅
    ∧ map fst relevance_map
      = ["product_owner"; "backend_dev"; "frontend_dev"; "devops_eng";
         "qa_engineer"]
    ∧ ∀ role, dict_get role relevance_map = None →
        get_relevant_context py_str task_type role cm = ∅.
Proof.
  intros py_str cm task_type.
  split; [by apply no_table_entry_no_context |].
  split; [reflexivity |].
  intros role. apply no_table_entry_no_context.
Qed.

Lemma tech_lead_gets_no_context_witness :
  dict_get "intern" relevance_map = None
  ∧ get_relevant_context (λ _, "") "design" "intern" (init 4000) = ∅.
Proof.
  assert (dict_get "intern" relevance_map = None) as Hnone by reflexivity.
  split; [exact Hnone |].
  destruct (tech_lead_gets_no_context (λ _, "") (init 4000) "design")
    as (_ & _ & Hrole).
  exact (Hrole "intern" Hnone).
Defined.

(** A store with two entries, one of them read twice. *)
Definition two_entries : ContextManager :=
  with_context
    [("goal", {| key := "goal"; value := VStr "ship"; relevance_score := 1;
                 last_accessed := 10; access_count := 2 |});
     ("notes", {| key := "notes"; value := VList [VInt 1; VInt 2];
                  relevance_score := 19 # 20; last_accessed := 12;
                  access_count := 0 |})]
    (init 4000).




Definition wall_clock : nat → Z := Z.of_nat.





(** The store after [set("debt", "rewrite the parser", relevance=-1.0)]. *)
Definition negative_score : ContextManager :=
  snd (set double_mul json_dumps wall_clock "debt"
         (VStr "rewrite the parser") (-1) (init 4000)).

(** C9, as the claim states it, fails: an entry set with a negative
    relevance survives a compression pass with a larger score, since the
    pass multiplies the score by 0.95. *)
Lemma negative_score_rises_in_compression :
  ∃ e e',
    dict_get "debt" (context negative_score) = Some e
    ∧ dict_get "debt" (context (_compress double_mul json_dumps negative_score))
      = Some e'
    ∧ (relevance_score e == - (19 # 20))%Q
    ∧ (relevance_score e' == - (361 # 400))%Q
    ∧ ¬ (relevance_score e' <= relevance_score e)%Q.
Proof.
  eexists _, _. split; [by vm_compute |]. split; [by vm_compute |].
  split; [by vm_compute |]. split; [by vm_compute |].
  vm_compute. intros H. by apply H.
Qed.

(** C9, amended.  An entry that survives a compression pass has its
    relevance score multiplied by the decay factor of the store; with the
    factor between 0 and 1, as the 0.95 the constructor sets, the score of
    an entry whose score is not negative is not negative and not larger
    after the pass, and after any number of passes it survives. *)
Theorem surviving_scores_do_not_rise :
  ∀ (float_mul : Q → Z → Q)
    (json_dumps : list (string * Py.value) → string) (cm : ContextManager)
    (k : string) (e : ContextEntry),
    NoDup (map fst (context cm)) →
    (0 <= relevance_decay cm <= 1)%Q →
    dict_get k (context cm) = Some e →
    (∀ e', dict_get k (context (_compress float_mul json_dumps cm)) = Some e' →
       relevance_score e' = (relevance_score e * relevance_decay cm)%Q)
    ∧ ((0 <= relevance_score e)%Q →
       ∀ n e',
         dict_get k (context (Nat.iter n (_compress float_mul json_dumps) cm))
         = Some e' →
         (0 <= relevance_score e' <= relevance_score e)%Q).
Proof.
  intros float_mul json_dumps cm k e Hnd Hdecay Hk.
  assert (Hstep : ∀ cm0 e', NoDup (map fst (context cm0)) →
            dict_get k (context (_compress float_mul json_dumps cm0))
            = Some e' →
            ∃ e0, dict_get k (context cm0) = Some e0
                  ∧ e' = decay (relevance_decay cm0) e0).
  { intros cm0 e' Hnd0 He'.
    destruct (compress_spec float_mul json_dumps cm0 Hnd0)
      as (evicted & Hctx & _).
    rewrite Hctx, dict_get_map, dict_get_strip in He' by done.
    case_bool_decide; [discriminate |].
    destruct (dict_get k (context cm0)) as [e0 |]; [| discriminate].
    injection He' as <-. by exists e0. }
  assert (Hkeep : ∀ n,
            NoDup (map fst (context
                     (Nat.iter n (_compress float_mul json_dumps) cm)))
            ∧ relevance_decay (Nat.iter n (_compress float_mul json_dumps) cm)
              = relevance_decay cm).
  { induction n as [|n [IHnd IHdecay]]; [done |]. simpl. split.
    - destruct (compress_spec float_mul json_dumps _ IHnd)
        as (evicted & Hctx & _).
      rewrite Hctx, map_map. simpl. by apply NoDup_strip.
    - destruct (compress_settings float_mul json_dumps
                  (Nat.iter n (_compress float_mul json_dumps) cm)) as [_ ->].
      exact IHdecay. }
  split.
  - intros e' He'. destruct (Hstep cm e' Hnd He') as (e0 & He0 & ->).
    rewrite Hk in He0. by injection He0 as <-.
  - intros Hpos n. induction n as [|n IH]; intros e' He'.
    + simpl in He'. rewrite Hk in He'. injection He' as <-. lra.
    + simpl in He'. destruct (Hkeep n) as [Hndn Hdn].
      destruct (Hstep _ e' Hndn He') as (e0 & He0 & ->).
      specialize (IH e0 He0). simpl. rewrite Hdn. nra.
Qed.

Lemma surviving_scores_do_not_rise_witness :
  NoDup (map fst (context two_entries))
  ∧ (0 <= relevance_decay two_entries <= 1)%Q
  ∧ (0 <= 1)%Q
  ∧ ∀ n e',
      dict_get "goal"
        (context (Nat.iter n (_compress double_mul json_dumps) two_entries))
      = Some e' →
      (0 <= relevance_score e' <= 1)%Q.
Proof.
  assert (NoDup (map fst (context two_entries))) as Hnd
    by (apply (bool_decide_unpack _); vm_compute; exact I).
  assert (0 <= relevance_decay two_entries <= 1)%Q as Hdecay
    by (split; by vm_compute).
  assert (0 <= 1)%Q as Hpos by by vm_compute.
  split; [exact Hnd |]. split; [exact Hdecay |]. split; [exact Hpos |].
  destruct (surviving_scores_do_not_rise double_mul json_dumps two_entries
              "goal" _ Hnd Hdecay eq_refl) as [_ Hpasses].
  exact (Hpasses Hpos).
Defined.
(** * Further properties of the code *)

Module ListFacts.

Lemma filter_sublist {A : Type} (f : A → bool) (l : list A) :
  sublist (List.filter f l) l.
Proof.
  induction l as [| x l IH]; simpl; [constructor |].
  destruct (f x); by constructor.
Qed.

End ListFacts.

(** ** The scheduler *)

Module SchedulerOrder.
Import Orchestrator SchedulerFacts ListFacts.

Section Order.
Variable h : heap.

(** A wave is cut out of the tasks that remain, which are cut out of the
    batch: the loop never reorders. *)
Lemma waves_loop_order (batch : list addr) (n : nat) :
  ∀ (waves : list (list addr)) (c : gset string) (rem : list addr)
    (out : list (list addr)),
    length rem ≤ n →
    sublist rem batch →
    waves_loop h waves c rem = Returned out →
    ∃ new, out = waves ++ new ∧ Forall (λ w, sublist w batch) new.
Proof.
  induction n as [| n IH]; intros waves c rem out Hlen Hsub Hrun.
  - destruct rem; [| simpl in Hlen; lia].
    rewrite waves_loop_unfold in Hrun. injection Hrun as <-.
    exists []. by rewrite app_nil_r.
  - destruct rem as [| t ts].
    { rewrite waves_loop_unfold in Hrun. injection Hrun as <-.
      exists []. by rewrite app_nil_r. }
    rewrite waves_loop_step in Hrun.
    destruct (List.filter (ready h c) (t :: ts)) as [| w wave] eqn:Hwave;
      [discriminate |].
    assert (sublist (w :: wave) batch) as Hw.
    { rewrite <- Hwave. etransitivity; [apply filter_sublist | exact Hsub]. }
    apply IH in Hrun as (new & -> & Hnew).
    + exists ((w :: wave) :: new). split; [by rewrite <- app_assoc |].
      by constructor.
    + assert (length (List.filter (λ t', negb (ready h c t')) (t :: ts))
              < length (t :: ts)) as Hlt
        by (apply remaining_shrinks; by rewrite Hwave).
      lia.
    + etransitivity; [apply filter_sublist | exact Hsub].
Qed.

(** The tasks left after a round were not ready in it; a task placed in
    the next round therefore waited for a task of the wave just placed. *)
Lemma waves_loop_earliest (n : nat) :
  ∀ (pre : list (list addr)) (w0 : list addr) (c0 : gset string)
    (rem : list addr) (out : list (list addr)),
    length rem ≤ n →
    (∀ t, In t rem → ready h c0 t = false) →
    waves_loop h (pre ++ [w0])
      (c0 ∪ list_to_set (map (λ a, id (h a)) w0)) rem = Returned out →
    ∃ new, out = pre ++ w0 :: new
      ∧ ∀ i w t, (w0 :: new) !! S i = Some w → In t w →
          ∃ d w' t', In d (dependencies (h t))
                     ∧ (w0 :: new) !! i = Some w' ∧ In t' w'
                     ∧ id (h t') = d.
Proof.
  induction n as [| n IH]; intros pre w0 c0 rem out Hlen Hwait Hrun.
  - destruct rem; [| simpl in Hlen; lia].
    rewrite waves_loop_unfold in Hrun. injection Hrun as <-.
    exists []. split; [reflexivity |]. intros i w t Hi. by destruct i.
  - destruct rem as [| t ts].
    { rewrite waves_loop_unfold in Hrun. injection Hrun as <-.
      exists []. split; [reflexivity |]. intros i w t Hi. by destruct i. }
    set (c := c0 ∪ list_to_set (map (λ a, id (h a)) w0)) in *.
    rewrite waves_loop_step in Hrun.
    destruct (List.filter (ready h c) (t :: ts)) as [| w wave] eqn:Hwave;
      [discriminate |].
    apply IH in Hrun as (new & -> & Hnew).
    + exists ((w :: wave) :: new). split; [by rewrite <- app_assoc |].
      intros [| i] w1 t1 Hi Ht1.
      * simpl in Hi. injection Hi as <-. rewrite <- Hwave in Ht1.
        apply List.filter_In in Ht1 as [Hin Hready].
        destruct (not_ready_dependency h c0 t1 (Hwait t1 Hin))
          as (d & Hd & Hnot).
        unfold ready in Hready. rewrite forallb_forall in Hready.
        specialize (Hready d Hd). apply bool_decide_eq_true in Hready.
        unfold c in Hready. apply elem_of_union in Hready as [? | Hready];
          [done |].
        apply elem_of_list_to_set, list_elem_of_In, in_map_iff in Hready
          as (t' & Hid & Ht').
        exists d, w0, t'. auto.
      * apply (Hnew i w1 t1 Hi Ht1).
    + assert (length (List.filter (λ t', negb (ready h c t')) (t :: ts))
              < length (t :: ts)) as Hlt
        by (apply remaining_shrinks; by rewrite Hwave).
      lia.
    + intros t' Ht'. apply List.filter_In in Ht' as [_ Hneg].
      by apply negb_true_iff in Hneg.
Qed.

(** Nothing is completed before the first round: a task is ready in it
    when it has no dependencies. *)
Lemma ready_at_start (t : addr) :
  ready h ∅ t = bool_decide (dependencies (h t) = []).
Proof.
  unfold ready. destruct (dependencies (h t)) as [| d ds]; [done |].
  simpl. rewrite (bool_decide_eq_false_2 (d ∈ (∅ : gset string)))
    by set_solver.
  reflexivity.
Qed.

Lemma ready_at_start_filter (l : list addr) :
  List.filter (ready h ∅) l
  = List.filter (λ t, bool_decide (dependencies (h t) = [])) l.
Proof. apply List.filter_ext. intros t. apply ready_at_start. Qed.

End Order.

End SchedulerOrder.

Import Orchestrator SchedulerFacts SchedulerOrder.

(** A release: the specification first, the API and the UI from it, then
    the review of the API and the deployment of both. *)
Definition release : heap :=
  heap_of [mkTask "spec" "product_owner" "requirements" [];
           mkTask "api" "backend_dev" "implement" ["spec"];
           mkTask "ui" "frontend_dev" "implement" ["spec"];
           mkTask "review" "tech_lead" "perform_review" ["api"];
           mkTask "deploy" "devops_eng" "deploy" ["api"; "ui"]].

Lemma waves_no_more_than_tasks {A : Type} (ws : list (list A)) :
  Forall (λ w, w ≠ []) ws → length ws ≤ length (concat ws).
Proof.
  induction 1 as [| w ws Hw _ IH]; simpl; [lia |].
  rewrite length_app. destruct w; [done | simpl; lia].
Qed.

(** X1.  Whenever [calculate_waves] returns, no wave is empty, every wave
    lists its tasks in the order the batch submitted them (a wave is the
    batch with some tasks left out), and there are no more waves than
    tasks.  No assumption on the ids or the dependencies is needed. *)
Theorem waves_keep_submission_order :
  ∀ (h : heap) (batch : list addr) (waves : list (list addr)),
    calculate_waves h batch = Returned waves →
    Forall (λ w, w ≠ [] ∧ sublist w batch) waves
    ∧ length waves ≤ length batch.
Proof.
  intros h batch waves Hrun.
  destruct (calculate_waves_sound h batch waves Hrun) as (Hperm & Hne & _).
  destruct (waves_loop_order h batch (length batch) [] ∅ batch waves)
    as (new & -> & Hsub); [lia | reflexivity | exact Hrun |].
  split.
  - apply Forall_forall. intros w Hw. split.
    + by apply (proj1 (Forall_forall _ _) Hne).
    + by apply (proj1 (Forall_forall _ _) Hsub).
  - rewrite <- (Permutation_length Hperm). by apply waves_no_more_than_tasks.
Qed.

Lemma waves_keep_submission_order_witness :
  calculate_waves release [0; 1; 2; 3; 4] = Returned [[0]; [1; 2]; [3; 4]]
  ∧ Forall (λ w, w ≠ [] ∧ sublist w [0; 1; 2; 3; 4]) [[0]; [1; 2]; [3; 4]].
Proof.
  assert (calculate_waves release [0; 1; 2; 3; 4]
          = Returned [[0]; [1; 2]; [3; 4]]) as Hrun
    by (vm_compute; reflexivity).
  split; [exact Hrun |].
  exact (proj1 (waves_keep_submission_order release [0; 1; 2; 3; 4] _ Hrun)).
Defined.

(** X2.  Whenever [calculate_waves] returns, the first wave is exactly the
    tasks of the batch without dependencies, and every task of a later wave
    has a dependency on a task of the wave just before its own: a task is
    placed in the first round in which it can run, never later. *)
Theorem every_task_runs_in_the_first_wave_it_can :
  ∀ (h : heap) (batch : list addr) (waves : list (list addr)),
    calculate_waves h batch = Returned waves →
    (∀ w, waves !! 0 = Some w →
       w = List.filter (λ t, bool_decide (dependencies (h t) = [])) batch)
    ∧ (∀ i w t, waves !! S i = Some w → In t w →
         ∃ d w' t', In d (dependencies (h t))
                    ∧ waves !! i = Some w' ∧ In t' w' ∧ id (h t') = d).
Proof.
  intros h batch waves Hrun. unfold calculate_waves in Hrun.
  destruct batch as [| t ts].
  { rewrite waves_loop_unfold in Hrun. injection Hrun as <-.
    split; [intros w Hw; discriminate Hw | intros i w t Hi; discriminate Hi]. }
  rewrite waves_loop_step in Hrun.
  destruct (List.filter (ready h ∅) (t :: ts)) as [| w0 wave] eqn:Hwave;
    [discriminate |].
  apply (waves_loop_earliest h (length (t :: ts)) [] (w0 :: wave) ∅) in Hrun
    as (new & -> & Hnew).
  - split; [| exact Hnew].
    intros w Hw. simpl in Hw. injection Hw as <-.
    rewrite <- Hwave. apply ready_at_start_filter.
  - pose proof (List.filter_length_le (λ t', negb (ready h ∅ t')) (t :: ts)).
    lia.
  - intros t' Ht'. apply List.filter_In in Ht' as [_ Hneg].
    by apply negb_true_iff in Hneg.
Qed.

Lemma every_task_runs_in_the_first_wave_it_can_witness :
  calculate_waves release [0; 1; 2; 3; 4] = Returned [[0]; [1; 2]; [3; 4]]
  ∧ ∃ d w' t', In d (dependencies (release 4))
               ∧ [[0]; [1; 2]; [3; 4]] !! 1 = Some w' ∧ In t' w'
               ∧ id (release t') = d.
Proof.
  assert (calculate_waves release [0; 1; 2; 3; 4]
          = Returned [[0]; [1; 2]; [3; 4]]) as Hrun
    by (vm_compute; reflexivity).
  split; [exact Hrun |].
  destruct (every_task_runs_in_the_first_wave_it_can release [0; 1; 2; 3; 4]
              _ Hrun) as [_ Hlater].
  apply (Hlater 1 [3; 4] 4); [reflexivity | simpl; tauto].
Defined.

(** ** One task *)

Module ExecutorTraces.
Import Orchestrator SchedulerFacts ExecutorFacts.

Definition completed (t : addr) : OEvent :=
  {| ev_type := "task.completed"; ev_args := [t]; ev_kwargs := [] |}.

Definition wave_completed (i : nat) : OEvent :=
  {| ev_type := "wave.completed"; ev_args := [];
     ev_kwargs := [("wave_number", VInt (Z.of_nat i + 1))] |}.

(** The keys of [role_handlers]. *)
Definition known_roles : list string :=
  ["product_owner"; "backend_dev"; "frontend_dev"; "devops_eng";
   "qa_engineer"; "tech_lead"].

(** The fields of a task that say what is asked for; running a task
    writes [status], [result] and [error] only. *)
Definition same_request (a b : Task) : Prop :=
  id a = id b ∧ role a = role b ∧ action a = action b
  ∧ dependencies a = dependencies b ∧ params a = params b.

Lemma quiet_same (st st' : Orch) :
  event_handlers st' = event_handlers st → quiet st → quiet st'.
Proof. intros Heq Hq o Ho. apply Hq. by rewrite <- Heq. Qed.

Lemma ordinary_same (st st' : Orch) :
  hooks_runner st' = hooks_runner st → ordinary st → ordinary st'.
Proof.
  intros Heq Ho e (run & n & arg & Hrun & He). apply Ho.
  exists run, n, arg. split; [by rewrite <- Heq | exact He].
Qed.

(** The state after [task.status = RUNNING] and the [task.started] event. *)
Definition running (t : addr) (st : Orch) : Orch :=
  with_emitted (emitted st ++ [started t])
    (with_objs (store t (set_status RUNNING (objs st t)) (objs st)) st).

(** A role handler that does not get to the hooks runner: it leaves the
    state alone, and it raises for a role without handler only. *)
Lemma execute_by_role_plain (t : addr) (st : Orch) :
  hooks_runner st = None ∨ role (objs st t) ≠ "tech_lead" →
  ∃ r, _execute_by_role t st = (r, st)
    ∧ match r with
      | Returned v =>
          In (role (objs st t)) known_roles ∧ ∃ d, v = VDict d ∧ d ≠ []
      | Raised e =>
          ¬ In (role (objs st t)) known_roles
          ∧ e = ValueError ("Unknown role: " ++ role (objs st t))
      end.
Proof.
  intros Hplain. unfold _execute_by_role, bind, read, known_roles.
  cbn [dict_get].
  repeat match goal with
         | |- context [String.eqb ?a ?b] =>
             destruct (String.eqb_spec a b) as [Heq | ?]
         end;
    try (eexists; split; [reflexivity |]; rewrite Heq; cbn [In];
         split; [auto 10 | eexists; split; [reflexivity | discriminate]]).
  - destruct Hplain as [Hnone | Hrole]; [| done].
    unfold _handle_tech_lead, bind, read. cbn [dict_get].
    repeat match goal with
           | |- context [String.eqb ?a ?b] =>
               destruct (String.eqb_spec a b)
           end;
      cbn [default];
      unfold _run_quality_checks, _perform_code_review, _execute_hooks,
        _default_tech_lead_action, bind, read, ret;
      simpl; rewrite ?Hnone;
      (eexists; split; [reflexivity |]; rewrite Heq; cbn [In];
       split; [auto 10 | eexists; split; [reflexivity | discriminate]]).
  - eexists. split; [reflexivity |]. cbn [In]. split; [| reflexivity].
    intuition congruence.
Qed.

Section Traces.
Variable py_str : Py.value → string.

Lemma begin_unfold (t : addr) (st : Orch) :
  quiet st →
  execute_task_begin py_str t st
  = try_except (pre_task_hooks py_str t)
               (λ e, on_failure t e ;; ret (Finished t)) (running t st).
Proof.
  intros Hq. unfold execute_task_begin, bind, update_task, modify. simpl.
  by rewrite emit_quiet by exact Hq.
Qed.

Lemma running_quiet (t : addr) (st : Orch) : quiet st → quiet (running t st).
Proof. by apply quiet_same. Qed.

(** The pre-task hooks, case by case: they let the task go on, they veto
    it with the error the runner reported, or they raise. *)
Lemma pre_task_hooks_cases (t : addr) (st : Orch) :
  ∃ r st', pre_task_hooks py_str t st = (r, st')
    ∧ silent t st st'
    ∧ match r with
      | Returned (Finished t') =>
          t' = t
          ∧ ∃ err, objs st' t
                   = set_status FAILED
                       (set_error (Some ("Hook failed: " ++ py_str err)%string)
                          (objs st t))
      | _ => objs st' t = objs st t
      end.
Proof.
  unfold pre_task_hooks, bind, read, lift, run_hooks, dict_item, silent,
    writes_only. simpl.
  destruct (hooks_runner st) as [run|] eqn:Hrun; simpl.
  2: { eexists _, _. split; [reflexivity |]. auto 10. }
  destruct (String.eqb (role (objs st t)) "tech_lead"); simpl.
  2: { eexists _, _. split; [reflexivity |]. auto 10. }
  destruct (run (hook_calls st) (VStr (action (objs st t)))) as [res | e];
    simpl.
  2: { eexists _, _. split; [reflexivity |]. simpl. auto 10. }
  destruct (dict_get "success" res) as [success|]; simpl.
  2: { eexists _, _. split; [reflexivity |]. simpl. auto 10. }
  destruct (negb (truthy success)); simpl.
  2: { eexists _, _. split; [reflexivity |]. simpl. auto 10. }
  destruct (dict_get "error" res) as [err|]; simpl.
  2: { eexists _, _. split; [reflexivity |]. simpl. auto 10. }
  eexists _, _. split; [reflexivity |]. simpl.
  split.
  - repeat split; auto. intros u Hu.
    by rewrite !(store_other t u) by exact Hu.
  - split; [reflexivity |]. exists err. by rewrite !store_same.
Qed.

(** The part of [execute_task] after the sleep, case by case. *)
Lemma resume_cases (t : addr) (st : Orch) :
  quiet st → ordinary st →
  ∃ st', execute_task_resume t st = (Returned t, st')
    ∧ event_handlers st' = event_handlers st
    ∧ hooks_runner st' = hooks_runner st
    ∧ writes_only t st st'
    ∧ ((∃ res st1, _execute_by_role t st = (Returned res, st1)
          ∧ objs st' t = set_status COMPLETED (set_result res (objs st t))
          ∧ emitted st' = emitted st ++ [completed t])
       ∨ (∃ e st1, _execute_by_role t st = (Raised e, st1)
            ∧ objs st' t
              = set_status FAILED (set_error (Some (exn_str e)) (objs st t))
            ∧ emitted st' = emitted st ++ [failed t (exn_str e)])).
Proof.
  intros Hq Ho. unfold execute_task_resume, run_role_handler, try_except, bind.
  destruct (hooks_only_execute_by_role t st) as [n Hn].
  pose proof (confined_execute_by_role t st) as Hexn.
  destruct (_execute_by_role t st) as [[res | e] st1]; simpl in Hn; subst st1.
  - unfold update_task, modify. simpl. rewrite emit_quiet by exact Hq.
    eexists. split; [reflexivity |]. simpl.
    split; [reflexivity |]. split; [reflexivity |].
    split; [intros u Hu; simpl; by rewrite !(store_other t u) by exact Hu |].
    left. exists res, (with_hook_calls n st). split; [reflexivity |].
    by rewrite !store_same.
  - rewrite (raised_is_Exception st e Ho (Hexn e _ eq_refl)).
    unfold on_failure, update_task, modify, bind. simpl.
    rewrite emit_quiet by exact Hq.
    eexists. split; [reflexivity |]. simpl.
    split; [reflexivity |]. split; [reflexivity |].
    split; [intros u Hu; simpl; by rewrite !(store_other t u) by exact Hu |].
    right. exists e, (with_hook_calls n st). split; [reflexivity |].
    by rewrite !store_same.
Qed.

End Traces.

End ExecutorTraces.

Import Orchestrator SchedulerFacts ExecutorFacts ExecutorTraces.

Lemma on_failure_exact (t : addr) (e : exn) (st : Orch) :
  quiet st →
  ∃ st', on_failure t e st = (Returned tt, st')
    ∧ event_handlers st' = event_handlers st
    ∧ hooks_runner st' = hooks_runner st
    ∧ writes_only t st st'
    ∧ objs st' t = set_status FAILED (set_error (Some (exn_str e)) (objs st t))
    ∧ emitted st' = emitted st ++ [failed t (exn_str e)].
Proof.
  intros Hq. unfold on_failure, update_task, modify, bind. simpl.
  rewrite emit_quiet by exact Hq.
  eexists. split; [reflexivity |]. simpl.
  split; [reflexivity |]. split; [reflexivity |].
  split; [intros u Hu; simpl; by rewrite !(store_other t u) by exact Hu |].
  by rewrite !store_same.
Qed.

(** X3.  When no observer raises and the hooks runner, if there is one,
    raises only exceptions that derive from [Exception], [execute_task]
    returns the task it was given, whatever else the hooks runner and the
    role handler do, and leaves every other task and the task's own id, role,
    action, dependencies and parameters as they were.  It ends in one of
    three ways: the task is [COMPLETED] after the events [task.started],
    [task.completed]; or it is [FAILED] with an error message after
    [task.started], [task.failed] carrying that message; or it is [FAILED]
    with an error message after [task.started] alone (the pre-task hooks
    refused the task).  A failed task keeps the result it had. *)
Theorem execute_task_ends_in_one_of_three_ways :
  ∀ (py_str : Py.value → string) (st : Orch) (t : addr),
    quiet st → ordinary st →
    ∃ st',
      execute_task py_str t st = (Returned t, st')
      ∧ (∀ u, u ≠ t → objs st' u = objs st u)
      ∧ same_request (objs st' t) (objs st t)
      ∧ ((status (objs st' t) = COMPLETED
          ∧ error (objs st' t) = error (objs st t)
          ∧ emitted st' = emitted st ++ [started t; completed t])
         ∨ (status (objs st' t) = FAILED
            ∧ result (objs st' t) = result (objs st t)
            ∧ ∃ msg, error (objs st' t) = Some msg
                ∧ (emitted st' = emitted st ++ [started t; failed t msg]
                   ∨ emitted st' = emitted st ++ [started t]))).
Proof.
  intros py_str st t Hq Ho. unfold execute_task, bind.
  rewrite begin_unfold by exact Hq. unfold try_except.
  pose proof (running_quiet t st Hq) as Hq0.
  assert (ordinary (running t st)) as Ho0 by exact Ho.
  assert (objs (running t st) t = set_status RUNNING (objs st t)) as Hobj0
    by (simpl; by rewrite store_same).
  assert (∀ u, u ≠ t → objs (running t st) u = objs st u) as Hoth0
    by (intros u Hu; simpl; by rewrite store_other).
  pose proof (pre_task_hooks_raises py_str t (running t st)) as Hexn.
  destruct (pre_task_hooks_cases py_str t (running t st))
    as (r & st1 & Hpre & (Hh1 & Hr1 & He1 & Hw1) & Hcase).
  rewrite Hpre.
  assert (quiet st1) as Hq1 by (by apply (quiet_same (running t st))).
  assert (ordinary st1) as Ho1.
  { intros x (run & n & arg & Hrun & Hx). apply Ho.
    exists run, n, arg. rewrite Hr1 in Hrun. by split. }
  destruct r as [[t' |] | e].
  - destruct Hcase as [-> [err Hobj1]]. exists st1.
    split; [reflexivity |].
    split; [intros u Hu; by rewrite Hw1, Hoth0 |].
    rewrite Hobj1, Hobj0. split; [by repeat split |].
    right. split; [reflexivity |]. split; [reflexivity |].
    eexists. split; [reflexivity |]. right. by rewrite He1.
  - destruct (resume_cases t st1 Hq1 Ho1)
      as (st2 & -> & _ & _ & Hw2
          & [(res & ? & _ & Hobj2 & He2) | (e & ? & _ & Hobj2 & He2)]).
    + exists st2. split; [reflexivity |].
      split; [intros u Hu; by rewrite Hw2, Hw1, Hoth0 |].
      rewrite Hobj2, Hcase, Hobj0. split; [by repeat split |].
      left. split; [reflexivity |]. split; [reflexivity |].
      rewrite He2, He1. simpl. by rewrite <- app_assoc.
    + exists st2. split; [reflexivity |].
      split; [intros u Hu; by rewrite Hw2, Hw1, Hoth0 |].
      rewrite Hobj2, Hcase, Hobj0. split; [by repeat split |].
      right. split; [reflexivity |]. split; [reflexivity |].
      eexists. split; [reflexivity |]. left.
      rewrite He2, He1. simpl. by rewrite <- app_assoc.
  - rewrite (raised_is_Exception _ e Ho0 (Hexn _ _ Hpre)). unfold bind.
    destruct (on_failure_exact t e st1 Hq1)
      as (st2 & -> & _ & _ & Hw2 & Hobj2 & He2).
    exists st2. split; [reflexivity |].
    split; [intros u Hu; by rewrite Hw2, Hw1, Hoth0 |].
    rewrite Hobj2, Hcase, Hobj0. split; [by repeat split |].
    right. split; [reflexivity |]. split; [reflexivity |].
    eexists. split; [reflexivity |]. left.
    rewrite He2, He1. simpl. by rewrite <- app_assoc.
Qed.

Lemma execute_task_ends_in_one_of_three_ways_witness :
  ∃ st', execute_task (λ _, "") 3 (init release) = (Returned 3, st')
    ∧ ∀ u, u ≠ 3 → objs st' u = release u.
Proof.
  destruct (execute_task_ends_in_one_of_three_ways (λ _, "") (init release) 3)
    as (st' & Hrun & Hothers & _).
  - intros o Ho. simpl in Ho. destruct Ho.
  - intros e (run & n & arg & Hrun & _). discriminate Hrun.
  - exists st'. split; [exact Hrun | exact Hothers].
Defined.

(** X4.  A task that does not get to the hooks runner (there is none, or
    the role of the task is not [tech_lead]) is [COMPLETED] exactly when its
    role is one of the six roles with a handler: then its result is a
    non-empty dictionary and the events are [task.started],
    [task.completed]; with any other role it is [FAILED] with the error
    [Unknown role: <role>], keeps its result, and the events are
    [task.started], [task.failed].  No hook is run on the way. *)
Theorem task_outcome_is_decided_by_its_role :
  ∀ (py_str : Py.value → string) (st : Orch) (t : addr),
    quiet st →
    hooks_runner st = None ∨ role (objs st t) ≠ "tech_lead" →
    ∃ st',
      execute_task py_str t st = (Returned t, st')
      ∧ hook_calls st' = hook_calls st
      ∧ if bool_decide (role (objs st t) ∈ known_roles)
        then status (objs st' t) = COMPLETED
             ∧ (∃ d, result (objs st' t) = VDict d ∧ d ≠ [])
             ∧ emitted st' = emitted st ++ [started t; completed t]
        else status (objs st' t) = FAILED
             ∧ error (objs st' t)
               = Some ("Unknown role: " ++ role (objs st t))%string
             ∧ result (objs st' t) = result (objs st t)
             ∧ emitted st' = emitted st
                 ++ [started t;
                     failed t ("Unknown role: " ++ role (objs st t))%string].
Proof.
  intros py_str st t Hq Hplain. unfold execute_task, bind.
  rewrite begin_unfold by exact Hq. unfold try_except.
  assert (objs (running t st) t = set_status RUNNING (objs st t)) as Hobj0
    by (simpl; by rewrite store_same).
  assert (pre_task_hooks py_str t (running t st)
          = (Returned Suspended, running t st)) as ->.
  { unfold pre_task_hooks, bind, read. cbn [hooks_runner running with_emitted
      with_objs]. rewrite Hobj0. cbn [role set_status].
    destruct Hplain as [-> | Hrole]; [reflexivity |].
    destruct (hooks_runner st); [| reflexivity].
    destruct (String.eqb_spec (role (objs st t)) "tech_lead"); [done |].
    reflexivity. }
  destruct (execute_by_role_plain t (running t st)) as (r & Hrole & Hr).
  { rewrite Hobj0. exact Hplain. }
  rewrite Hobj0 in Hr. cbn [role set_status] in Hr.
  unfold execute_task_resume, run_role_handler, try_except, bind.
  rewrite Hrole.
  destruct r as [v | e].
  - destruct Hr as [Hknown (d & -> & Hd)].
    rewrite bool_decide_eq_true_2 by (by apply list_elem_of_In).
    unfold update_task, modify. simpl.
    rewrite emit_quiet by (by apply (quiet_same st)).
    eexists. split; [reflexivity |]. simpl. rewrite !store_same. simpl.
    split; [reflexivity |]. split; [reflexivity |].
    split; [by exists d |]. by rewrite <- app_assoc.
  - destruct Hr as [Hunknown ->].
    rewrite bool_decide_eq_false_2 by (by rewrite list_elem_of_In).
    unfold on_failure, update_task, modify, bind. simpl.
    rewrite emit_quiet by (by apply (quiet_same st)).
    eexists. split; [reflexivity |]. simpl. rewrite !store_same. simpl.
    split; [reflexivity |]. split; [reflexivity |].
    split; [reflexivity |]. split; [reflexivity |].
    by rewrite <- app_assoc.
Qed.

Lemma task_outcome_is_decided_by_its_role_witness :
  ∃ st', execute_task (λ _, "") 1 (init release) = (Returned 1, st')
    ∧ status (objs st' 1) = COMPLETED.
Proof.
  destruct (task_outcome_is_decided_by_its_role (λ _, "") (init release) 1)
    as (st' & Hrun & _ & Hcase).
  - intros o Ho. simpl in Ho. destruct Ho.
  - left. reflexivity.
  - exists st'. split; [exact Hrun |].
    rewrite bool_decide_eq_true_2 in Hcase
      by (apply (bool_decide_unpack _); vm_compute; exact I).
    apply Hcase.
Defined.

(** The pre-task hooks of a TechLead task, by what the runner answers:
    [Some err] for a veto with its error, [None] to go on. *)
Definition hook_verdict (answer : outcome (list (string * Py.value)))
  : outcome (option Py.value) :=
  match answer with
  | Returned res =>
      match dict_item "success" res with
      | Returned success =>
          if negb (truthy success) then
            match dict_item "error" res with
            | Returned err => Returned (Some err)
            | Raised e => Raised e
            end
          else Returned None
      | Raised e => Raised e
      end
  | Raised e => Raised e
  end.

Lemma pre_task_hooks_tech_lead (py_str : Py.value → string) (t : addr)
    (st : Orch) (run : runner) :
  hooks_runner st = Some run →
  role (objs st t) = "tech_lead" →
  pre_task_hooks py_str t st
  = match hook_verdict (run (hook_calls st) (VStr (action (objs st t)))) with
    | Returned (Some err) =>
        (Returned (Finished t),
         with_objs
           (store t
              (set_status FAILED
                 (store t
                    (set_error (Some ("Hook failed: " ++ py_str err)%string)
                       (objs st t)) (objs st) t))
              (store t
                 (set_error (Some ("Hook failed: " ++ py_str err)%string)
                    (objs st t)) (objs st)))
           (with_hook_calls (S (hook_calls st)) st))
    | Returned None => (Returned Suspended, with_hook_calls (S (hook_calls st)) st)
    | Raised e => (Raised e, with_hook_calls (S (hook_calls st)) st)
    end.
Proof.
  intros Hrun Hrole.
  unfold pre_task_hooks, bind, read, lift, run_hooks, hook_verdict. simpl.
  rewrite Hrun, Hrole. simpl.
  destruct (run (hook_calls st) (VStr (action (objs st t)))) as [res | e];
    [| reflexivity].
  destruct (dict_item "success" res) as [success | e]; [| reflexivity].
  destruct (negb (truthy success)); [| reflexivity].
  destruct (dict_item "error" res) as [err | e]; reflexivity.
Qed.

(** What [execute_task] does with a TechLead task whose pre-task hooks do
    not let it go on. *)
Lemma execute_task_stopped_by_hooks (py_str : Py.value → string) (st : Orch)
    (t : addr) (run : runner) :
  quiet st →
  hooks_runner st = Some run →
  role (objs st t) = "tech_lead" →
  ∃ r st', execute_task py_str t st = (r, st')
    ∧ match hook_verdict (run (hook_calls st) (VStr (action (objs st t)))) with
      | Returned (Some err) =>
          r = Returned t
          ∧ objs st' t
            = set_status FAILED
                (set_error (Some ("Hook failed: " ++ py_str err)%string)
                   (objs st t))
          ∧ emitted st' = emitted st ++ [started t]
          ∧ hook_calls st' = S (hook_calls st)
      | Returned None => True
      | Raised e =>
          if is_Exception e
          then r = Returned t
               ∧ objs st' t
                 = set_status FAILED (set_error (Some (exn_str e)) (objs st t))
               ∧ emitted st' = emitted st ++ [started t; failed t (exn_str e)]
               ∧ hook_calls st' = S (hook_calls st)
          else r = Raised e
               ∧ objs st' t = set_status RUNNING (objs st t)
               ∧ emitted st' = emitted st ++ [started t]
               ∧ hook_calls st' = S (hook_calls st)
      end.
Proof.
  intros Hq Hrun Hrole. unfold execute_task, bind.
  rewrite begin_unfold by exact Hq. unfold try_except.
  assert (objs (running t st) t = set_status RUNNING (objs st t)) as Hobj0
    by (simpl; by rewrite store_same).
  rewrite (pre_task_hooks_tech_lead py_str t (running t st) run)
    by (try rewrite Hobj0; assumption).
  rewrite Hobj0. cbn [action set_status hook_calls running with_emitted
    with_objs].
  destruct (hook_verdict (run (hook_calls st) (VStr (action (objs st t)))))
    as [[err |] | e].
  - eexists _, _. split; [reflexivity |].
    simpl. rewrite !store_same. repeat split; reflexivity.
  - destruct (execute_task_resume t
                (with_hook_calls (S (hook_calls st)) (running t st)))
      as [r st2].
    exists r, st2. split; [reflexivity | exact I].
  - destruct (is_Exception e).
    + destruct (on_failure_exact t e
                  (with_hook_calls (S (hook_calls st)) (running t st)))
        as (st2 & Hf & _ & _ & _ & Hobj2 & He2); [by apply (quiet_same st) |].
      assert (hook_calls st2 = S (hook_calls st)) as Hcalls.
      { pose proof (f_equal snd Hf) as Hst2. simpl in Hst2. subst st2.
        unfold on_failure, update_task, modify, bind. simpl.
        by rewrite emit_recorded. }
      unfold bind. rewrite Hf. exists (Returned t), st2.
      split; [reflexivity |].
      rewrite Hobj2, He2. simpl. rewrite store_same.
      split; [reflexivity |]. split; [reflexivity |].
      split; [by rewrite <- app_assoc | exact Hcalls].
    + eexists _, _. split; [reflexivity |]. simpl. rewrite store_same.
      auto.
Qed.

(** X5.  A TechLead task whose pre-task hooks answer with a falsy
    ["success"] and an ["error"] is refused: [execute_task] returns it
    [FAILED] with the error [Hook failed: <error>], its role handler is not
    run (the result is untouched and the runner was called once), and the
    only event is [task.started]: no [task.failed] event tells the
    observers. *)
Theorem refused_by_hooks_fails_without_failed_event :
  ∀ (py_str : Py.value → string) (st : Orch) (t : addr) (run : runner)
    (res : list (string * Py.value)) (success err : Py.value),
    quiet st →
    hooks_runner st = Some run →
    role (objs st t) = "tech_lead" →
    run (hook_calls st) (VStr (action (objs st t))) = Returned res →
    dict_get "success" res = Some success →
    truthy success = false →
    dict_get "error" res = Some err →
    ∃ st',
      execute_task py_str t st = (Returned t, st')
      ∧ status (objs st' t) = FAILED
      ∧ error (objs st' t) = Some ("Hook failed: " ++ py_str err)%string
      ∧ result (objs st' t) = result (objs st t)
      ∧ hook_calls st' = S (hook_calls st)
      ∧ emitted st' = emitted st ++ [started t].
Proof.
  intros py_str st t run res success err Hq Hrun Hrole Hans Hsucc Hfalse Herr.
  destruct (execute_task_stopped_by_hooks py_str st t run Hq Hrun Hrole)
    as (r & st' & Hexec & Hcase).
  rewrite Hans in Hcase. unfold hook_verdict, dict_item in Hcase.
  rewrite Hsucc, Hfalse, Herr in Hcase. simpl in Hcase.
  destruct Hcase as (-> & Hobj & Hev & Hcalls).
  exists st'. rewrite Hobj. auto 10.
Qed.

(** A runner that refuses every task. *)
Definition refusing_runner : runner :=
  λ _ _, Returned [("success", VBool false); ("error", VStr "lint")].

(** [orchestrator.hooks_runner = run] *)
Definition with_runner (run : runner) (st : Orch) : Orch :=
  {| objs := objs st; tasks := tasks st; event_handlers := event_handlers st;
     hooks_runner := Some run; emitted := emitted st;
     hook_calls := hook_calls st |}.

Lemma refused_by_hooks_fails_without_failed_event_witness :
  ∃ st', execute_task (λ _, "lint") 3 (with_runner refusing_runner (init release))
         = (Returned 3, st')
    ∧ error (objs st' 3) = Some "Hook failed: lint"
    ∧ emitted st' = [started 3].
Proof.
  destruct (refused_by_hooks_fails_without_failed_event (λ _, "lint")
              (with_runner refusing_runner (init release)) 3 refusing_runner
              [("success", VBool false); ("error", VStr "lint")]
              (VBool false) (VStr "lint"))
    as (st' & Hrun & _ & Herr & _ & _ & Hev);
    try reflexivity.
  - intros o Ho. simpl in Ho. destruct Ho.
  - exists st'. split; [exact Hrun |]. split; [exact Herr | exact Hev].
Defined.

(** What the code does with an answer of the runner that says the hooks
    failed but has no ["error"]: the lookup raises [KeyError], which the
    [except] clause of [execute_task] reports like a failure of the task. *)
Lemma execute_task_hook_answer_without_error (py_str : Py.value → string)
    (st : Orch) (t : addr) (run : runner) (res : list (string * Py.value)) :
  quiet st →
  hooks_runner st = Some run →
  role (objs st t) = "tech_lead" →
  run (hook_calls st) (VStr (action (objs st t))) = Returned res →
  dict_get "success" res = Some (VBool false) →
  dict_get "error" res = None →
  ∃ st', execute_task py_str t st = (Returned t, st')
    ∧ status (objs st' t) = FAILED
    ∧ error (objs st' t) = Some "'error'"
    ∧ result (objs st' t) = result (objs st t)
    ∧ emitted st' = emitted st ++ [started t; failed t "'error'"].
Proof.
  intros Hq Hrun Hrole Hans Hsucc Herr.
  destruct (execute_task_stopped_by_hooks py_str st t run Hq Hrun Hrole)
    as (r & st' & Hexec & Hcase).
  rewrite Hans in Hcase. unfold hook_verdict, dict_item in Hcase.
  rewrite Hsucc, Herr in Hcase. simpl in Hcase.
  destruct Hcase as (-> & Hobj & Hev & Hcalls).
  exists st'. rewrite Hobj. auto 10.
Qed.

Lemma notify_state (hs : list observer) (ev : OEvent) (st : Orch) :
  snd (notify hs ev st) = st.
Proof.
  induction hs as [| o hs IH]; [reflexivity |].
  cbn [notify]. unfold bind. destruct (o (objs st) ev); [exact IH | reflexivity].
Qed.

(** An event that an observer does not take: the exception leaves
    [_emit_event], after the event was built. *)
Lemma emit_rejected (ty : string) (args : list addr)
    (kw : list (string * Py.value)) (st : Orch) (e : exn) :
  let ev := {| ev_type := ty; ev_args := args; ev_kwargs := kw |} in
  fst (notify (event_handlers st) ev (with_emitted (emitted st ++ [ev]) st))
  = Raised e →
  _emit_event ty args kw st
  = (Raised e, with_emitted (emitted st ++ [ev]) st).
Proof.
  intros ev Hraise. unfold _emit_event, bind, modify, read. fold ev.
  cbn [event_handlers with_emitted].
  pose proof (notify_state (event_handlers st) ev
                (with_emitted (emitted st ++ [ev]) st)) as Hst.
  destruct (notify (event_handlers st) ev
              (with_emitted (emitted st ++ [ev]) st)) as [r st1].
  simpl in Hraise, Hst. by subst.
Qed.

Lemma pre_task_hooks_plain (py_str : Py.value → string) (t : addr)
    (st : Orch) :
  hooks_runner st = None ∨ role (objs st t) ≠ "tech_lead" →
  pre_task_hooks py_str t st = (Returned Suspended, st).
Proof.
  intros Hplain. unfold pre_task_hooks, bind, read.
  destruct Hplain as [-> | Hrole]; [reflexivity |].
  destruct (hooks_runner st); [| reflexivity].
  destruct (String.eqb_spec (role (objs st t)) "tech_lead"); [done |].
  reflexivity.
Qed.

(** X6.  The [task.completed] event is emitted inside the [try] of
    [execute_task].  When the role handler of a task has returned and an
    observer raises on that event, the handler's result is stored and the
    task is [COMPLETED] at that moment.  If the exception derives from
    [Exception], the [except] clause takes the task to [FAILED] with the
    observer's message as its error; [execute_task] returns the task and
    the events are [task.started], [task.completed], [task.failed].  If it
    does not, [execute_task] raises it, the task stays [COMPLETED] without
    error, and the events are [task.started], [task.completed]. *)
Theorem observer_failure_turns_completed_task_into_failed :
  ∀ (py_str : Py.value → string) (st : Orch) (t : addr) (e : exn),
    hooks_runner st = None ∨ role (objs st t) ≠ "tech_lead" →
    In (role (objs st t)) known_roles →
    (∀ o, In o (event_handlers st) →
       ∀ hp msg, o hp (started t) = Returned tt
                 ∧ o hp (failed t msg) = Returned tt) →
    (∀ st0, event_handlers st0 = event_handlers st →
       fst (notify (event_handlers st0) (completed t) st0) = Raised e) →
    ∃ r st',
      execute_task py_str t st = (r, st')
      ∧ (∃ d, result (objs st' t) = VDict d ∧ d ≠ [])
      ∧ if is_Exception e
        then r = Returned t
             ∧ status (objs st' t) = FAILED
             ∧ error (objs st' t) = Some (exn_str e)
             ∧ emitted st' = emitted st
                 ++ [started t; completed t; failed t (exn_str e)]
        else r = Raised e
             ∧ status (objs st' t) = COMPLETED
             ∧ error (objs st' t) = error (objs st t)
             ∧ emitted st' = emitted st ++ [started t; completed t].
Proof.
  intros py_str st t e Hplain Hknown Haccept Hreject.
  unfold execute_task, execute_task_begin, bind, update_task, modify. simpl.
  rewrite emit_accepted by (intros o Ho; exact (proj1 (Haccept o Ho _ ""))).
  change (with_emitted _ _) with (running t st). unfold try_except.
  assert (objs (running t st) t = set_status RUNNING (objs st t)) as Hobj0
    by (simpl; by rewrite store_same).
  rewrite (pre_task_hooks_plain py_str t (running t st))
    by (by rewrite Hobj0).
  destruct (execute_by_role_plain t (running t st)) as (r & Hrole & Hr).
  { by rewrite Hobj0. }
  rewrite Hobj0 in Hr. cbn [role set_status] in Hr.
  destruct r as [v |]; [| by destruct Hr].
  destruct Hr as [_ (d & -> & Hd)].
  unfold execute_task_resume, run_role_handler, try_except, bind.
  rewrite Hrole. unfold update_task, modify. simpl.
  match goal with
  | |- context [_emit_event "task.completed" [t] [] ?s] =>
      rewrite (emit_rejected "task.completed" [t] [] s e)
        by exact (Hreject (with_emitted (emitted s ++ [completed t]) s)
                    eq_refl)
  end.
  destruct (is_Exception e).
  - unfold on_failure, update_task, modify, bind. simpl.
    rewrite emit_accepted by (intros o Ho; exact (proj2 (Haccept o Ho _ _))).
    eexists _, _. split; [reflexivity |]. simpl. rewrite !store_same. simpl.
    split; [by exists d |].
    split; [reflexivity |]. split; [reflexivity |]. split; [reflexivity |].
    by rewrite <- !app_assoc.
  - eexists _, _. split; [reflexivity |]. simpl. rewrite !store_same. simpl.
    split; [by exists d |].
    split; [reflexivity |]. split; [reflexivity |]. split; [reflexivity |].
    by rewrite <- !app_assoc.
Qed.

(** An observer that raises on [task.completed] events only. *)
Definition completion_observer : observer :=
  λ _ ev, if String.eqb (ev_type ev) "task.completed"
          then Raised (ValueError "dashboard offline")
          else Returned tt.

Lemma observer_failure_turns_completed_task_into_failed_witness :
  ∃ st', execute_task (λ _, "") 1 (on_event completion_observer (init release))
         = (Returned 1, st')
    ∧ status (objs st' 1) = FAILED
    ∧ error (objs st' 1) = Some "dashboard offline".
Proof.
  destruct (observer_failure_turns_completed_task_into_failed (λ _, "")
              (on_event completion_observer (init release)) 1
              (ValueError "dashboard offline"))
    as (r & st' & Hrun & _ & Hcase).
  - left. reflexivity.
  - simpl. tauto.
  - intros o [<- | []] hp msg. split; reflexivity.
  - intros st0 Hh. rewrite Hh. reflexivity.
  - simpl in Hcase. destruct Hcase as (-> & Hs & He & _).
    exists st'. split; [exact Hrun |]. split; [exact Hs | exact He].
Defined.

(** ** The synthesis of the results *)

Module SynthesisFacts.
Import Orchestrator SchedulerFacts ExecutorFacts ContextFacts.

(** The dictionary appended to a ["by_role"] list for a task. *)
Definition item_of (task : Task) : role_item :=
  {| ri_action := action task;
     ri_status := TaskStatus_value (status task);
     ri_result := result task |}.

(** The tasks of a role, in the order of the list. *)
Definition with_role (h : heap) (r : string) (ts : list addr) : list addr :=
  List.filter (λ t, String.eqb (role (h t)) r) ts.

Definition with_status (h : heap) (s : TaskStatus) (ts : list addr)
  : list addr :=
  List.filter (λ t, bool_decide (status (h t) = s)) ts.

Lemma count_status_tasks (s : TaskStatus) (ts : list addr) (st : Orch) :
  count_status s (map Returned ts) st
  = (Returned (length (with_status (objs st) s ts)), st).
Proof.
  induction ts as [| t ts IH]; [reflexivity |].
  cbn [map count_status]. unfold bind, lift, read, attribute.
  unfold bind in IH. rewrite IH. unfold with_status. cbn [List.filter].
  unfold decide, decide_rel, bool_decide.
  by destruct (TaskStatus_eq_decision (status (objs st t)) s).
Qed.

Lemma count_status_exception (s : TaskStatus) (ts : list addr) (e : exn)
    (rest : list (outcome addr)) (st : Orch) :
  count_status s (map Returned ts ++ Raised e :: rest) st
  = (Raised (AttributeError
               ("'" ++ exn_class e ++ "' object has no attribute 'status'")),
     st).
Proof.
  induction ts as [| t ts IH]; [reflexivity |].
  cbn [map app count_status]. unfold bind, lift, read, attribute.
  unfold bind in IH. by rewrite IH.
Qed.

Lemma length_groups_set {V : Type} (k : string) (x : V)
    (d : list (string * list V)) :
  length (concat (map snd (dict_set k (default [] (dict_get k d) ++ [x]) d)))
  = S (length (concat (map snd d))).
Proof.
  induction d as [| [k' l] d IH]; [reflexivity |].
  cbn [dict_set dict_get]. destruct (String.eqb k k'); cbn [map concat snd].
  - rewrite !length_app. simpl. lia.
  - rewrite !length_app, IH. lia.
Qed.

(** The groups after the loop: a role has the items it had, then an item
    for each of its tasks in the order of the results. *)
Lemma group_by_role_tasks (ts : list addr) (st : Orch) :
  ∀ acc, ∃ out,
    group_by_role (map Returned ts) acc st = (Returned out, st)
    ∧ (NoDup (map fst acc) → NoDup (map fst out))
    ∧ length (concat (map snd out))
      = length (concat (map snd acc)) + length ts
    ∧ ∀ r,
        (dict_get r out = None
         ↔ dict_get r acc = None ∧ with_role (objs st) r ts = [])
        ∧ default [] (dict_get r out)
          = default [] (dict_get r acc)
            ++ map (λ t, item_of (objs st t)) (with_role (objs st) r ts).
Proof.
  induction ts as [| t ts IH]; intros acc.
  - exists acc. split; [reflexivity |]. split; [done |].
    split; [simpl; lia |]. intros r. split; [tauto |].
    simpl. by rewrite app_nil_r.
  - cbn [map group_by_role]. unfold bind, lift, read, attribute.
    fold (item_of (objs st t)).
    set (acc' := dict_set (role (objs st t)) _ acc).
    destruct (IH acc') as (out & Hrun & Hnd & Hlen & Hout).
    unfold bind in Hrun. exists out. split; [exact Hrun |].
    split; [intros Hacc; by apply Hnd, NoDup_dict_set |].
    split.
    { rewrite Hlen. unfold acc'. rewrite length_groups_set. simpl. lia. }
    intros r. destruct (Hout r) as [Hnone Hitems].
    unfold with_role in *. cbn [List.filter].
    destruct (String.eqb_spec (role (objs st t)) r) as [<- | Hne].
    + unfold acc' in Hnone, Hitems. rewrite dict_get_set_eq in Hnone, Hitems.
      split.
      * rewrite Hnone. split; [by intros [? _] | by intros [_ ?]].
      * rewrite Hitems. simpl. by rewrite <- app_assoc.
    + unfold acc' in Hnone, Hitems.
      rewrite dict_get_set_ne in Hnone, Hitems by exact Hne.
      split; [exact Hnone | exact Hitems].
Qed.

Lemma terminal_counts (h : heap) (ts : list addr) :
  (∀ t, In t ts → terminal (status (h t))) →
  length (with_status h COMPLETED ts) + length (with_status h FAILED ts)
  = length ts.
Proof.
  induction ts as [| t ts IH]; intros Hterm; [reflexivity |].
  unfold with_status in *. cbn [List.filter].
  assert (terminal (status (h t))) as [-> | ->] by (apply Hterm; by left);
    simpl; rewrite <- IH; try lia;
    intros u Hu; apply Hterm; by right.
Qed.

Lemma status_counts (h : heap) (ts : list addr) :
  length (with_status h COMPLETED ts) + length (with_status h FAILED ts)
  ≤ length ts.
Proof.
  induction ts as [| t ts IH]; [reflexivity |].
  unfold with_status in *. cbn [List.filter].
  destruct (status (h t)); simpl; lia.
Qed.

End SynthesisFacts.

Import Orchestrator SchedulerFacts ExecutorFacts SynthesisFacts.

(** X7.  On a list of tasks [synthesize_results] returns, changes nothing,
    and reports the length of the list as [total_tasks] and the numbers of
    [COMPLETED] and of [FAILED] tasks, which together do not exceed it.
    Under ["by_role"] a role is a key exactly when a task of the list has
    it, no key occurs twice, the list of a role has one item for each of
    its tasks, in the order of the results, with the action, the status
    value and the result of the task, and the lists together have as many
    items as there are tasks. *)
Theorem synthesis_counts_and_groups_every_task :
  ∀ (st : Orch) (ts : list addr),
    ∃ syn,
      synthesize_results (map Returned ts) st = (Returned syn, st)
      ∧ m_total_tasks (syn_metrics syn) = length ts
      ∧ m_completed (syn_metrics syn)
        = length (with_status (objs st) COMPLETED ts)
      ∧ m_failed (syn_metrics syn)
        = length (with_status (objs st) FAILED ts)
      ∧ m_completed (syn_metrics syn) + m_failed (syn_metrics syn) ≤ length ts
      ∧ NoDup (map fst (syn_by_role syn))
      ∧ length (concat (map snd (syn_by_role syn))) = length ts
      ∧ ∀ r, dict_get r (syn_by_role syn)
             = match with_role (objs st) r ts with
               | [] => None
               | t :: group =>
                   Some (map (λ t, item_of (objs st t)) (t :: group))
               end.
Proof.
  intros st ts. unfold synthesize_results, bind.
  rewrite !count_status_tasks.
  destruct (group_by_role_tasks ts st []) as (out & -> & Hnd & Hlen & Hout).
  eexists. split; [reflexivity |]. simpl.
  split; [by rewrite length_map |]. split; [reflexivity |].
  split; [reflexivity |]. split; [apply status_counts |].
  split; [apply Hnd; constructor |]. split; [exact Hlen |].
  intros r. destruct (Hout r) as [Hnone Hitems]. simpl in Hnone, Hitems.
  destruct (with_role (objs st) r ts) as [| t group] eqn:Hgroup.
  - by apply Hnone.
  - destruct (dict_get r out) as [items |].
    + simpl in Hitems. by rewrite Hitems.
    + by destruct (proj1 Hnone eq_refl).
Qed.

(** X8.  A list of results that holds an exception object, as
    [execute_wave] returns when a coroutine of a wave raised, makes
    [synthesize_results] raise [AttributeError]: the first count already
    asks the object for its [status]. *)
Theorem synthesis_raises_on_an_exception_object :
  ∀ (st : Orch) (results : list (outcome addr)) (e : exn),
    In (Raised e) results →
    ∃ e0, In (Raised e0) results
      ∧ synthesize_results results st
        = (Raised (AttributeError
                     ("'" ++ exn_class e0
                      ++ "' object has no attribute 'status'")), st).
Proof.
  intros st results e Hin.
  assert (∃ ts e0 rest, results = map Returned ts ++ Raised e0 :: rest)
    as (ts & e0 & rest & ->).
  { clear st. induction results as [| r results IH]; [destruct Hin |].
    destruct r as [t | e1].
    - destruct Hin as [Heq | Hin]; [discriminate |].
      destruct (IH Hin) as (ts & e0 & rest & ->).
      by exists (t :: ts), e0, rest.
    - by exists [], e1, results. }
  exists e0. split; [apply in_app_iff; right; by left |].
  unfold synthesize_results, bind. by rewrite count_status_exception.
Qed.

Lemma synthesis_raises_on_an_exception_object_witness :
  ∃ e0,
    synthesize_results [Returned 0; Raised (ValueError "observer failed")]
      (init release)
    = (Raised (AttributeError
                 ("'" ++ exn_class e0 ++ "' object has no attribute 'status'")),
       init release).
Proof.
  destruct (synthesis_raises_on_an_exception_object (init release)
              [Returned 0; Raised (ValueError "observer failed")]
              (ValueError "observer failed")) as (e0 & _ & Hsyn).
  - right. left. reflexivity.
  - exists e0. exact Hsyn.
Defined.

(** X9.  For every well-formed batch, when no observer raises and the hooks
    runner, if there is one, raises only exceptions that derive from
    [Exception], the results of [execute_wave] can be handed to
    [synthesize_results]: it returns, [total_tasks] is the size of the
    batch, and every task of the batch is counted as completed or as
    failed. *)
Theorem synthesis_of_a_run_accounts_for_the_batch :
  ∀ (py_str : Py.value → string) (st : Orch) (batch : list addr),
    unique_ids (objs st) batch → resolved (objs st) batch →
    acyclic (objs st) batch → quiet st → ordinary st →
    ∃ results st' syn,
      execute_wave py_str batch st = (Returned results, st')
      ∧ synthesize_results results st' = (Returned syn, st')
      ∧ m_total_tasks (syn_metrics syn) = length batch
      ∧ m_completed (syn_metrics syn) + m_failed (syn_metrics syn)
        = length batch.
Proof.
  intros py_str st batch Huniq Hres Hacyc Hq Ho.
  destruct (calculate_waves_complete (objs st) batch Hres Hacyc)
    as [waves Hrun].
  destruct (calculate_waves_sound (objs st) batch waves Hrun)
    as (Hperm & _ & _).
  assert (NoDup (concat waves)) as Hnd.
  { rewrite Hperm. by apply (unique_ids_NoDup (objs st)). }
  destruct (run_waves_spec py_str waves Hnd 0 [] st Hq Ho)
    as (st' & Hr & _ & _ & Hdone & _).
  exists (map Returned (concat waves)), st'.
  unfold synthesize_results, bind. rewrite !count_status_tasks.
  destruct (group_by_role_tasks (concat waves) st' []) as (out & -> & _).
  eexists. split; [unfold execute_wave, bind; by rewrite Hrun |].
  split; [reflexivity |]. simpl.
  rewrite length_map, terminal_counts by (intros t Ht; by apply Hdone).
  by rewrite (Permutation_length Hperm).
Qed.

Lemma synthesis_of_a_run_accounts_for_the_batch_witness :
  ∃ results st' syn,
    execute_wave (λ _, "") [0; 1; 2; 3; 4] (init release)
    = (Returned results, st')
    ∧ synthesize_results results st' = (Returned syn, st')
    ∧ m_total_tasks (syn_metrics syn) = 5.
Proof.
  assert (unique_ids release [0; 1; 2; 3; 4]) as Huniq
    by (apply (bool_decide_unpack _); vm_compute; exact I).
  assert (resolved release [0; 1; 2; 3; 4]) as Hres
    by (apply resolved_of_resolvedb; vm_compute; reflexivity).
  assert (acyclic release [0; 1; 2; 3; 4]) as Hacyc
    by (apply (acyclic_of_rank release
                 (λ a, match a with 0 => 0 | 1 | 2 => 1 | _ => 2 end));
        vm_compute; reflexivity).
  assert (quiet (init release)) as Hq by (intros o []).
  assert (ordinary (init release)) as Ho
    by (intros e (run & n & arg & Hrun & _); discriminate Hrun).
  destruct (synthesis_of_a_run_accounts_for_the_batch (λ _, "")
              (init release) [0; 1; 2; 3; 4] Huniq Hres Hacyc Hq Ho)
    as (results & st' & syn & Hrun & Hsyn & Htotal & _).
  exists results, st', syn. auto.
Defined.

(** ** The order of the events of a run *)

Module WaveTraces.
Import Orchestrator SchedulerFacts ExecutorFacts ExecutorTraces.

(** An event about a task of a wave: its one positional argument is that
    task. *)
Definition about (wave : list addr) (ev : OEvent) : Prop :=
  ∃ t, In t wave ∧ ev_args ev = [t].

(** The events of a wave: [wave.started], the events of its tasks,
    [wave.completed]. *)
Definition wave_block (i : nat) (wave : list addr) (evs : list OEvent)
  : list OEvent :=
  wave_started i wave :: evs ++ [wave_completed i].

Lemma about_weaken (w w' : list addr) (evs : list OEvent) :
  (∀ t, In t w → In t w') → Forall (about w) evs → Forall (about w') evs.
Proof.
  intros Hsub Ha. eapply List.Forall_impl; [| exact Ha].
  intros ev (t & Ht & Hev). exists t. auto.
Qed.

Lemma about_self (t : addr) (ty : string) (kw : list (string * Py.value)) :
  about [t] {| ev_type := ty; ev_args := [t]; ev_kwargs := kw |}.
Proof. exists t. split; [by left | reflexivity]. Qed.

Section Traces.
Variable py_str : Py.value → string.

Lemma begin_trace (t : addr) (st : Orch) :
  quiet st → ordinary st →
  ∃ p st' evs,
    execute_task_begin py_str t st = (Returned p, st')
    ∧ event_handlers st' = event_handlers st
    ∧ hooks_runner st' = hooks_runner st
    ∧ emitted st' = emitted st ++ started t :: evs
    ∧ Forall (about [t]) evs.
Proof.
  intros Hq Ho. rewrite begin_unfold by exact Hq. unfold try_except.
  pose proof (pre_task_hooks_raises py_str t (running t st)) as Hexn.
  destruct (pre_task_hooks_cases py_str t (running t st))
    as (r & st1 & Hpre & (Hh1 & Hr1 & He1 & _) & _).
  rewrite Hpre.
  destruct r as [p | e].
  - exists p, st1, []. split; [reflexivity |]. split; [exact Hh1 |].
    split; [exact Hr1 |]. split; [by rewrite He1 | constructor].
  - rewrite (raised_is_Exception (running t st) e Ho (Hexn _ _ Hpre)).
    unfold bind.
    destruct (on_failure_spec t e st1)
      as (st2 & -> & [Hh2 Hr2 _] & _ & _ & _ & He2);
      [by apply (quiet_same st) |].
    exists (Finished t), st2, [failed t (exn_str e)].
    split; [reflexivity |]. split; [by rewrite Hh2, Hh1 |].
    split; [by rewrite Hr2, Hr1 |].
    split; [rewrite He2, He1; simpl; by rewrite <- app_assoc |].
    constructor; [apply about_self | constructor].
Qed.

Lemma resume_trace (t : addr) (st : Orch) :
  quiet st → ordinary st →
  ∃ st' ev,
    execute_task_resume t st = (Returned t, st')
    ∧ event_handlers st' = event_handlers st
    ∧ hooks_runner st' = hooks_runner st
    ∧ emitted st' = emitted st ++ [ev]
    ∧ about [t] ev.
Proof.
  intros Hq Ho.
  destruct (resume_cases t st Hq Ho)
    as (st' & Hrun & Hh & Hr & _
        & [(res & ? & _ & _ & He) | (e & ? & _ & _ & He)]).
  - exists st', (completed t). split; [exact Hrun |]. split; [exact Hh |].
    split; [exact Hr |]. split; [exact He | apply about_self].
  - exists st', (failed t (exn_str e)). split; [exact Hrun |].
    split; [exact Hh |]. split; [exact Hr |].
    split; [exact He | apply about_self].
Qed.

Lemma gather_start_trace (wave : list addr) :
  ∀ st, quiet st → ordinary st →
  ∃ slots st' evs,
    gather_start py_str wave st = (Returned slots, st')
    ∧ event_handlers st' = event_handlers st
    ∧ hooks_runner st' = hooks_runner st
    ∧ map fst slots = wave
    ∧ emitted st' = emitted st ++ evs
    ∧ Forall (about wave) evs
    ∧ ∀ t, In t wave → In (started t) evs.
Proof.
  induction wave as [| t wave IH]; intros st Hq Ho.
  - exists [], st, []. split; [reflexivity |]. split; [reflexivity |].
    split; [reflexivity |].
    split; [reflexivity |]. split; [by rewrite app_nil_r |].
    split; [constructor | intros t []].
  - destruct (begin_trace t st Hq Ho)
      as (p & st1 & evs1 & Hb & Hh1 & Hr1 & He1 & Ha1).
    destruct (IH st1)
      as (slots & st2 & evs2 & Hs & Hh2 & Hr2 & Hm & He2 & Ha2 & Hs2);
      [by apply (quiet_same st) | by apply (ordinary_same st) |].
    cbn [gather_start]. unfold bind, capture. rewrite Hb, Hs.
    eexists _, st2, (started t :: evs1 ++ evs2).
    split; [reflexivity |]. split; [by rewrite Hh2, Hh1 |].
    split; [by rewrite Hr2, Hr1 |].
    split; [simpl; by rewrite Hm |].
    split; [rewrite He2, He1; by rewrite <- app_assoc |].
    split.
    + constructor; [exists t; split; [by left | reflexivity] |].
      apply Forall_app. split.
      * eapply about_weaken; [| exact Ha1].
        intros u [<- | []]. by left.
      * eapply about_weaken; [| exact Ha2]. intros u Hu. by right.
    + intros u [<- | Hu]; [by left |].
      right. apply in_app_iff. right. by apply Hs2.
Qed.

Lemma gather_finish_trace (slots : list (addr * option (outcome addr))) :
  ∀ st, quiet st → ordinary st →
  ∃ rs st' evs,
    gather_finish slots st = (Returned rs, st')
    ∧ event_handlers st' = event_handlers st
    ∧ hooks_runner st' = hooks_runner st
    ∧ emitted st' = emitted st ++ evs
    ∧ Forall (about (map fst slots)) evs.
Proof.
  induction slots as [| [t [r |]] slots IH]; intros st Hq Ho.
  - exists [], st, []. split; [reflexivity |]. split; [reflexivity |].
    split; [reflexivity |].
    split; [by rewrite app_nil_r | constructor].
  - destruct (IH st Hq Ho) as (rs & st1 & evs & Hf & Hh & Hr & He & Ha).
    cbn [gather_finish]. unfold bind. rewrite Hf.
    exists (r :: rs), st1, evs. split; [reflexivity |].
    split; [exact Hh |]. split; [exact Hr |]. split; [exact He |].
    eapply about_weaken; [| exact Ha]. intros u Hu. by right.
  - destruct (resume_trace t st Hq Ho)
      as (st1 & ev & Hr & Hh1 & Hr1 & He1 & Ha1).
    destruct (IH st1) as (rs & st2 & evs & Hf & Hh2 & Hr2 & He2 & Ha2);
      [by apply (quiet_same st) | by apply (ordinary_same st) |].
    cbn [gather_finish]. unfold bind, capture. rewrite Hr, Hf.
    exists (Returned t :: rs), st2, (ev :: evs). split; [reflexivity |].
    split; [by rewrite Hh2, Hh1 |]. split; [by rewrite Hr2, Hr1 |].
    split; [rewrite He2, He1; by rewrite <- app_assoc |].
    constructor.
    + destruct Ha1 as (u & [<- | []] & Hu). exists t.
      split; [by left | exact Hu].
    + eapply about_weaken; [| exact Ha2]. intros u Hu. by right.
Qed.

Lemma gather_trace (wave : list addr) (st : Orch) :
  quiet st → ordinary st →
  ∃ rs st' evs,
    gather py_str wave st = (Returned rs, st')
    ∧ event_handlers st' = event_handlers st
    ∧ hooks_runner st' = hooks_runner st
    ∧ emitted st' = emitted st ++ evs
    ∧ Forall (about wave) evs
    ∧ ∀ t, In t wave → In (started t) evs.
Proof.
  intros Hq Ho.
  destruct (gather_start_trace wave st Hq Ho)
    as (slots & st1 & evs1 & Hs & Hh1 & Hr1 & Hm & He1 & Ha1 & Hs1).
  destruct (gather_finish_trace slots st1)
    as (rs & st2 & evs2 & Hf & Hh2 & Hr2 & He2 & Ha2);
    [by apply (quiet_same st) | by apply (ordinary_same st) |].
  unfold gather, bind. rewrite Hs, Hf.
  exists rs, st2, (evs1 ++ evs2). split; [reflexivity |].
  split; [by rewrite Hh2, Hh1 |]. split; [by rewrite Hr2, Hr1 |].
  split; [rewrite He2, He1; by rewrite <- app_assoc |].
  split.
  - apply Forall_app. split; [exact Ha1 | by rewrite <- Hm].
  - intros t Ht. apply in_app_iff. left. by apply Hs1.
Qed.

Lemma run_waves_trace (waves : list (list addr)) :
  ∀ i acc st, quiet st → ordinary st →
  ∃ rs st' blocks,
    run_waves py_str i waves acc st = (Returned rs, st')
    ∧ emitted st' = emitted st ++ concat blocks
    ∧ length blocks = length waves
    ∧ ∀ k w, waves !! k = Some w →
        ∃ evs, blocks !! k = Some (wave_block (i + k) w evs)
          ∧ Forall (about w) evs
          ∧ ∀ t, In t w → In (started t) evs.
Proof.
  induction waves as [| wave waves IH]; intros i acc st Hq Ho.
  - exists acc, st, []. split; [reflexivity |].
    split; [by rewrite app_nil_r |]. split; [reflexivity |].
    intros k w Hk. by destruct k.
  - cbn [run_waves]. unfold bind. rewrite emit_quiet by exact Hq.
    set (st0 := with_emitted _ st).
    destruct (gather_trace wave st0)
      as (rs & st1 & evs & -> & Hh1 & Hr1 & He1 & Ha1 & Hs1);
      [by apply (quiet_same st) | by apply (ordinary_same st) |].
    assert (quiet st1) as Hq1 by (by apply (quiet_same st)).
    assert (ordinary st1) as Ho1 by (by apply (ordinary_same st)).
    rewrite emit_quiet by exact Hq1.
    set (st2 := with_emitted _ st1).
    destruct (IH (S i) (acc ++ rs) st2)
      as (rs' & st3 & blocks & -> & He3 & Hlen & Hblocks);
      [by apply (quiet_same st) | by apply (ordinary_same st) |].
    exists rs', st3, (wave_block i wave evs :: blocks).
    split; [reflexivity |].
    split.
    { rewrite He3. unfold st2. simpl. rewrite He1. unfold st0. simpl.
      unfold wave_block, wave_started, wave_completed. simpl.
      by rewrite <- !app_assoc. }
    split; [simpl; by rewrite Hlen |].
    intros [| k] w Hk.
    + simpl in Hk. injection Hk as <-. exists evs.
      rewrite Nat.add_0_r. auto.
    + destruct (Hblocks k w Hk) as (evs' & Hb & Ha & Hs).
      exists evs'. replace (i + S k) with (S i + k) by lia. auto.
Qed.

End Traces.

End WaveTraces.

Import Orchestrator SchedulerFacts ExecutorFacts ExecutorTraces WaveTraces.

(** X10.  When no observer raises, the hooks runner, if there is one,
    raises only exceptions that derive from [Exception], and the scheduler
    accepts the batch, the
    events of [execute_wave] come wave by wave, in the order of the waves:
    for each wave its [wave.started] event with the number of the wave and
    of its tasks, then events about tasks of that wave only, among them a
    [task.started] event for each of its tasks, then its [wave.completed]
    event.  No task of a wave is started, completed or failed before the
    wave before it was completed. *)
Theorem waves_run_one_after_another :
  ∀ (py_str : Py.value → string) (st : Orch) (batch : list addr)
    (waves : list (list addr)),
    quiet st → ordinary st →
    calculate_waves (objs st) batch = Returned waves →
    ∃ results st' blocks,
      execute_wave py_str batch st = (Returned results, st')
      ∧ emitted st' = emitted st ++ concat blocks
      ∧ length blocks = length waves
      ∧ ∀ k w, waves !! k = Some w →
          ∃ evs, blocks !! k = Some (wave_block k w evs)
            ∧ Forall (about w) evs
            ∧ ∀ t, In t w → In (started t) evs.
Proof.
  intros py_str st batch waves Hq Ho Hwaves.
  destruct (run_waves_trace py_str waves 0 [] st Hq Ho)
    as (rs & st' & blocks & Hrun & Hev & Hlen & Hblocks).
  exists rs, st', blocks.
  split; [unfold execute_wave, bind; by rewrite Hwaves |].
  split; [exact Hev |]. split; [exact Hlen | exact Hblocks].
Qed.

Lemma waves_run_one_after_another_witness :
  ∃ results st' blocks,
    execute_wave (λ _, "") [0; 1; 2; 3; 4] (init release)
    = (Returned results, st')
    ∧ emitted st' = concat blocks
    ∧ length blocks = 3.
Proof.
  assert (quiet (init release)) as Hq by (intros o []).
  assert (ordinary (init release)) as Ho
    by (intros e (run & n & arg & Hrun & _); discriminate Hrun).
  assert (calculate_waves (objs (init release)) [0; 1; 2; 3; 4]
          = Returned [[0]; [1; 2]; [3; 4]]) as Hwaves
    by (vm_compute; reflexivity).
  destruct (waves_run_one_after_another (λ _, "") (init release)
              [0; 1; 2; 3; 4] _ Hq Ho Hwaves)
    as (results & st' & blocks & Hrun & Hev & Hlen & _).
  exists results, st', blocks. auto.
Defined.

(** ** The registry, and what a plan depends on *)

Module PlanFacts.
Import Orchestrator SchedulerFacts.

(** Two heaps that give the tasks of a batch the same ids and the same
    dependencies. *)
Definition same_plan_inputs (h h' : heap) (batch : list addr) : Prop :=
  ∀ t, In t batch →
    id (h t) = id (h' t) ∧ dependencies (h t) = dependencies (h' t).

Lemma ready_same_inputs (h h' : heap) (batch : list addr) (c : gset string)
    (l : list addr) :
  same_plan_inputs h h' batch →
  (∀ t, In t l → In t batch) →
  List.filter (ready h c) l = List.filter (ready h' c) l
  ∧ List.filter (λ t, negb (ready h c t)) l
    = List.filter (λ t, negb (ready h' c t)) l.
Proof.
  intros Hsame Hsub.
  split; apply filter_ext_in; intros t Ht; unfold ready;
    by rewrite (proj2 (Hsame t (Hsub t Ht))).
Qed.

Lemma waves_loop_same_inputs (h h' : heap) (batch : list addr) (n : nat) :
  same_plan_inputs h h' batch →
  ∀ (waves : list (list addr)) (c : gset string) (rem : list addr),
    length rem ≤ n →
    (∀ t, In t rem → In t batch) →
    waves_loop h waves c rem = waves_loop h' waves c rem.
Proof.
  intros Hsame.
  induction n as [| n IH]; intros waves c rem Hlen Hsub.
  - destruct rem; [| simpl in Hlen; lia]. by rewrite !waves_loop_unfold.
  - destruct rem as [| t ts]; [by rewrite !waves_loop_unfold |].
    rewrite !waves_loop_step.
    destruct (ready_same_inputs h h' batch c (t :: ts) Hsame Hsub)
      as [<- <-].
    destruct (List.filter (ready h c) (t :: ts)) as [| w wave] eqn:Hwave;
      [reflexivity |].
    assert (map (λ a, id (h a)) (w :: wave) = map (λ a, id (h' a)) (w :: wave))
      as <-.
    { apply map_ext_in. intros a Ha. apply Hsame, Hsub.
      rewrite <- Hwave in Ha. by apply List.filter_In in Ha as [? _]. }
    apply IH.
    + assert (length (List.filter (λ t', negb (ready h c t')) (t :: ts))
              < length (t :: ts)) as Hlt
        by (apply remaining_shrinks; by rewrite Hwave).
      lia.
    + intros u Hu. apply Hsub. by apply List.filter_In in Hu as [? _].
Qed.

End PlanFacts.

Import Orchestrator SchedulerFacts ExecutorFacts ExecutorTraces PlanFacts.

(** X11.  The waves depend on the ids and the dependencies of the tasks of
    the batch and on nothing else: two states of the task objects that
    agree on those give the same waves, or both the error.  The status of a
    task is not looked at, so neither a task that is already completed nor
    a dependency that has failed changes the plan. *)
Theorem waves_depend_on_ids_and_dependencies_only :
  ∀ (h h' : heap) (batch : list addr),
    same_plan_inputs h h' batch →
    calculate_waves h batch = calculate_waves h' batch.
Proof.
  intros h h' batch Hsame. unfold calculate_waves.
  by apply (waves_loop_same_inputs h h' batch (length batch)).
Qed.

Lemma waves_depend_on_ids_and_dependencies_only_witness :
  calculate_waves (store 1 (set_status FAILED (release 1)) release)
    [0; 1; 2; 3; 4]
  = Returned [[0]; [1; 2]; [3; 4]].
Proof.
  rewrite <- (waves_depend_on_ids_and_dependencies_only release
                (store 1 (set_status FAILED (release 1)) release)
                [0; 1; 2; 3; 4]).
  - vm_compute. reflexivity.
  - intros t Ht. simpl in Ht.
    destruct Ht as [<- | [<- | [<- | [<- | [<- | []]]]]];
      split; reflexivity.
Defined.

(** X12.  For every well-formed batch, when no observer raises and the
    hooks runner, if there is one, raises only exceptions that derive from
    [Exception], [execute_wave] writes to the tasks of the batch only:
    every other task object is as it was, and so are the registered
    observers and the hooks runner. *)
Theorem execute_wave_touches_only_the_batch :
  ∀ (py_str : Py.value → string) (st : Orch) (batch : list addr),
    unique_ids (objs st) batch → resolved (objs st) batch →
    acyclic (objs st) batch → quiet st → ordinary st →
    ∃ results st',
      execute_wave py_str batch st = (Returned results, st')
      ∧ (∀ u, ¬ In u batch → objs st' u = objs st u)
      ∧ event_handlers st' = event_handlers st
      ∧ hooks_runner st' = hooks_runner st.
Proof.
  intros py_str st batch Huniq Hres Hacyc Hq Ho.
  destruct (calculate_waves_complete (objs st) batch Hres Hacyc)
    as [waves Hrun].
  destruct (calculate_waves_sound (objs st) batch waves Hrun)
    as (Hperm & _ & _).
  assert (NoDup (concat waves)) as Hnd.
  { rewrite Hperm. by apply (unique_ids_NoDup (objs st)). }
  destruct (run_waves_spec py_str waves Hnd 0 [] st Hq Ho)
    as (st' & Hr & [Hh Hk _] & Hother & _).
  exists (map Returned (concat waves)), st'.
  split; [unfold execute_wave, bind; by rewrite Hrun |].
  split; [| split; [exact Hh | exact Hk]].
  intros u Hu. apply Hother. intros Hin. apply Hu.
  eapply Permutation_in; [exact Hperm | exact Hin].
Qed.

Lemma execute_wave_touches_only_the_batch_witness :
  ∃ results st',
    execute_wave (λ _, "") [0; 1; 2] (Orchestrator.init release)
    = (Returned results, st')
    ∧ objs st' 3 = release 3.
Proof.
  assert (unique_ids release [0; 1; 2]) as Huniq
    by (apply (bool_decide_unpack _); vm_compute; exact I).
  assert (resolved release [0; 1; 2]) as Hres
    by (apply resolved_of_resolvedb; vm_compute; reflexivity).
  assert (acyclic release [0; 1; 2]) as Hacyc
    by (apply (acyclic_of_rank release (λ a, a)); vm_compute; reflexivity).
  assert (quiet (Orchestrator.init release)) as Hq by (intros o []).
  assert (ordinary (Orchestrator.init release)) as Ho
    by (intros e (run & n & arg & Hrun & _); discriminate Hrun).
  destruct (execute_wave_touches_only_the_batch (λ _, "")
              (Orchestrator.init release) [0; 1; 2] Huniq Hres Hacyc Hq Ho)
    as (results & st' & Hrun & Hother & _).
  exists results, st'. split; [exact Hrun |].
  apply Hother. simpl. lia.
Defined.

(** The event of [add_task]. *)
Definition added (t : addr) : OEvent :=
  {| ev_type := "task.added"; ev_args := [t]; ev_kwargs := [] |}.

Lemma length_dict_set {V : Type} (k : string) (v : V)
    (d : list (string * V)) :
  length (dict_set k v d)
  = match dict_get k d with
    | Some _ => length d
    | None => S (length d)
    end.
Proof.
  induction d as [| [k0 v0] d IH]; [reflexivity |]. cbn [dict_set dict_get].
  destruct (String.eqb k k0); [reflexivity |].
  simpl. rewrite IH. by destruct (dict_get k d).
Qed.

(** X13.  [add_task] registers the task under its id, whatever the
    observers do with the [task.added] event: the registry then gives the
    task for that id, the other ids keep their tasks, and a task registered
    under the same id before is replaced, the registry having as many
    entries as it had.  The task objects are not written to, and the call
    returns when no observer raises. *)
Theorem add_task_registers_the_task_under_its_id :
  ∀ (st : Orch) (t : addr),
    ∃ r st',
      add_task t st = (r, st')
      ∧ dict_get (id (objs st t)) (tasks st') = Some t
      ∧ (∀ j, j ≠ id (objs st t) →
           dict_get j (tasks st') = dict_get j (tasks st))
      ∧ length (tasks st')
        = match dict_get (id (objs st t)) (tasks st) with
          | Some _ => length (tasks st)
          | None => S (length (tasks st))
          end
      ∧ emitted st' = emitted st ++ [added t]
      ∧ (∀ u, objs st' u = objs st u)
      ∧ (quiet st → r = Returned tt).
Proof.
  intros st t. unfold add_task, bind, read, modify. cbn beta iota.
  set (st1 := {| objs := objs st;
                 tasks := dict_set (id (objs st t)) t (tasks st);
                 event_handlers := event_handlers st;
                 hooks_runner := hooks_runner st;
                 emitted := emitted st; hook_calls := hook_calls st |}).
  pose proof (emit_recorded "task.added" [t] [] st1) as Hst.
  destruct (_emit_event "task.added" [t] [] st1) as [r st'] eqn:Hemit.
  simpl in Hst. subst st'.
  eexists r, _. split; [reflexivity |]. cbn [tasks with_emitted st1 emitted objs].
  split; [apply dict_get_set_eq |].
  split; [intros j Hj; apply dict_get_set_ne; congruence |].
  split; [apply length_dict_set |]. split; [reflexivity |].
  split; [reflexivity |].
  intros Hq. rewrite emit_quiet in Hemit by exact Hq. congruence.
Qed.

(** ** Subscriptions, the log and the metrics of the bus *)

Module BusFacts.
Import Events EventsFacts ListFacts.






(** *** [l[-limit:]] *)


Lemma slice_last_zero {A : Type} (l : list A) : slice_last 0 l = l.
Proof. reflexivity. Qed.

Lemma slice_last_length {A : Type} (limit : Z) (l : list A) :
  (0 < limit)%Z →
  length (slice_last limit l) = Nat.min (Z.to_nat limit) (length l).
Proof.
  intros Hpos. unfold slice_last.
  rewrite (proj2 (Z.ltb_lt 0 limit) Hpos), length_skipn. lia.
Qed.

Lemma slice_last_snoc {A : Type} (limit : Z) (l : list A) (x : A) :
  (0 < limit)%Z → ∃ front, slice_last limit (l ++ [x]) = front ++ [x].
Proof.
  intros Hpos. unfold slice_last.
  rewrite (proj2 (Z.ltb_lt 0 limit) Hpos), length_app. simpl.
  assert (length l + 1 - Z.to_nat limit ≤ length l) as Hle by lia.
  exists (skipn (length l + 1 - Z.to_nat limit) l).
  rewrite skipn_app.
  replace (length l + 1 - Z.to_nat limit - length l) with 0 by lia.
  reflexivity.
Qed.


(** *** A sequence of calls *)

(** The events of the [emit] calls of a sequence, in order. *)
Definition events_of (cs : list call) : list Event :=
  flat_map (λ c, match c with Emit e => [e] | _ => [] end) cs.

(** The metrics after recording a list of events. *)
Definition recorded (es : list Event) (m : EventMetrics) : EventMetrics :=
  fold_left (λ m e, snd (record e m)) es m.

Lemma subscribe_all_log (h : handler) (b : EventBus) :
  event_log (subscribe_all h b) = event_log b.
Proof. reflexivity. Qed.

(** The log and the metrics after a sequence of calls are those of the
    events of the calls that were made. *)
Lemma do_calls_log (cs : list call) :
  ∀ b, ∃ r b' n, do_calls cs b = (r, b')
    ∧ n ≤ length cs
    ∧ (r = Returned tt → n = length cs)
    ∧ event_log b' = event_log b ++ events_of (firstn n cs)
    ∧ metrics b' = recorded (events_of (firstn n cs)) (metrics b).
Proof.
  induction cs as [| c cs IH]; intros b.
  - exists (Returned tt), b, 0. split; [reflexivity |]. simpl.
    rewrite app_nil_r. auto.
  - assert (∃ r1 b1, do_call c b = (r1, b1)
              ∧ event_log b1 = event_log b ++ events_of [c]
              ∧ metrics b1 = recorded (events_of [c]) (metrics b))
      as (r1 & b1 & Hc & Hlog & Hm).
    { destruct c as [e | ty h | h]; simpl.
      - destruct (emit_spec e b) as (r & b1 & He & _ & Hl & Hm & _).
        exists r, b1. auto.
      - eexists _, _. split; [reflexivity |]. simpl. by rewrite app_nil_r.
      - eexists _, _. split; [reflexivity |].
        rewrite subscribe_all_log, subscribe_all_metrics.
        simpl. by rewrite app_nil_r. }
    cbn [do_calls]. unfold bind. rewrite Hc.
    assert (∀ k, events_of (firstn (S k) (c :: cs))
                 = events_of [c] ++ events_of (firstn k cs)) as Hsplit.
    { intros k. unfold events_of. cbn [firstn flat_map].
      by rewrite app_nil_r. }
    destruct r1 as [[] | x].
    + destruct (IH b1) as (r & b2 & n & Hrest & Hle & Hall & Hlog2 & Hm2).
      rewrite Hrest. exists r, b2, (S n). split; [reflexivity |].
      split; [simpl; lia |]. split; [intros Hr; simpl; by rewrite Hall |].
      rewrite Hlog2, Hlog, Hm2, Hm, Hsplit. unfold recorded.
      split; [by rewrite <- app_assoc | by rewrite fold_left_app].
    + exists (Raised x), b1, 1. split; [reflexivity |].
      split; [simpl; lia |]. split; [discriminate |].
      rewrite Hlog, Hm, (Hsplit 0). simpl. by rewrite !app_nil_r.
Qed.

(** *** The counts and the errors *)

Lemma total_count_record (e : Event) (m : EventMetrics) :
  total_count (counts (snd (record e m))) = S (total_count (counts m)).
Proof.
  rewrite record_counts. unfold total_count.
  set (name := EventType_value (type e)).
  set (f := λ (_ : string) (n acc : nat), n + acc).
  assert (∀ (c : gmap string nat) (j1 j2 : string) (z1 z2 y : nat),
            j1 ≠ j2 → c !! j1 = Some z1 → c !! j2 = Some z2 →
            f j1 z1 (f j2 z2 y) = f j2 z2 (f j1 z1 y)) as Hcomm
    by (intros; unfold f; lia).
  destruct (counts m !! name) as [c |] eqn:Hc.
  - rewrite <- (insert_delete_eq (counts m)).
    rewrite (map_fold_insert_L f 0 name _ (delete name (counts m))
               (Hcomm _) (lookup_delete_eq _ _)).
    rewrite (map_fold_delete_L f 0 name c (counts m) (Hcomm _) Hc).
    unfold f. simpl. lia.
  - rewrite (map_fold_insert_L f 0 name _ (counts m) (Hcomm _) Hc).
    unfold f. simpl. lia.
Qed.

Definition is_failure (e : Event) : bool :=
  bool_decide (type e = TASK_FAILED ∨ type e = GATE_FAILED).

Lemma errors_record (e : Event) (m : EventMetrics) :
  length (errors (snd (record e m)))
  = length (errors m) + (if is_failure e then 1 else 0).
Proof.
  unfold record, is_failure, bind, modify, lift, ret. simpl.
  destruct (decide (type e = TASK_COMPLETED)) as [Ht | Ht].
  - rewrite bool_decide_eq_false_2
      by (rewrite Ht; intros [? | ?]; discriminate).
    destruct (datum_truthy _); simpl.
    + destruct (hash_of _); simpl; [| lia].
      rewrite decide_False by (rewrite Ht; intros [? | ?]; discriminate).
      simpl. lia.
    + rewrite decide_False by (rewrite Ht; intros [? | ?]; discriminate).
      simpl. lia.
  - destruct (decide (type e = TASK_FAILED ∨ type e = GATE_FAILED)) as [H | H].
    + rewrite bool_decide_eq_true_2 by exact H. simpl. by rewrite length_app.
    + rewrite bool_decide_eq_false_2 by exact H. simpl. lia.
Qed.

Lemma recorded_totals (es : list Event) :
  ∀ m, total_count (counts (recorded es m))
       = total_count (counts m) + length es
     ∧ length (errors (recorded es m))
       = length (errors m) + length (List.filter is_failure es).
Proof.
  induction es as [| e es IH]; intros m; [simpl; lia |].
  cbn [recorded fold_left]. fold (recorded es (snd (record e m))).
  destruct (IH (snd (record e m))) as [-> ->].
  rewrite total_count_record, errors_record. cbn [List.filter length].
  destruct (is_failure e); simpl; lia.
Qed.

Lemma recorded_nonempty (es : list Event) (e : Event) (m : EventMetrics) :
  counts (recorded (es ++ [e]) m) ≠ ∅.
Proof.
  unfold recorded. rewrite fold_left_app. simpl. rewrite record_counts.
  apply insert_non_empty.
Qed.

End BusFacts.

Import Events EventsFacts ListFacts BusFacts.






(** X17.  Right after an [emit], whether it returned or raised, the event
    is the last one that [get_events_by_type] returns for its type and that
    [get_events_by_source] returns for its source, whatever the positive
    [limit]. *)
Theorem emitted_event_is_the_last_one_queried :
  ∀ (b : EventBus) (e : Event) (limit : Z),
    (0 < limit)%Z →
    ∃ r b' front front',
      emit e b = (r, b')
      ∧ get_events_by_type (type e) limit b' = front ++ [e]
      ∧ get_events_by_source (source e) limit b' = front' ++ [e].
Proof.
  intros b e limit Hpos.
  destruct (emit_spec e b) as (r & b' & He & _ & Hlog & _).
  destruct (slice_last_snoc limit
              (List.filter (λ e0, bool_decide (type e0 = type e))
                 (event_log b)) e Hpos) as [front Hfront].
  destruct (slice_last_snoc limit
              (List.filter (λ e0, String.eqb (source e0) (source e))
                 (event_log b)) e Hpos) as [front' Hfront'].
  exists r, b', front, front'. split; [exact He |].
  unfold get_events_by_type, get_events_by_source. rewrite Hlog.
  rewrite !List.filter_app. cbn [List.filter].
  rewrite bool_decide_eq_true_2 by reflexivity. rewrite String.eqb_refl.
  auto.
Qed.

(** An event, by its type and its source. *)
Definition event_from (t : EventType) (src : string) : Event :=
  {| id := "e"; type := t; timestamp := 0; source := src; data := [];
     metadata := None |}.

Lemma emitted_event_is_the_last_one_queried_witness :
  ∃ r b' front,
    emit (event_from TASK_FAILED "qa") EventBus_init = (r, b')
    ∧ get_events_by_type TASK_FAILED 100 b'
      = front ++ [event_from TASK_FAILED "qa"].
Proof.
  destruct (emitted_event_is_the_last_one_queried EventBus_init
              (event_from TASK_FAILED "qa") 100)
    as (r & b' & front & _ & He & Ht & _); [lia |].
  exists r, b', front. split; [exact He | exact Ht].
Defined.

(** X18.  On a bus that starts fresh, a sequence of [emit], [subscribe]
    and [subscribe_all] calls is made until one raises, and to its end when
    every emitted event is one [record] returns on and no handler raises
    [SystemExit] or [KeyboardInterrupt].  After the calls that were made
    the log holds their events in the order of the calls, and the error
    rate that [export_metrics] computes is 0 when nothing was emitted and
    otherwise the number of [task.failed] and [gate.failed] events divided
    by the number of all emitted events, a number from 0 to 1: the division
    never fails.  The export raises only when an average of durations
    cannot be computed, and otherwise gives the counts, that rate and the
    last ten errors. *)
Theorem error_rate_is_the_share_of_failure_events :
  ∀ (unsupported_operand : Q → datum → exn) (cs : list call),
    ∃ r b' n rate,
      do_calls cs EventBus_init = (r, b')
      ∧ n ≤ length cs
      ∧ (r = Returned tt → n = length cs)
      ∧ (Forall call_harmless cs → r = Returned tt)
      ∧ let es := events_of (firstn n cs) in
        event_log b' = es
        ∧ rate = match es with
                 | [] => 0%Q
                 | _ :: _ =>
                     (inject_Z (Z.of_nat (length (List.filter is_failure es)))
                      / inject_Z (Z.of_nat (length es)))%Q
                 end
        ∧ (0 <= rate <= 1)%Q
        ∧ error_rate_of (metrics b') = Returned rate
        ∧ length (errors (metrics b')) = length (List.filter is_failure es)
        ∧ export_metrics unsupported_operand b'
          = match averages unsupported_operand (durations (metrics b')) with
            | Returned avgs =>
                Returned {| event_counts := counts (metrics b');
                            average_durations := avgs;
                            error_rate := rate;
                            recent_errors :=
                              slice_last 10 (errors (metrics b')) |}
            | Raised e => Raised e
            end.
Proof.
  intros unsupported_operand cs.
  destruct (do_calls_log cs EventBus_init)
    as (r & b' & n & Hrun & Hle & Hall & Hlog & Hm).
  set (es := events_of (firstn n cs)) in *.
  change (metrics EventBus_init) with EventMetrics_init in Hm.
  destruct (recorded_totals es EventMetrics_init) as [Htotal Herrors].
  rewrite <- Hm in Htotal, Herrors.
  change (total_count (counts EventMetrics_init)) with 0 in Htotal.
  change (length (errors EventMetrics_init)) with 0 in Herrors.
  simpl in Htotal, Herrors.
  pose proof (List.filter_length_le is_failure es) as Hlen.
  assert (error_rate_of (metrics b')
          = Returned
              match es with
              | [] => 0%Q
              | _ :: _ =>
                  (inject_Z (Z.of_nat (length (List.filter is_failure es)))
                   / inject_Z (Z.of_nat (length es)))%Q
              end) as Hrate.
  { unfold error_rate_of. rewrite Htotal, Herrors.
    destruct es as [| e es'] eqn:Hes.
    - rewrite Hm. simpl. by rewrite decide_True.
    - rewrite decide_False; [reflexivity |].
      rewrite Hm. destruct (exists_last (l := e :: es')) as (es'' & e' & ->);
        [discriminate |].
      apply recorded_nonempty. }
  eexists r, b', n, _. split; [exact Hrun |]. split; [exact Hle |].
  split; [exact Hall |].
  split.
  { intros Hcs.
    destruct (do_calls_returns cs Hcs EventBus_init EventBus_init_harmless)
      as (b2 & Hrun2 & _).
    rewrite Hrun in Hrun2. by injection Hrun2 as -> _. }
  cbv zeta. fold es.
  split; [by rewrite Hlog |]. split; [reflexivity |].
  split.
  { destruct es as [| e es']; [split; apply Qle_refl || done |].
    set (m := length (e :: es')) in *.
    set (k := length (List.filter is_failure (e :: es'))) in *.
    assert (0 < inject_Z (Z.of_nat m))%Q as Hn.
    { change 0%Q with (inject_Z 0). rewrite <- Zlt_Qlt. unfold m. simpl. lia. }
    assert (0 <= inject_Z (Z.of_nat k))%Q as Hk0.
    { change 0%Q with (inject_Z 0). rewrite <- Zle_Qle. lia. }
    assert (inject_Z (Z.of_nat k) <= inject_Z (Z.of_nat m))%Q as Hkn.
    { rewrite <- Zle_Qle. lia. }
    split.
    - apply Qle_shift_div_l; [exact Hn |]. by rewrite Qmult_0_l.
    - apply Qle_shift_div_r; [exact Hn |]. by rewrite Qmult_1_l. }
  split; [exact Hrate |]. split; [exact Herrors |].
  unfold export_metrics, export. rewrite Hrate. reflexivity.
Qed.





(** ** Reading and writing the context store *)

Module StoreFacts.
Import Context ContextFacts.

Lemma keys_dict_set_present {V : Type} (k : string) (v v' : V)
    (d : list (string * V)) :
  dict_get k d = Some v → map fst (dict_set k v' d) = map fst d.
Proof.
  induction d as [| [k0 v0] d IH]; [discriminate |]. cbn [dict_get dict_set].
  destruct (String.eqb k k0); [reflexivity |].
  intros Hget. simpl. by rewrite IH.
Qed.

(** Replacing an entry by one with the same value leaves the dictionary
    that [get_token_usage] dumps as it was. *)
Lemma values_dict_set_same (k : string) (e e' : ContextEntry)
    (d : list (string * ContextEntry)) :
  dict_get k d = Some e → value e' = value e →
  map (λ kv, (fst kv, value (snd kv))) (dict_set k e' d)
  = map (λ kv, (fst kv, value (snd kv))) d.
Proof.
  intros Hget Hval.
  induction d as [| [k0 v0] d IH]; [discriminate |].
  cbn [dict_get dict_set] in *.
  destruct (String.eqb k k0).
  - injection Hget as ->. simpl. by rewrite Hval.
  - simpl. by rewrite IH.
Qed.

Section Store.
Variable float_mul : Q → Z → Q.
Variable json_dumps : list (string * Py.value) → string.
Variable clock : nat → Z.

(** A pass that starts within the limit deletes nothing. *)
Lemma evict_within (bound : Q) (entries ctx : list (string * ContextEntry)) :
  Qle_bool (inject_Z (usage_of json_dumps ctx)) bound = true →
  snd (evict json_dumps bound entries ctx) = ctx.
Proof.
  intros Hle. destruct entries as [| [k e] entries]; [reflexivity |].
  cbn [evict]. by rewrite Hle.
Qed.

Lemma compress_within (cm : ContextManager) :
  Qle_bool (inject_Z (usage_of json_dumps (context cm))) (limit cm) = true →
  context (_compress float_mul json_dumps cm)
  = map (λ kv, (fst kv, decay (relevance_decay cm) (snd kv))) (context cm).
Proof.
  intros Hle. unfold _compress.
  pose proof (evict_within (limit cm) (rev (sort_desc float_mul (context cm)))
                (context cm) Hle) as Hev.
  destruct (evict json_dumps (limit cm) (rev (sort_desc float_mul (context cm)))
              (context cm)) as [rest ctx].
  simpl in Hev. by subst.
Qed.


(** An import stops at the first entry without ["value"]; what came before
    it stays imported. *)
Lemma import_entries_stops (good : list (string * entry_data)) (k : string)
    (d : entry_data) (rest : list (string * entry_data)) :
  Forall (λ kd, is_Some (ed_value (snd kd))) good →
  ed_value d = None →
  ∀ cm, ∃ cm',
    import_entries clock good cm = (Returned tt, cm')
    ∧ import_entries clock (good ++ (k, d) :: rest) cm
      = (Raised (KeyError "value"), cm').
Proof.
  intros Hgood Hbad. induction Hgood as [| [k0 d0] good [v Hv] _ IH];
    intros cm.
  - exists cm. split; [reflexivity |]. cbn [app import_entries].
    unfold bind, lift. by rewrite Hbad.
  - cbn [app import_entries]. unfold bind, lift, now, modify.
    simpl in Hv. rewrite Hv. cbn beta iota.
    match goal with
    | |- context [import_entries clock good ?c] =>
        destruct (IH c) as (cm' & H1 & H2)
    end.
    unfold bind, lift, now, modify in H2. exists cm'. by rewrite H1, H2.
Qed.

End Store.

(** *** [get_relevant_context] *)

Lemma relevant_lookup (ctx : list (string * ContextEntry))
    (keys : gset string) (k : string) :
  set_fold (λ k (res : gmap string Py.value),
              match dict_get k ctx with
              | Some entry => <[k := value entry]> res
              | None => res
              end) ∅ keys !! k
  = if bool_decide (k ∈ keys) then value <$> dict_get k ctx else None.
Proof.
  pose (P := λ (res : gmap string Py.value) (X : gset string),
              res !! k = if bool_decide (k ∈ X) then value <$> dict_get k ctx
                         else None).
  change (P (set_fold (λ k (res : gmap string Py.value),
                         match dict_get k ctx with
                         | Some entry => <[k := value entry]> res
                         | None => res
                         end) ∅ keys) keys).
  apply (set_fold_ind_L P); unfold P.
  - rewrite lookup_empty. by rewrite bool_decide_eq_false_2 by set_solver.
  - intros x X res Hx IH.
    destruct (decide (k = x)) as [-> | Hne].
    + rewrite bool_decide_eq_true_2 by set_solver.
      rewrite bool_decide_eq_false_2 in IH by exact Hx.
      destruct (dict_get x ctx) as [entry |]; [| exact IH].
      by rewrite lookup_insert_eq.
    + assert (res !! k
              = match dict_get x ctx with
                | Some entry => <[x := value entry]> res
                | None => res
                end !! k) as <-.
      { destruct (dict_get x ctx); [by rewrite lookup_insert_ne |
                                    reflexivity]. }
      rewrite IH. destruct (decide (k ∈ X)) as [Hin | Hnin].
      * rewrite (bool_decide_eq_true_2 (k ∈ X)) by exact Hin.
        by rewrite bool_decide_eq_true_2 by set_solver.
      * rewrite (bool_decide_eq_false_2 (k ∈ X)) by exact Hnin.
        rewrite bool_decide_eq_false_2; [reflexivity |].
        intros [Hk%elem_of_singleton | Hk]%elem_of_union; done.
Qed.

Lemma relevance_elem (task_type role : string) (cm : ContextManager)
    (k : string) :
  k ∈ _calculate_relevance task_type role cm
  ↔ ∃ topic,
      In topic (default [] (dict_get task_type
                              (default [] (dict_get role relevance_map))))
      ∧ (k = topic
         ∨ (String.prefix (topic ++ ".") k = true
            ∧ In k (map fst (context cm)))).
Proof.
  unfold _calculate_relevance.
  set (topics := default [] (dict_get task_type
                               (default [] (dict_get role relevance_map)))).
  rewrite elem_of_list_to_set, list_elem_of_In, in_concat.
  split.
  - intros (l & Hl & Hk). apply in_map_iff in Hl as (topic & <- & Htopic).
    exists topic. split; [exact Htopic |].
    destruct Hk as [<- | Hk]; [by left |].
    right. by apply List.filter_In in Hk as [? ?].
  - intros (topic & Htopic & Hk).
    eexists. split; [apply in_map_iff; exists topic; split;
                       [reflexivity | exact Htopic] |].
    destruct Hk as [-> | [Hpre Hin]]; [by left |].
    right. by apply List.filter_In.
Qed.

End StoreFacts.

Import Context ContextFacts StoreFacts.

(** X20.  [get] on a key the store does not hold returns the default and
    changes nothing, not even the clock is read.  On a key it holds, [get]
    returns the stored value, adds one to the access count of the entry and
    sets its [last_accessed] to a fresh reading of the clock; the score,
    the other entries, the order of the keys and the estimated token usage
    stay as they were, so a read never triggers a compression pass. *)
Theorem get_counts_the_access_and_changes_nothing_else :
  ∀ (json_dumps : list (string * Py.value) → string) (clock : nat → Z)
    (cm : ContextManager) (k : string) (default : Py.value),
    match dict_get k (context cm) with
    | None => get clock k default cm = (Returned default, cm)
    | Some entry =>
        ∃ cm',
          get clock k default cm = (Returned (value entry), cm')
          ∧ dict_get k (context cm')
            = Some {| key := key entry; value := value entry;
                      relevance_score := relevance_score entry;
                      last_accessed := clock (ticks cm);
                      access_count := (access_count entry + 1)%Z |}
          ∧ (∀ k', k' ≠ k →
               dict_get k' (context cm') = dict_get k' (context cm))
          ∧ map fst (context cm') = map fst (context cm)
          ∧ get_token_usage json_dumps cm' = get_token_usage json_dumps cm
          ∧ ticks cm' = S (ticks cm)
    end.
Proof.
  intros json_dumps clock cm k default.
  unfold get, bind, read, now, modify. cbn beta iota.
  destruct (dict_get k (context cm)) as [entry |] eqn:Hget; [| reflexivity].
  eexists. split; [reflexivity |]. cbn [context with_context ticks].
  split; [apply dict_get_set_eq |].
  split; [intros k' Hne; by apply dict_get_set_ne |].
  split; [by apply (keys_dict_set_present k entry) |].
  split; [| reflexivity].
  unfold get_token_usage, usage_of. cbn [context with_context].
  by rewrite (values_dict_set_same k entry).
Qed.

(** X21.  When the store with the new entry triggers no compression, or is
    within [compression_threshold * max_tokens], [set] evicts nothing and a
    [get] of the key right after it returns the value that was set.  The
    entry starts with access count 0; its score is the relevance given to
    [set] when no compression was triggered, and that relevance times the
    decay factor when one was: the pass decays the scores even when it
    deletes nothing. *)
Theorem set_then_get_returns_the_value :
  ∀ (float_mul : Q → Z → Q)
    (json_dumps : list (string * Py.value) → string) (clock : nat → Z)
    (cm : ContextManager) (k : string) (v default : Py.value)
    (relevance : Q),
    let entry := {| key := k; value := v; relevance_score := relevance;
                    last_accessed := clock (ticks cm);
                    access_count := 0 |} in
    let usage :=
      inject_Z (usage_of json_dumps (dict_set k entry (context cm))) in
    Qle_bool usage (compression_threshold cm) = true
    ∨ Qle_bool usage (limit cm) = true →
    ∃ cm' cm'' e,
      set float_mul json_dumps clock k v relevance cm = (Returned tt, cm')
      ∧ map fst (context cm') = map fst (dict_set k entry (context cm))
      ∧ dict_get k (context cm') = Some e
      ∧ value e = v
      ∧ access_count e = 0%Z
      ∧ relevance_score e
        = (if Qle_bool usage (compression_threshold cm) then relevance
           else relevance * relevance_decay cm)%Q
      ∧ get clock k default cm' = (Returned v, cm'').
Proof.
  intros float_mul json_dumps clock cm k v default relevance entry usage
    Hfits.
  unfold set, bind, now, modify, read. cbn beta iota.
  unfold get_token_usage. cbn [context with_context compression_threshold].
  fold entry. fold usage.
  destruct (Qle_bool usage (compression_threshold cm)) eqn:Htrigger;
    cbn [negb].
  - eexists _, _, entry. split; [reflexivity |].
    cbn [context with_context].
    split; [reflexivity |]. split; [apply dict_get_set_eq |].
    split; [reflexivity |]. split; [reflexivity |]. split; [reflexivity |].
    unfold get, bind, read, now, modify. cbn [context with_context].
    rewrite dict_get_set_eq. reflexivity.
  - destruct Hfits as [Hno | Hfits]; [discriminate |].
    set (cm1 := with_context (dict_set k entry (context cm)) _).
    assert (context (_compress float_mul json_dumps cm1)
            = map (λ kv, (fst kv, decay (relevance_decay cm1) (snd kv)))
                  (context cm1)) as Hctx
      by (apply compress_within; exact Hfits).
    assert (dict_get k (context (_compress float_mul json_dumps cm1))
            = Some (decay (relevance_decay cm) entry)) as Hget.
    { rewrite Hctx, dict_get_map. cbn [context cm1 with_context].
      by rewrite dict_get_set_eq. }
    eexists _, _, (decay (relevance_decay cm) entry).
    split; [reflexivity |].
    split; [rewrite Hctx; rewrite map_map; reflexivity |].
    split; [exact Hget |].
    split; [reflexivity |]. split; [reflexivity |]. split; [reflexivity |].
    unfold get, bind, read, now, modify. cbn beta iota. rewrite Hget.
    reflexivity.
Qed.

Lemma set_then_get_returns_the_value_witness :
  ∃ cm' cm'' e,
    set double_mul Py.json_dumps (λ n, Z.of_nat n) "goal" (VStr "ship") 1 (init 4000)
    = (Returned tt, cm')
    ∧ dict_get "goal" (context cm') = Some e
    ∧ relevance_score e = (1 * (19 # 20))%Q
    ∧ get (λ n, Z.of_nat n) "goal" VNone cm' = (Returned (VStr "ship"), cm'').
Proof.
  destruct (set_then_get_returns_the_value double_mul Py.json_dumps
              (λ n, Z.of_nat n)
              (init 4000) "goal" (VStr "ship") VNone 1)
    as (cm' & cm'' & e & Hset & _ & Hget & _ & _ & Hscore & Hread).
  - right. vm_compute. reflexivity.
  - exists cm', cm'', e. split; [exact Hset |]. split; [exact Hget |].
    split; [exact Hscore | exact Hread].
Defined.

(** X22.  An import stops at the first entry that has no ["value"]: it
    raises [KeyError('value')], the entries before that one are in the
    store all the same, with their values, and the keys that are not among
    them are as they were, so neither the faulty entry nor an entry after
    it was imported. *)
Theorem import_stops_at_the_first_entry_without_value :
  ∀ (clock : nat → Z) (good rest : list (string * entry_data)) (k : string)
    (d : entry_data) (md : option export_metadata) (dst : ContextManager),
    NoDup (map fst good) →
    Forall (λ kd, is_Some (ed_value (snd kd))) good →
    ed_value d = None →
    ∃ dst',
      import_context clock
        {| ex_context := Some (good ++ (k, d) :: rest); ex_metadata := md |}
        dst
      = (Raised (KeyError "value"), dst')
      ∧ (∀ k' d', In (k', d') good →
           ∃ e, dict_get k' (context dst') = Some e
                ∧ ed_value d' = Some (value e))
      ∧ (∀ k', ¬ In k' (map fst good) →
           dict_get k' (context dst') = dict_get k' (context dst)).
Proof.
  intros clock good rest k d md dst Hnd Hgood Hbad.
  destruct (import_entries_stops clock good k d rest Hgood Hbad dst)
    as (dst' & Hrun & Hstop).
  destruct (import_entries_spec clock good Hnd Hgood dst)
    as (dst1 & Hrun1 & _ & Hother & Hin).
  rewrite Hrun in Hrun1. injection Hrun1 as <-.
  exists dst'. split; [exact Hstop |]. split; [| exact Hother].
  intros k' d' Hk'. apply list_elem_of_In, list_elem_of_lookup in Hk' as [i Hi].
  destruct (Hin i k' d' Hi) as (v & Hv & Hget).
  eexists. split; [exact Hget | exact Hv].
Qed.

Lemma import_stops_at_the_first_entry_without_value_witness :
  ∃ dst',
    import_context (λ n, Z.of_nat n)
      {| ex_context :=
           Some [("goal", {| ed_value := Some (VStr "ship");
                             ed_relevance := None;
                             ed_access_count := None |});
                 ("plan", {| ed_value := None; ed_relevance := Some 1%Q;
                             ed_access_count := Some 2%Z |});
                 ("team", {| ed_value := Some (VInt 4);
                             ed_relevance := None;
                             ed_access_count := None |})];
         ex_metadata := None |}
      (init 4000)
    = (Raised (KeyError "value"), dst')
    ∧ map fst (context dst') = ["goal"].
Proof.
  destruct (import_stops_at_the_first_entry_without_value (λ n, Z.of_nat n)
              [("goal", {| ed_value := Some (VStr "ship");
                           ed_relevance := None;
                           ed_access_count := None |})]
              [("team", {| ed_value := Some (VInt 4);
                           ed_relevance := None;
                           ed_access_count := None |})]
              "plan"
              {| ed_value := None; ed_relevance := Some 1%Q;
                 ed_access_count := Some 2%Z |}
              None (init 4000))
    as (dst' & Hrun & _).
  - apply (bool_decide_unpack _). vm_compute. exact I.
  - constructor; [by eexists | constructor].
  - reflexivity.
  - exists dst'. split; [exact Hrun |].
    pose proof (f_equal (λ p, map fst (context (snd p))) Hrun) as Hkeys.
    simpl in Hkeys. by rewrite <- Hkeys.
Defined.



(** X24.  [get_relevant_context] returns, for the topics the table gives
    for the role and the task type, the entries the store holds under a
    topic or under a key that starts with a topic and a dot, each with its
    value as [_apply_compression_patterns] summarises it; no other key
    appears in the result. *)
Theorem relevant_context_is_the_topics_and_their_children :
  ∀ (py_str : Py.value → string) (task_type role : string)
    (cm : ContextManager) (k : string),
    get_relevant_context py_str task_type role cm !! k
    = (if bool_decide (k ∈ _calculate_relevance task_type role cm)
       then summarize py_str <$> (value <$> dict_get k (context cm))
       else None)
    ∧ (k ∈ _calculate_relevance task_type role cm
       ↔ ∃ topic,
           In topic (default [] (dict_get task_type
                                   (default [] (dict_get role relevance_map))))
           ∧ (k = topic
              ∨ (String.prefix (topic ++ ".") k = true
                 ∧ In k (map fst (context cm))))).
Proof.
  intros py_str task_type role cm k. split; [| apply relevance_elem].
  unfold get_relevant_context, _apply_compression_patterns.
  rewrite lookup_fmap, relevant_lookup.
  by destruct (bool_decide (k ∈ _calculate_relevance task_type role cm)).
Qed.

(** ** The hooks runner *)

Module HooksFacts.
Import Hooks.

(** What the loop keeps true of [results]: ["success"] is true exactly
    while no issue was reported, and the count of fixes is not negative. *)
Definition consistent (r : results) : Prop :=
  (success r = true ↔ issues r = []) ∧ (0 <= fixed r)%Z.

(** How far a run got: fixes and issues so far. *)
Definition handled (r : results) : Z :=
  (fixed r + Z.of_nat (length (issues r)))%Z.

Lemma report_spec (h : hook) (detail : string) (r : results) :
  consistent r →
  consistent (report h detail r)
  ∧ handled (report h detail r) = (handled r + 1)%Z
  ∧ fixed (report h detail r) = fixed r.
Proof.
  intros [Hs Hf]. unfold consistent, handled, report. cbn [success issues fixed].
  rewrite length_app. simpl. split; [| split; [lia | reflexivity]].
  split; [| exact Hf]. split; [discriminate |].
  intros Hnil. by destruct (issues r).
Qed.

(** The shell raises only exceptions that derive from [Exception] (an
    [OSError], say), no [KeyboardInterrupt] and no [SystemExit]. *)
Definition plain_shell (sh : shell) : Prop :=
  ∀ n cmd e, sh n cmd = Raised e → is_Exception e = true.

(** An exception that the shell raised and [except Exception] lets go. *)
Definition from_shell (sh : shell) (e : exn) : Prop :=
  is_Exception e = false ∧ ∃ n cmd, sh n cmd = Raised e.

Lemma plain_shell_contains (sh : shell) (e : exn) :
  plain_shell sh → ¬ from_shell sh e.
Proof.
  intros Hp [He (n & cmd & Hraise)]. rewrite (Hp n cmd e Hraise) in He.
  discriminate He.
Qed.

(** What a step of the loop may do to [results]. *)
Definition advanced (hook_type : string) (k : nat) (r r' : results) : Prop :=
  consistent r'
  ∧ (handled r <= handled r' <= handled r + Z.of_nat k)%Z
  ∧ (fixed r <= fixed r')%Z
  ∧ (hook_type ≠ "pre-commit" → fixed r' = fixed r).

(** One hook: it passes, it is fixed (for [pre-commit] only), or it is
    reported; one or two commands are run.  An exception of the shell that
    does not derive from [Exception] gets out. *)
Lemma run_hook_spec (sh : shell) (hook_type : string) (h : hook)
    (r : results) (n : nat) :
  consistent r →
  ∃ o n',
    run_hook sh hook_type h r n = (o, n')
    ∧ match o with
      | Returned r' => advanced hook_type 1 r r' ∧ S n ≤ n' ≤ S (S n)
      | Raised e => from_shell sh e
      end.
Proof.
  intros Hr. pose proof Hr as [Hs Hf].
  assert (∀ detail n', S n ≤ n' ≤ S (S n) →
            ∃ o n1, (Returned (report h detail r), n') = (o, n1)
              ∧ match o with
                | Returned r' => advanced hook_type 1 r r' ∧ S n ≤ n1 ≤ S (S n)
                | Raised e => from_shell sh e
                end) as Hreport.
  { intros detail n' Hn'.
    destruct (report_spec h detail r Hr) as (Hc & Hh & Hfx).
    eexists _, _. split; [reflexivity |]. unfold advanced.
    rewrite Hh, Hfx.
    split; [| lia]. split; [exact Hc |]. split; [lia |]. split; [lia | done]. }
  assert (∀ e k cmd n', sh k cmd = Raised e → S n ≤ n' ≤ S (S n) →
            ∃ o n1, (if is_Exception e
                     then (Returned (report h (exn_str e) r), n')
                     else (Raised e, n')) = (o, n1)
              ∧ match o with
                | Returned r' => advanced hook_type 1 r r' ∧ S n ≤ n1 ≤ S (S n)
                | Raised e => from_shell sh e
                end) as Hraise.
  { intros e k cmd n' Hsh Hn'. destruct (is_Exception e) eqn:He.
    - by apply Hreport.
    - eexists _, _. split; [reflexivity |]. split; [exact He |].
      by exists k, cmd. }
  unfold run_hook, try_except, bind, subprocess_run, ret.
  destruct (sh n (hook_cmd h)) as [result | e] eqn:Hcmd;
    [| eapply Hraise; [exact Hcmd | lia]].
  destruct (returncode result =? 0)%Z; cbn [negb].
  { eexists _, _. split; [reflexivity |]. unfold advanced.
    split; [| lia]. split; [exact Hr |].
    split; [lia |]. split; [lia | done]. }
  destruct (hook_fix h) as [fix_cmd |]; [| apply Hreport; lia].
  destruct (String.eqb_spec hook_type "pre-commit") as [-> | Hne];
    [| apply Hreport; lia].
  destruct (sh (S n) fix_cmd) as [fix_result | e] eqn:Hfix;
    [| eapply Hraise; [exact Hfix | lia]].
  destruct (returncode fix_result =? 0)%Z; [| apply Hreport; lia].
  eexists _, _. split; [reflexivity |].
  unfold advanced, consistent, handled. cbn [success issues fixed].
  unfold handled. split; [| lia]. split; [split; [exact Hs | lia] |].
  split; [lia |]. split; [lia | done].
Qed.

Lemma run_each_spec (sh : shell) (hook_type : string) (hs : list hook) :
  ∀ (r : results) (n : nat),
    consistent r →
    ∃ o n',
      run_each sh hook_type hs r n = (o, n')
      ∧ match o with
        | Returned r' =>
            advanced hook_type (length hs) r r'
            ∧ n + length hs ≤ n' ≤ n + 2 * length hs
        | Raised e => from_shell sh e
        end.
Proof.
  induction hs as [| h hs IH]; intros r n Hr.
  - exists (Returned r), n. split; [reflexivity |]. unfold advanced.
    simpl. split; [| lia]. split; [exact Hr |].
    split; [lia |]. split; [lia | done].
  - destruct (run_hook_spec sh hook_type h r n Hr) as (o1 & n1 & Hrun1 & Ho1).
    cbn [run_each]. unfold bind. rewrite Hrun1.
    destruct o1 as [r1 | e]; [| by eexists _, _].
    destruct Ho1 as [(Hc1 & Hh1 & Hf1 & Hp1) Hn1].
    destruct (IH r1 n1 Hc1) as (o2 & n2 & Hrun2 & Ho2).
    rewrite Hrun2. exists o2, n2. split; [reflexivity |].
    destruct o2 as [r2 | e]; [| exact Ho2].
    destruct Ho2 as [(Hc2 & Hh2 & Hf2 & Hp2) Hn2]. unfold advanced.
    cbn [length]. split; [| lia]. split; [exact Hc2 |].
    split; [lia |]. split; [lia |].
    intros Hne. by rewrite Hp2, Hp1.
Qed.

Lemma results_dict_keys (r : results) :
  dict_get "error" (results_dict r) = None
  ∧ dict_get "success" (results_dict r) = Some (VBool (success r)).
Proof. split; reflexivity. Qed.

(** No answer of [run_hooks] has an ["error"]. *)
Lemma run_hooks_no_error (py_str : Py.value → string) (sh : shell)
    (self : HooksRunner) (arg : Py.value) (n : nat)
    (d : list (string * Py.value)) :
  fst (run_hooks py_str sh self arg n) = Returned d →
  dict_get "error" d = None.
Proof.
  unfold run_hooks.
  assert (∀ shown n (d : list (string * Py.value)),
            fst (ret (S := nat)
                   [("success", VBool true);
                    ("message", VStr ("No hooks defined for " ++ shown))] n)
            = Returned d → dict_get "error" d = None) as Hundef
    by (intros shown n0 d0 [= <-]; reflexivity).
  destruct arg as [| b | z | s | l | l]; try (apply Hundef); try discriminate.
  destruct (dict_get s (hooks self)) as [hs |]; [| apply Hundef].
  unfold bind.
  destruct (run_each sh s hs {| success := true; issues := []; fixed := 0 |} n)
    as [[r | e] n']; [| discriminate].
  intros [= <-]. reflexivity.
Qed.

End HooksFacts.

Import Hooks HooksFacts.

(** X25.  [run_hooks] on a hook type returns, also when the shell fails to
    run a command with an exception that derives from [Exception]: the
    failure becomes an issue.  It raises only what the shell raised and
    [except Exception] does not catch (a [KeyboardInterrupt], say).  For a
    type the runner has no hooks for, it runs no command and answers with
    success and a message.  Otherwise ["success"] is true exactly when no
    issue is reported, every hook is passed, fixed or reported (fixes and
    issues together do not outnumber the hooks), fixes are counted for
    [pre-commit] only, and every hook costs one or two commands.  The
    answer never has an ["error"]. *)
Theorem run_hooks_reports_each_hook_once :
  ∀ (py_str : Py.value → string) (sh : shell) (self : HooksRunner)
    (hook_type : string),
    ∃ o n,
      run_hooks py_str sh self (VStr hook_type) 0 = (o, n)
      ∧ (plain_shell sh → ∃ d, o = Returned d)
      ∧ match o with
        | Raised e =>
            is_Exception e = false ∧ ∃ k cmd, sh k cmd = Raised e
        | Returned d =>
            dict_get "error" d = None
            ∧ match dict_get hook_type (hooks self) with
              | None =>
                  d = [("success", VBool true);
                       ("message", VStr ("No hooks defined for " ++ hook_type))]
                  ∧ n = 0
              | Some hs =>
                  ∃ r, d = results_dict r
                    ∧ (success r = true ↔ issues r = [])
                    ∧ (0 <= fixed r)%Z
                    ∧ (fixed r + Z.of_nat (length (issues r))
                       <= Z.of_nat (length hs))%Z
                    ∧ (if String.eqb hook_type "pre-commit" then True
                       else fixed r = 0%Z)
                    ∧ length hs ≤ n ≤ 2 * length hs
              end
        end.
Proof.
  intros py_str sh self hook_type. unfold run_hooks.
  destruct (dict_get hook_type (hooks self)) as [hs |].
  - destruct (run_each_spec sh hook_type hs
                {| success := true; issues := []; fixed := 0 |} 0)
      as (o & n & Hrun & Ho); [split; [done | simpl; lia] |].
    unfold bind. rewrite Hrun. destruct o as [r | e].
    + destruct Ho as [([Hs Hf] & Hh & _ & Hp) Hn].
      exists (Returned (results_dict r)), n.
      split; [reflexivity |]. split; [by eexists |].
      split; [reflexivity |].
      exists r. split; [reflexivity |]. split; [exact Hs |].
      split; [exact Hf |]. unfold handled in Hh. simpl in Hh.
      split; [lia |]. split; [| lia].
      destruct (String.eqb_spec hook_type "pre-commit"); [exact I |].
      by apply Hp.
    + exists (Raised e), n. split; [reflexivity |].
      split; [| exact Ho].
      intros Hplain. by destruct (plain_shell_contains sh e Hplain).
  - eexists _, _. split; [reflexivity |]. split; [by eexists |].
    split; [reflexivity |]. auto.
Qed.

Import Orchestrator ExecutorFacts ExecutorTraces.

(** X26.  When the hooks runner of the orchestrator is a [HooksRunner]
    of [hooks.py], a TechLead task whose pre-task hooks fail does not end
    with the error [Hook failed: ...]: the answer of the runner has no
    ["error"], so the lookup raises [KeyError] and the task is [FAILED]
    with the error ['error'], after the events [task.started] and
    [task.failed]; its role handler is not run. *)
Theorem failed_hooks_surface_as_a_key_error :
  ∀ (py_str : Py.value → string) (sh : nat → shell) (self : HooksRunner)
    (st : Orch) (t : addr) (res : list (string * Py.value)),
    quiet st →
    hooks_runner st = Some (as_runner py_str sh self) →
    role (objs st t) = "tech_lead" →
    as_runner py_str sh self (hook_calls st) (VStr (action (objs st t)))
    = Returned res →
    dict_get "success" res = Some (VBool false) →
    ∃ st',
      execute_task py_str t st = (Returned t, st')
      ∧ status (objs st' t) = FAILED
      ∧ error (objs st' t) = Some "'error'"
      ∧ result (objs st' t) = result (objs st t)
      ∧ emitted st' = emitted st ++ [started t; failed t "'error'"].
Proof.
  intros py_str sh self st t res Hq Hrun Hrole Hans Hsucc.
  apply (execute_task_hook_answer_without_error py_str st t
           (as_runner py_str sh self) res Hq Hrun Hrole Hans Hsucc).
  unfold as_runner in Hans. by apply run_hooks_no_error in Hans.
Qed.

(** A shell in which every command fails, and a TechLead task that asks
    for the [pre-push] hooks. *)
Definition failing_shell : nat → shell :=
  λ _ _ _, Returned {| returncode := 1; stderr := "2 failed" |}.

Definition gate_task : heap :=
  heap_of [mkTask "gate" "tech_lead" "pre-push" []].

Lemma failed_hooks_surface_as_a_key_error_witness :
  ∃ st',
    execute_task (λ _, "") 0
      (with_runner (as_runner (λ _, "") failing_shell
                      (HooksRunner_init "hooks.yaml"))
         (Orchestrator.init gate_task))
    = (Returned 0, st')
    ∧ error (objs st' 0) = Some "'error'".
Proof.
  destruct (failed_hooks_surface_as_a_key_error (λ _, "") failing_shell
              (HooksRunner_init "hooks.yaml")
              (with_runner (as_runner (λ _, "") failing_shell
                              (HooksRunner_init "hooks.yaml"))
                 (Orchestrator.init gate_task))
              0
              [("success", VBool false);
               ("issues", VList [VStr "Run tests: 2 failed";
                                 VStr "Coverage check: 2 failed"]);
               ("fixed", VInt 0)])
    as (st' & Hrun & _ & Herr & _).
  - intros o Ho. simpl in Ho. destruct Ho.
  - reflexivity.
  - reflexivity.
  - vm_compute. reflexivity.
  - reflexivity.
  - exists st'. split; [exact Hrun | exact Herr].
Defined.

(** The answer of the runner of [hooks.py] to [run_hooks("pre-push")]. *)
Lemma pre_push_answer (py_str : Py.value → string) (sh : nat → shell)
    (cfg : string) (n : nat) :
  plain_shell (sh n) →
  ∃ r, as_runner py_str sh (HooksRunner_init cfg) n (VStr "pre-push")
       = Returned (results_dict r)
    ∧ consistent r ∧ fixed r = 0%Z.
Proof.
  intros Hplain.
  unfold as_runner, Hooks.run_hooks. cbn [dict_get hooks HooksRunner_init].
  cbn [String.eqb Ascii.eqb Bool.eqb andb].
  match goal with
  | |- context [run_each ?s ?ty ?hs ?r0] =>
      destruct (run_each_spec s ty hs r0 0)
        as (o & n' & Hrun & Ho);
        [split; [done | simpl; lia] |]
  end.
  unfold bind. rewrite Hrun. destruct o as [r | e].
  - destruct Ho as [(Hc & _ & _ & Hp) _].
    exists r. split; [reflexivity |].
    split; [exact Hc |]. by apply Hp.
  - by destruct (plain_shell_contains (sh n) e Hplain).
Qed.

(** X27.  When the hooks runner of the orchestrator is a [HooksRunner]
    of [hooks.py] whose shell raises only exceptions that derive from
    [Exception], a TechLead task with the action [run_quality_checks] is
    [COMPLETED] whether the hooks pass or not: the verdict is in the
    result, whose ["quality_passed"] is true exactly when ["issues_found"]
    is empty.  Its ["auto_fixed"] is always 0, since the checks are the
    [pre-push] hooks and only [pre-commit] hooks are fixed.  The runner is
    called twice, once before the task for hooks named like the action, of
    which there are none, and once by the handler. *)
Theorem quality_checks_complete_the_task_either_way :
  ∀ (py_str : Py.value → string) (sh : nat → shell) (cfg : string)
    (st : Orch) (t : addr),
    quiet st →
    (∀ n, plain_shell (sh n)) →
    hooks_runner st = Some (as_runner py_str sh (HooksRunner_init cfg)) →
    role (objs st t) = "tech_lead" →
    action (objs st t) = "run_quality_checks" →
    ∃ st' passed found,
      execute_task py_str t st = (Returned t, st')
      ∧ status (objs st' t) = COMPLETED
      ∧ result (objs st' t)
        = VDict [("quality_passed", VBool passed);
                 ("issues_found", VList (map VStr found));
                 ("auto_fixed", VInt 0)]
      ∧ (passed = true ↔ found = [])
      ∧ hook_calls st' = S (S (hook_calls st))
      ∧ emitted st' = emitted st ++ [started t; completed t].
Proof.
  intros py_str sh cfg st t Hq Hplain Hrun Hrole Hact.
  set (run := as_runner py_str sh (HooksRunner_init cfg)) in *.
  unfold execute_task, bind. rewrite begin_unfold by exact Hq.
  unfold try_except.
  assert (objs (running t st) t = set_status RUNNING (objs st t)) as Hobj0
    by (simpl; by rewrite store_same).
  rewrite (pre_task_hooks_tech_lead py_str t (running t st) run)
    by (try rewrite Hobj0; assumption).
  rewrite Hobj0. cbn [action set_status]. rewrite Hact.
  assert (hook_verdict (run (hook_calls (running t st))
                          (VStr "run_quality_checks")) = Returned None)
    as -> by reflexivity.
  set (st1 := with_hook_calls _ (running t st)).
  destruct (pre_push_answer py_str sh cfg (hook_calls st1) (Hplain _))
    as (r & Hanswer & [Hs _] & Hfixed).
  fold run in Hanswer.
  assert (_execute_by_role t st1
          = (Returned (VDict [("quality_passed", VBool (success r));
                              ("issues_found", VList (map VStr (issues r)));
                              ("auto_fixed", VInt 0)]),
             with_hook_calls (S (hook_calls st1)) st1)) as Hhandler.
  { unfold _execute_by_role, bind, read.
    assert (objs st1 t = set_status RUNNING (objs st t)) as -> by exact Hobj0.
    cbn [role set_status]. rewrite Hrole. cbn [dict_get String.eqb Ascii.eqb
      Bool.eqb andb].
    unfold _handle_tech_lead, bind, read.
    assert (objs st1 t = set_status RUNNING (objs st t)) as -> by exact Hobj0.
    cbn [action set_status]. rewrite Hact.
    cbn [dict_get String.eqb Ascii.eqb Bool.eqb andb default].
    unfold _run_quality_checks, bind, read, Datatypes.id. cbn beta.
    assert (hooks_runner st1 = Some run) as -> by exact Hrun.
    unfold Orchestrator.run_hooks. rewrite Hanswer.
    unfold lift, dict_item, ret. cbn [results_dict dict_get String.eqb
      Ascii.eqb Bool.eqb andb default].
    by rewrite Hfixed. }
  unfold execute_task_resume, run_role_handler, try_except, bind.
  rewrite Hhandler. unfold update_task, modify. cbn beta iota.
  rewrite emit_quiet by (by apply (quiet_same st)).
  eexists _, (success r), (issues r). split; [reflexivity |].
  cbn [objs with_emitted with_objs]. rewrite !store_same.
  split; [reflexivity |]. split; [reflexivity |]. split; [exact Hs |].
  split; [reflexivity |].
  cbn [emitted with_emitted with_objs with_hook_calls st1 running].
  by rewrite <- app_assoc.
Qed.

(** A TechLead task that asks for the quality checks. *)
Definition checks_task : heap :=
  heap_of [mkTask "checks" "tech_lead" "run_quality_checks" []].

Lemma quality_checks_complete_the_task_either_way_witness :
  ∃ st' passed found,
    execute_task (λ _, "") 0
      (with_runner (as_runner (λ _, "") failing_shell
                      (HooksRunner_init "hooks.yaml"))
         (Orchestrator.init checks_task))
    = (Returned 0, st')
    ∧ status (objs st' 0) = COMPLETED
    ∧ result (objs st' 0)
      = VDict [("quality_passed", VBool passed);
               ("issues_found", VList (map VStr found));
               ("auto_fixed", VInt 0)].
Proof.
  destruct (quality_checks_complete_the_task_either_way (λ _, "")
              failing_shell "hooks.yaml"
              (with_runner (as_runner (λ _, "") failing_shell
                              (HooksRunner_init "hooks.yaml"))
                 (Orchestrator.init checks_task)) 0)
    as (st' & passed & found & Hrun & Hs & Hres & _).
  - intros o Ho. simpl in Ho. destruct Ho.
  - intros n k cmd e Hraise. discriminate Hraise.
  - reflexivity.
  - reflexivity.
  - reflexivity.
  - exists st', passed, found. split; [exact Hrun |].
    split; [exact Hs | exact Hres].
Defined.

(** ** Exceptions of the tasks of a wave *)

Module Containment.
Import Orchestrator SchedulerFacts ExecutorFacts.

(** A step that leaves the registered observers and the hooks runner as
    they are, also when it raises. *)
Definition keeps {A : Type} (m : M A) : Prop :=
  ∀ st, event_handlers (snd (m st)) = event_handlers st
        ∧ hooks_runner (snd (m st)) = hooks_runner st.

Lemma keeps_ret {A : Type} (a : A) : keeps (ret a : M A).
Proof. by intros st. Qed.

Lemma keeps_bind {A B : Type} (m : M A) (k : A → M B) :
  keeps m → (∀ a, keeps (k a)) → keeps (bind m k).
Proof.
  intros Hm Hk st. unfold bind. specialize (Hm st).
  destruct (m st) as [[a | e] st1]; simpl in Hm; [| exact Hm].
  destruct (Hk a st1) as [-> ->]. exact Hm.
Qed.

Lemma keeps_try {A : Type} (m : M A) (handler : exn → M A) :
  keeps m → (∀ e, keeps (handler e)) → keeps (try_except m handler).
Proof.
  intros Hm Hh st. unfold try_except. specialize (Hm st).
  destruct (m st) as [[a | e] st1]; simpl in Hm; [exact Hm |].
  destruct (is_Exception e); [| exact Hm].
  destruct (Hh e st1) as [-> ->]. exact Hm.
Qed.

Lemma keeps_update_task (t : addr) (f : Task → Task) :
  keeps (update_task t f).
Proof. by intros st. Qed.

Lemma keeps_emit (ty : string) (args : list addr)
    (kw : list (string * Py.value)) : keeps (_emit_event ty args kw).
Proof. intros st. by rewrite emit_recorded. Qed.

Lemma keeps_hooks_only {A : Type} (m : M A) : hooks_only m → keeps m.
Proof. intros Hm st. destruct (Hm st) as [n ->]. by split. Qed.

Lemma keeps_on_failure (t : addr) (e : exn) : keeps (on_failure t e).
Proof.
  intros st. by destruct (on_failure_state t e st) as (_ & _ & _ & ? & ? & _).
Qed.

(** No observer and no hooks runner raises [SystemExit] or
    [KeyboardInterrupt]. *)
Definition loop_safe (st : Orch) : Prop :=
  (∀ o, In o (event_handlers st) →
     ∀ hp ev e, o hp ev = Raised e → stops_loop e = false)
  ∧ (∀ e, from_runner st e → stops_loop e = false).

Lemma loop_safe_same (st st' : Orch) :
  event_handlers st' = event_handlers st →
  hooks_runner st' = hooks_runner st →
  loop_safe st → loop_safe st'.
Proof.
  intros Hh Hr [Hobs Hrun]. split.
  - intros o Ho. apply Hobs. by rewrite <- Hh.
  - intros e (run & n & arg & Hsome & He). apply Hrun.
    exists run, n, arg. split; [by rewrite <- Hr | exact He].
Qed.

(** A step that, among safe observers and with a safe runner, raises
    neither of the two. *)
Definition tame {A : Type} (m : M A) : Prop :=
  ∀ st e st', loop_safe st → m st = (Raised e, st') → stops_loop e = false.

Lemma tame_ret {A : Type} (a : A) : tame (ret a : M A).
Proof. intros st e st' _ H. discriminate H. Qed.

Lemma tame_update_task (t : addr) (f : Task → Task) :
  tame (update_task t f).
Proof. intros st e st' _ H. discriminate H. Qed.

Lemma tame_bind {A B : Type} (m : M A) (k : A → M B) :
  keeps m → tame m → (∀ a, tame (k a)) → tame (bind m k).
Proof.
  intros Hkeep Hm Hk st e st' Hsafe. unfold bind.
  destruct (Hkeep st) as [Hh Hr].
  destruct (m st) as [[a | e0] st1] eqn:Hrun; simpl in Hh, Hr.
  - apply (Hk a). by apply (loop_safe_same st).
  - intros [= <- _]. by eapply Hm.
Qed.

Lemma tame_try {A : Type} (m : M A) (handler : exn → M A) :
  keeps m → tame m → (∀ e, tame (handler e)) → tame (try_except m handler).
Proof.
  intros Hkeep Hm Hh st e st' Hsafe. unfold try_except.
  destruct (Hkeep st) as [Hh1 Hr1].
  destruct (m st) as [[a | e0] st1] eqn:Hrun; simpl in Hh1, Hr1;
    [discriminate |].
  destruct (is_Exception e0).
  - apply (Hh e0). by apply (loop_safe_same st).
  - intros [= <- _]. by eapply Hm.
Qed.

Lemma notify_raised (hs : list observer) (ev : OEvent) (st st' : Orch)
    (e : exn) :
  notify hs ev st = (Raised e, st') →
  ∃ o, In o hs ∧ o (objs st) ev = Raised e.
Proof.
  induction hs as [| o hs IH]; [discriminate |].
  cbn [notify]. unfold bind.
  destruct (o (objs st) ev) as [[] | e0] eqn:Ho.
  - intros H. destruct (IH H) as (o' & Hin & Ho'). exists o'.
    split; [by right | exact Ho'].
  - intros [= <- _]. exists o. split; [by left | exact Ho].
Qed.

Lemma tame_emit (ty : string) (args : list addr)
    (kw : list (string * Py.value)) : tame (_emit_event ty args kw).
Proof.
  intros st e st' [Hobs _]. unfold _emit_event, bind, modify, read.
  cbn beta iota. intros H.
  apply notify_raised in H as (o & Hin & Ho).
  by apply (Hobs o Hin _ _ e Ho).
Qed.

Lemma tame_confined {A : Type} (m : M A) : confined m → tame m.
Proof.
  intros Hm st e st' [_ Hrun] H.
  destruct (Hm st e st' H) as [Hc | Hr];
    [by apply from_code_keeps_loop | by apply Hrun].
Qed.

Lemma tame_on_failure (t : addr) (e : exn) : tame (on_failure t e).
Proof.
  unfold on_failure.
  apply tame_bind; [apply keeps_update_task | apply tame_update_task |].
  intros _.
  apply tame_bind; [apply keeps_update_task | apply tame_update_task |].
  intros _. apply tame_emit.
Qed.

Section Tasks.
Variable py_str : Py.value → string.

Lemma keeps_pre_task_hooks (t : addr) : keeps (pre_task_hooks py_str t).
Proof.
  intros st.
  destruct (pre_task_hooks_spec py_str t st)
    as (r & st' & -> & (? & ? & _) & _).
  by split.
Qed.

Lemma tame_pre_task_hooks (t : addr) : tame (pre_task_hooks py_str t).
Proof.
  intros st e st' [_ Hrun] H.
  destruct (pre_task_hooks_raises py_str t st st' e H) as [Hc | Hr];
    [by apply from_code_keeps_loop | by apply Hrun].
Qed.

Lemma keeps_begin (t : addr) : keeps (execute_task_begin py_str t).
Proof.
  unfold execute_task_begin.
  apply keeps_bind; [apply keeps_update_task | intros _].
  apply keeps_bind; [apply keeps_emit | intros _].
  apply keeps_try; [apply keeps_pre_task_hooks | intros e].
  apply keeps_bind; [apply keeps_on_failure | intros _; apply keeps_ret].
Qed.

Lemma tame_begin (t : addr) : tame (execute_task_begin py_str t).
Proof.
  unfold execute_task_begin.
  apply tame_bind; [apply keeps_update_task | apply tame_update_task |].
  intros _.
  apply tame_bind; [apply keeps_emit | apply tame_emit |]. intros _.
  apply tame_try; [apply keeps_pre_task_hooks | apply tame_pre_task_hooks |].
  intros e.
  apply tame_bind; [apply keeps_on_failure | apply tame_on_failure |].
  intros _. apply tame_ret.
Qed.

Lemma keeps_run_role_handler (t : addr) : keeps (run_role_handler t).
Proof.
  unfold run_role_handler.
  apply keeps_bind;
    [apply keeps_hooks_only, hooks_only_execute_by_role | intros res].
  apply keeps_bind; [apply keeps_update_task | intros _].
  apply keeps_bind; [apply keeps_update_task | intros _].
  apply keeps_emit.
Qed.

Lemma keeps_resume (t : addr) : keeps (execute_task_resume t).
Proof.
  unfold execute_task_resume.
  apply keeps_bind; [| intros _; apply keeps_ret].
  apply keeps_try; [apply keeps_run_role_handler |].
  intros e; apply keeps_on_failure.
Qed.

Lemma tame_resume (t : addr) : tame (execute_task_resume t).
Proof.
  unfold execute_task_resume.
  apply tame_bind; [| | intros _; apply tame_ret].
  { apply keeps_try; [apply keeps_run_role_handler |].
    intros e; apply keeps_on_failure. }
  apply tame_try; [apply keeps_run_role_handler | |
                   intros e; apply tame_on_failure].
  unfold run_role_handler.
  apply tame_bind;
    [apply keeps_hooks_only, hooks_only_execute_by_role
    | apply tame_confined, confined_execute_by_role |].
  intros res.
  apply tame_bind; [apply keeps_update_task | apply tame_update_task |].
  intros _.
  apply tame_bind; [apply keeps_update_task | apply tame_update_task |].
  intros _. apply tame_emit.
Qed.

(** The early [return task] returns the task that was given. *)
Lemma begin_returns_its_task (t t' : addr) (st st' : Orch) :
  execute_task_begin py_str t st = (Returned (Finished t'), st') → t' = t.
Proof.
  unfold execute_task_begin, bind, update_task, modify, try_except.
  cbn beta iota.
  destruct (_emit_event "task.started" [t] [] _) as [[[] | e] st1];
    [| discriminate].
  destruct (pre_task_hooks_spec py_str t st1) as (r & st2 & -> & _ & Hr).
  destruct r as [[t0 |] | e].
  - destruct Hr as [-> _]. by intros [= ->].
  - discriminate.
  - destruct (is_Exception e); [| discriminate].
    destruct (on_failure t e st2) as [[[] | e'] st3]; [| discriminate].
    by intros [= ->].
Qed.

Lemma resume_returns_its_task (t t' : addr) (st st' : Orch) :
  execute_task_resume t st = (Returned t', st') → t' = t.
Proof.
  unfold execute_task_resume, bind.
  destruct (try_except (run_role_handler t) (on_failure t) st)
    as [[[] | e] st1]; [| discriminate].
  by intros [= ->].
Qed.

(** An item of the results of a wave: the task, or an exception that is
    neither [SystemExit] nor [KeyboardInterrupt]. *)
Definition item_for (t : addr) (r : outcome addr) : Prop :=
  r = Returned t ∨ ∃ e, r = Raised e ∧ stops_loop e = false.

Definition slot_ok (s : addr * option (outcome addr)) : Prop :=
  match snd s with
  | Some r => item_for (fst s) r
  | None => True
  end.

Lemma collected_keeps_loop (e : exn) :
  stops_loop e = false → stops_loop (collected e) = false.
Proof.
  intros He. unfold collected.
  by destruct (String.eqb (exn_class e) "CancelledError").
Qed.

Lemma gather_start_shape (wave : list addr) :
  ∀ st, loop_safe st →
  ∃ slots st',
    gather_start py_str wave st = (Returned slots, st')
    ∧ event_handlers st' = event_handlers st
    ∧ hooks_runner st' = hooks_runner st
    ∧ map fst slots = wave
    ∧ Forall slot_ok slots.
Proof.
  induction wave as [| t wave IH]; intros st Hsafe.
  - exists [], st. split; [reflexivity |]. split; [reflexivity |].
    split; [reflexivity |]. split; [reflexivity | constructor].
  - destruct (keeps_begin t st) as [Hk Hk'].
    pose proof (tame_begin t st) as Htame.
    cbn [gather_start]. unfold bind, capture.
    destruct (execute_task_begin py_str t st) as [r st1] eqn:Hb.
    simpl in Hk, Hk'.
    assert (loop_safe st1) as Hsafe1 by (by apply (loop_safe_same st)).
    destruct (IH st1 Hsafe1) as (slots & st2 & Hrest & Hh & Hr & Hm & Hok).
    destruct r as [[t' |] | e].
    + rewrite Hrest. eexists _, st2. split; [reflexivity |].
      split; [by rewrite Hh, Hk |]. split; [by rewrite Hr, Hk' |].
      split; [simpl; by rewrite Hm |].
      constructor; [| exact Hok]. left.
      by rewrite (begin_returns_its_task t t' st st1 Hb).
    + rewrite Hrest. eexists _, st2. split; [reflexivity |].
      split; [by rewrite Hh, Hk |]. split; [by rewrite Hr, Hk' |].
      split; [simpl; by rewrite Hm |].
      constructor; [exact I | exact Hok].
    + rewrite (Htame e st1 Hsafe eq_refl), Hrest.
      eexists _, st2. split; [reflexivity |].
      split; [by rewrite Hh, Hk |]. split; [by rewrite Hr, Hk' |].
      split; [simpl; by rewrite Hm |].
      constructor; [| exact Hok]. right. eexists. split; [reflexivity |].
      apply collected_keeps_loop. by apply (Htame e st1 Hsafe).
Qed.

Lemma gather_finish_shape (slots : list (addr * option (outcome addr))) :
  Forall slot_ok slots →
  ∀ st, loop_safe st →
  ∃ rs st',
    gather_finish slots st = (Returned rs, st')
    ∧ event_handlers st' = event_handlers st
    ∧ hooks_runner st' = hooks_runner st
    ∧ Forall2 item_for (map fst slots) rs.
Proof.
  induction 1 as [| [t [r |]] slots Hs _ IH]; intros st Hsafe.
  - exists [], st. split; [reflexivity |]. split; [reflexivity |].
    split; [reflexivity | constructor].
  - destruct (IH st Hsafe) as (rs & st1 & Hrun & Hh & Hr & Hitems).
    cbn [gather_finish]. unfold bind. rewrite Hrun.
    exists (r :: rs), st1. split; [reflexivity |]. split; [exact Hh |].
    split; [exact Hr |]. by constructor.
  - destruct (keeps_resume t st) as [Hk Hk'].
    pose proof (tame_resume t st) as Htame.
    cbn [gather_finish]. unfold bind, capture.
    destruct (execute_task_resume t st) as [r st1] eqn:Hres.
    simpl in Hk, Hk'.
    assert (loop_safe st1) as Hsafe1 by (by apply (loop_safe_same st)).
    destruct (IH st1 Hsafe1) as (rs & st2 & Hrest & Hh & Hr & Hitems).
    destruct r as [t' | e].
    + rewrite Hrest. eexists _, st2. split; [reflexivity |].
      split; [by rewrite Hh, Hk |]. split; [by rewrite Hr, Hk' |].
      constructor; [| exact Hitems]. left.
      by rewrite (resume_returns_its_task t t' st st1 Hres).
    + rewrite (Htame e st1 Hsafe eq_refl), Hrest.
      eexists _, st2. split; [reflexivity |].
      split; [by rewrite Hh, Hk |]. split; [by rewrite Hr, Hk' |].
      constructor; [| exact Hitems]. right. eexists. split; [reflexivity |].
      apply collected_keeps_loop. by apply (Htame e st1 Hsafe).
Qed.

Lemma gather_shape (wave : list addr) (st : Orch) :
  loop_safe st →
  ∃ rs st',
    gather py_str wave st = (Returned rs, st')
    ∧ event_handlers st' = event_handlers st
    ∧ hooks_runner st' = hooks_runner st
    ∧ Forall2 item_for wave rs.
Proof.
  intros Hsafe.
  destruct (gather_start_shape wave st Hsafe)
    as (slots & st1 & Hs & Hh1 & Hr1 & Hm & Hok).
  destruct (gather_finish_shape slots Hok st1)
    as (rs & st2 & Hf & Hh2 & Hr2 & Hit);
    [by apply (loop_safe_same st) |].
  unfold gather, bind. rewrite Hs, Hf. exists rs, st2.
  split; [reflexivity |]. split; [by rewrite Hh2, Hh1 |].
  split; [by rewrite Hr2, Hr1 | by rewrite <- Hm].
Qed.

(** The observers return on every event without positional arguments:
    the events of the waves. *)
Definition accepts_wave_events (st : Orch) : Prop :=
  ∀ o, In o (event_handlers st) →
    ∀ hp ev, ev_args ev = [] → o hp ev = Returned tt.

Lemma accepts_same (st st' : Orch) :
  event_handlers st' = event_handlers st →
  accepts_wave_events st → accepts_wave_events st'.
Proof. intros Heq Ha o Ho. apply Ha. by rewrite <- Heq. Qed.

Lemma run_waves_shape (waves : list (list addr)) :
  ∀ i acc st, accepts_wave_events st → loop_safe st →
  ∃ rs st',
    run_waves py_str i waves acc st = (Returned (acc ++ rs), st')
    ∧ Forall2 item_for (concat waves) rs.
Proof.
  induction waves as [| wave waves IH]; intros i acc st Ha Hsafe.
  - exists [], st. split; [by rewrite app_nil_r | constructor].
  - cbn [run_waves]. unfold bind.
    rewrite emit_accepted by (intros o Ho; by apply Ha).
    set (st0 := with_emitted _ st).
    destruct (gather_shape wave st0)
      as (rs & st1 & -> & Hh1 & Hr1 & Hitems);
      [by apply (loop_safe_same st) |].
    assert (accepts_wave_events st1) as Ha1
      by (apply (accepts_same st); [exact Hh1 | exact Ha]).
    assert (loop_safe st1) as Hsafe1 by (by apply (loop_safe_same st)).
    rewrite emit_accepted by (intros o Ho; by apply Ha1).
    set (st2 := with_emitted _ st1).
    destruct (IH (S i) (acc ++ rs) st2) as (rs' & st3 & -> & Hitems');
      [exact Ha1 | by apply (loop_safe_same st1) |].
    exists (rs ++ rs'), st3. split; [by rewrite app_assoc |].
    cbn [concat]. by apply Forall2_app.
Qed.

End Tasks.

End Containment.

Import Orchestrator SchedulerFacts ExecutorFacts Containment.

(** X28.  When the scheduler accepts the batch, the observers return on the
    events of the waves, and neither an observer nor the hooks runner raises
    [SystemExit] or [KeyboardInterrupt], [execute_wave] returns one item for
    each task, in the order of the waves, whatever else the observers do on
    the events of the tasks and whatever else the hooks runner does: the
    item is the task, or the exception that left its coroutine. *)
Theorem execute_wave_collects_what_its_tasks_raise :
  ∀ (py_str : Py.value → string) (st : Orch) (batch : list addr)
    (waves : list (list addr)),
    accepts_wave_events st →
    loop_safe st →
    calculate_waves (objs st) batch = Returned waves →
    ∃ results st',
      execute_wave py_str batch st = (Returned results, st')
      ∧ Forall2 item_for (concat waves) results
      ∧ length results = length batch.
Proof.
  intros py_str st batch waves Ha Hsafe Hwaves.
  destruct (run_waves_shape py_str waves 0 [] st Ha Hsafe)
    as (rs & st' & Hrun & Hit).
  exists rs, st'.
  split; [unfold execute_wave, bind; by rewrite Hwaves |].
  split; [exact Hit |].
  destruct (calculate_waves_sound (objs st) batch waves Hwaves) as (Hperm & _).
  rewrite <- (Permutation_length Hperm).
  symmetry. by eapply Forall2_length.
Qed.

(** An observer that raises on the events of the tasks and returns on the
    events of the waves. *)
Definition task_event_observer : observer :=
  λ _ ev, match ev_args ev with
          | [] => Returned tt
          | _ :: _ => Raised (ValueError "observer failed")
          end.

Lemma execute_wave_collects_what_its_tasks_raise_witness :
  ∃ results st',
    execute_wave (λ _, "") [0; 1; 2]
      (on_event task_event_observer (Orchestrator.init release))
    = (Returned results, st')
    ∧ length results = 3.
Proof.
  destruct (execute_wave_collects_what_its_tasks_raise (λ _, "")
              (on_event task_event_observer (Orchestrator.init release))
              [0; 1; 2] [[0]; [1; 2]])
    as (results & st' & Hrun & _ & Hlen).
  - intros o [<- | []] hp ev Hargs. unfold task_event_observer.
    by rewrite Hargs.
  - split.
    + intros o [<- | []] hp ev e. unfold task_event_observer.
      destruct (ev_args ev); [discriminate |]. by intros [= <-].
    + intros e (run & n & arg & Hrun & _). discriminate Hrun.
  - vm_compute. reflexivity.
  - exists results, st'. split; [exact Hrun | exact Hlen].
Defined.

Import ExecutorTraces.

(** A hooks runner whose call is cancelled, and one that exits. *)
Definition cancelled_runner : runner := λ _ _, Raised (CancelledError "").
Definition exiting_runner : runner := λ _ _, Raised (SystemExit "1").

(** X29.  An exception of the hooks runner that does not derive from
    [Exception] passes the [except Exception] clause of [execute_task]: when
    the pre-task hooks of a TechLead task raise it, [execute_task] raises
    it, the task stays [RUNNING] without error, and [task.started] is the
    only event: there is no [task.failed].  In a wave, [gather] keeps a
    [CancelledError] as the item of the task and [execute_wave] goes on to
    [wave.completed] and returns; a [SystemExit] ends [execute_wave] before
    [wave.completed]. *)
Theorem base_exception_of_the_hooks_runner_is_not_contained :
  (∀ (py_str : Py.value → string) (st : Orch) (t : addr) (run : runner)
     (e : exn),
     quiet st →
     hooks_runner st = Some run →
     role (objs st t) = "tech_lead" →
     run (hook_calls st) (VStr (action (objs st t))) = Raised e →
     is_Exception e = false →
     ∃ st',
       execute_task py_str t st = (Raised e, st')
       ∧ objs st' t = set_status RUNNING (objs st t)
       ∧ emitted st' = emitted st ++ [started t]
       ∧ hook_calls st' = S (hook_calls st))
  ∧ (let '(r, st') :=
       execute_wave (λ _, "") [0]
         (with_runner cancelled_runner (Orchestrator.init gate_task)) in
     r = Returned [Raised (CancelledError "")]
     ∧ status (objs st' 0) = RUNNING
     ∧ map ev_type (emitted st')
       = ["wave.started"; "task.started"; "wave.completed"])
  ∧ (let '(r, st') :=
       execute_wave (λ _, "") [0]
         (with_runner exiting_runner (Orchestrator.init gate_task)) in
     r = Raised (SystemExit "1")
     ∧ status (objs st' 0) = RUNNING
     ∧ map ev_type (emitted st') = ["wave.started"; "task.started"]).
Proof.
  split; [| split; by vm_compute].
  intros py_str st t run e Hq Hrun Hrole Hraise He.
  destruct (execute_task_stopped_by_hooks py_str st t run Hq Hrun Hrole)
    as (r & st' & Hexec & Hcase).
  rewrite Hraise in Hcase. cbn [hook_verdict] in Hcase. rewrite He in Hcase.
  destruct Hcase as (-> & Hobj & Hev & Hcalls).
  exists st'. auto.
Qed.

Lemma base_exception_of_the_hooks_runner_is_not_contained_witness :
  ∃ st',
    execute_task (λ _, "") 0
      (with_runner cancelled_runner (Orchestrator.init gate_task))
    = (Raised (CancelledError ""), st')
    ∧ status (objs st' 0) = RUNNING.
Proof.
  destruct base_exception_of_the_hooks_runner_is_not_contained
    as [Hgeneral _].
  destruct (Hgeneral (λ _, "")
              (with_runner cancelled_runner (Orchestrator.init gate_task)) 0
              cancelled_runner (CancelledError ""))
    as (st' & Hrun & Hobj & _).
  - intros o Ho. simpl in Ho. destruct Ho.
  - reflexivity.
  - reflexivity.
  - reflexivity.
  - reflexivity.
  - exists st'. split; [exact Hrun |]. by rewrite Hobj.
Defined.
